(** * slippy-find: slip resolution from local commit ancestry

    A shallow embedding of the Go program's core (git adapter, pipeline
    configuration loader, slip resolver) and the properties checked
    against it.

    Conventions.
    - A Go [string] is a Rocq [string] (a sequence of bytes).
    - A Go [int] is a [Z]; the program does no arithmetic on it beyond
      comparisons, so no wrap-around is involved.
    - A Go [(T, error)] result is [result T]; a Go [error] value is a
      [goerror] carrying its message and the errors it wraps.
    - Calls to the injected loggers only write diagnostics and never
      influence control flow; they are left out, except that an argument
      whose evaluation can panic is kept as a panic. *)

From Stdlib Require Import ZArith Ascii String List Lia Bool.
From stdpp Require Import base option gmap strings list fin_maps pretty.

Local Open Scope string_scope.
Local Open Scope Z_scope.

(** ** Go errors *)

Module GoErr.

(** [New msg] is [errors.New(msg)]; [Errorf msg ws] is the value of a
    [fmt.Errorf] call whose formatted text is [msg] and whose [%w]
    operands are [ws], in order. *)
#[warnings="-register-all"]
Inductive goerror : Type :=
| New (msg : string)
| Errorf (msg : string) (wrapped : list goerror).

(** [err.Error()] *)
Definition Error (e : goerror) : string :=
  match e with
  | New msg => msg
  | Errorf msg _ => msg
  end.

Fixpoint goerror_eqb (a b : goerror) {struct a} : bool :=
  match a, b with
  | New m1, New m2 => bool_decide (m1 = m2)
  | Errorf m1 w1, Errorf m2 w2 =>
      bool_decide (m1 = m2) &&
      (fix go (l1 l2 : list goerror) : bool :=
         match l1, l2 with
         | [], [] => true
         | x :: l1', y :: l2' => goerror_eqb x y && go l1' l2'
         | _, _ => false
         end) w1 w2
  | _, _ => false
  end.

(** [errors.Is(err, target)]: [err] itself, or anything it wraps,
    depth first. *)
Fixpoint Is (err target : goerror) {struct err} : bool :=
  goerror_eqb err target ||
  match err with
  | New _ => false
  | Errorf _ ws =>
      (fix any (l : list goerror) : bool :=
         match l with
         | [] => false
         | w :: l' => Is w target || any l'
         end) ws
  end.

Inductive result (A : Type) : Type :=
| Ok (a : A)
| Err (e : goerror).
Arguments Ok {A} a.
Arguments Err {A} e.

End GoErr.
Import GoErr.

(** ** Package domain *)

Module domain.

Definition ErrRepositoryNotFound : goerror :=
  New "git repository not found at specified path".
Definition ErrNoRemoteOrigin : goerror :=
  New "no 'origin' remote configured; cannot determine repository name".
Definition ErrInvalidRemoteURL : goerror :=
  New "could not parse repository name from remote URL".
Definition ErrNoAncestorSlip : goerror :=
  New "no slip found in commit ancestry".
Definition ErrEmptyAncestry : goerror :=
  New "commit ancestry is empty".

Record GitContext : Type := {
  HeadSHA : string;
  Branch : string;
  Repository : string;
  IsDetached : bool
}.

Record ResolveInput : Type := { Depth : Z }.

Record ResolveOutput : Type := {
  CorrelationID : string;
  MatchedCommit : string;
  OutRepository : string;
  OutBranch : string;
  ResolvedBy : string
}.

Record Slip : Type := { SlipCorrelationID : string }.

Definition DefaultAncestryDepth : Z := 25.

End domain.

(** ** Package git: the go-git backed repository adapter *)

Module git.
Import domain.

(** *** The parts of go-git the adapter relies on

    A commit object carries its hash, its parent hashes in the order
    git records them (the first one is the first parent) and its
    committer time, in seconds. *)
Record Commit : Type := {
  Hash : string;
  ParentHashes : list string;
  When : Z
}.

(** What [HEAD] resolves to: a hash, and the short branch name when
    the reference name is a branch ([None] for a detached HEAD). *)
Record Reference : Type := {
  RefHash : string;
  RefBranch : option string
}.

(** The state of the go-git repository a [GoGitRepository] wraps:
    [HEAD] ([None] when it does not resolve), the object store
    restricted to commits, keyed by hash, and the configured URLs of
    each remote. *)
Record GoGitRepository : Type := {
  HEAD : option Reference;
  objects : gmap string Commit;
  remotes : gmap string (list string)
}.

Definition ErrReferenceNotFound : goerror := New "reference not found".
Definition ErrObjectNotFound : goerror := New "object not found".
Definition ErrRemoteNotFound : goerror := New "remote not found".
Definition ErrStop : goerror := New "stop iter".       (* storer.ErrStop *)
Definition Canceled : goerror := New "context canceled". (* context.Canceled *)
Definition DeadlineExceeded : goerror := New "context deadline exceeded".

Definition Head (repo : GoGitRepository) : result Reference :=
  match HEAD repo with
  | Some ref => Ok ref
  | None => Err ErrReferenceNotFound
  end.

Definition CommitObject (repo : GoGitRepository) (h : string) : result Commit :=
  match objects repo !! h with
  | Some c => Ok c
  | None => Err ErrObjectNotFound
  end.

Definition Remote (repo : GoGitRepository) (name : string) : result (list string) :=
  match remotes repo !! name with
  | Some urls => Ok urls
  | None => Err ErrRemoteNotFound
  end.

(** A [context.Context] as the walk observes it: [Done ctx k] tells
    whether the [k]-th poll of [ctx.Done()] (counting from 0) finds the
    channel closed, and [CtxErr ctx] is what [ctx.Err()] then reports. *)
Record Context : Type := {
  Done : nat -> bool;
  TimedOut : bool
}.

(** [ctx.Err()] once the context is done: [context.DeadlineExceeded]
    when a deadline ended it, [context.Canceled] otherwise. *)
Definition CtxErr (ctx : Context) : goerror :=
  if TimedOut ctx then DeadlineExceeded else Canceled.

Definition Background : Context :=
  {| Done := fun _ => false; TimedOut := false |}.

(** A context cancelled before the call: every poll finds it done. *)
Definition AlreadyCanceled : Context :=
  {| Done := fun _ => true; TimedOut := false |}.

(** A context whose cancellation fires just before poll number [t]. *)
Definition CanceledAt (t : nat) : Context :=
  {| Done := fun k => bool_decide (t <= k)%nat; TimedOut := false |}.

(** *** go-git's commit-time iterator ([object.NewCommitIterCTime])

    The iterator keeps the set of hashes already returned and a
    priority queue of loaded commits, latest committer time first. The
    queue is kept here as a list sorted by decreasing [When]; a commit
    pushed with the time of one already queued goes behind it. (The
    order go-git's heap gives to equal times is internal to it; the
    concrete repositories below use pairwise distinct times.) *)
Record commitIteratorByCTime : Type := {
  seen : gset string;
  heap : list Commit
}.

Fixpoint heap_Push (c : Commit) (h : list Commit) : list Commit :=
  match h with
  | [] => [c]
  | x :: h' => if When x <? When c then c :: x :: h' else x :: heap_Push c h'
  end.

(** [NewCommitIterCTime(c, nil, nil)] *)
Definition NewCommitIterCTime (c : Commit) : commitIteratorByCTime :=
  {| seen := ∅; heap := [c] |}.

Inductive next_result : Type :=
| Yield (c : Commit) (w : commitIteratorByCTime)
| EOF
| NextErr (e : goerror).

(** The loop of [Next] over [c.ParentHashes]: a parent already seen is
    skipped, any other is loaded from the store and pushed; a parent
    that cannot be loaded aborts [Next] with the store's error. *)
Fixpoint push_parents (store : gmap string Commit) (sn : gset string)
    (hs : list string) (h : list Commit) : result (list Commit) :=
  match hs with
  | [] => Ok h
  | p :: hs' =>
      if decide (p ∈ sn) then push_parents store sn hs' h
      else match store !! p with
           | Some pc => push_parents store sn hs' (heap_Push pc h)
           | None => Err ErrObjectNotFound
           end
  end.

(** [Next]: pop until a commit not yet seen comes out, mark it, queue
    its parents, return it; [io.EOF] on an empty queue. *)
Fixpoint next_from (store : gmap string Commit) (sn : gset string)
    (h : list Commit) : next_result :=
  match h with
  | [] => EOF
  | c :: rest =>
      if decide (Hash c ∈ sn) then next_from store sn rest
      else
        let sn' := {[Hash c]} ∪ sn in
        match push_parents store sn' (ParentHashes c) rest with
        | Ok h' => Yield c {| seen := sn'; heap := h' |}
        | Err e => NextErr e
        end
  end.

Definition Next (store : gmap string Commit) (w : commitIteratorByCTime)
  : next_result :=
  next_from store (seen w) (heap w).

(** [ForEach]: call [cb] on each commit [Next] returns; [io.EOF] and a
    callback returning [storer.ErrStop] end the loop without error, any
    other error is returned. The callback is a closure over mutable
    variables of its caller, passed here as the state [S]. [None] means
    the iteration budget [fuel] ran out. *)
Fixpoint ForEach {S : Type} (fuel : nat) (store : gmap string Commit)
    (w : commitIteratorByCTime)
    (cb : Commit -> S -> S * option goerror) (s : S)
  : option (S * option goerror) :=
  match fuel with
  | O => None
  | Datatypes.S fuel' =>
      match Next store w with
      | EOF => Some (s, None)
      | NextErr e => Some (s, Some e)
      | Yield c w' =>
          let '(s', r) := cb c s in
          match r with
          | None => ForEach fuel' store w' cb s'
          | Some e =>
              if goerror_eqb e ErrStop then Some (s', None)
              else Some (s', Some e)
          end
      end
  end.

(** *** GetCommitAncestry *)

(** The variables the callback closes over: the slice [commits], and
    the number of polls of [ctx.Done()] made so far. *)
Record walk_state : Type := {
  commits : list string;
  polls : nat
}.

Definition ancestry_callback (ctx : Context) (depth : Z)
    (c : Commit) (s : walk_state) : walk_state * option goerror :=
  let s1 := {| commits := commits s; polls := Datatypes.S (polls s) |} in
  if Done ctx (polls s) then (s1, Some (CtxErr ctx))
  else if Z.of_nat (length (commits s)) >=? depth then (s1, Some ErrStop)
  else ({| commits := commits s ++ [Hash c]; polls := Datatypes.S (polls s) |},
        None).

Definition normalize_depth (depth : Z) : Z :=
  if depth <=? 0 then DefaultAncestryDepth else depth.

(** [GetCommitAncestry(ctx, depth)]. The callback stops the loop once
    [depth] commits are collected, so [depth + 1] rounds of [ForEach]
    always suffice; the result is [None] only if they did not (see
    [GetCommitAncestry_total]). *)
Definition GetCommitAncestry (repo : GoGitRepository) (ctx : Context) (depth : Z)
  : option (result (list string)) :=
  let depth := normalize_depth depth in
  match Head repo with
  | Err e => Some (Err (Errorf ("failed to get HEAD: " ++ Error e) [e]))
  | Ok head =>
      match CommitObject repo (RefHash head) with
      | Err e =>
          Some (Err (Errorf
            ("failed to get commit object for HEAD: " ++ Error e) [e]))
      | Ok commit =>
          let iter := NewCommitIterCTime commit in
          match ForEach (Datatypes.S (Z.to_nat depth)) (objects repo) iter
                  (ancestry_callback ctx depth)
                  {| commits := []; polls := O |} with
          | None => None
          | Some (s, err) =>
              match err with
              | Some e =>
                  if negb (Is e ErrStop) then
                    Some (Err (Errorf
                      ("failed to walk commit history: " ++ Error e) [e]))
                  else if (length (commits s) =? 0)%nat
                       then Some (Err ErrEmptyAncestry)
                       else Some (Ok (commits s))
              | None =>
                  if (length (commits s) =? 0)%nat
                  then Some (Err ErrEmptyAncestry)
                  else Some (Ok (commits s))
              end
          end
      end
  end.



(** *** Remote URL parsing *)

(** [strings.TrimSpace]: leading and trailing white space is removed,
    rune by rune. [space_prefix s] drops one leading white-space rune
    of [s], given in UTF-8: the six ASCII ones, U+0085, U+00A0, U+1680,
    U+2000 to U+200A, U+2028, U+2029, U+202F, U+205F and U+3000. *)
Definition is_ascii_space (c : ascii) : bool :=
  let n := nat_of_ascii c in
  ((9 <=? n) && (n <=? 13) || (n =? 32))%nat.

Definition space_prefix (s : list ascii) : option (list ascii) :=
  match s with
  | [] => None
  | c :: s1 =>
      if is_ascii_space c then Some s1
      else
        match nat_of_ascii c, s1 with
        | 194%nat, c2 :: s2 =>
            let n2 := nat_of_ascii c2 in
            if ((n2 =? 133) || (n2 =? 160))%nat then Some s2 else None
        | 225%nat, c2 :: c3 :: s3 =>
            if ((nat_of_ascii c2 =? 154) && (nat_of_ascii c3 =? 128))%nat
            then Some s3 else None
        | 226%nat, c2 :: c3 :: s3 =>
            let n2 := nat_of_ascii c2 in
            let n3 := nat_of_ascii c3 in
            if ((n2 =? 128) &&
                ((128 <=? n3) && (n3 <=? 138) || (n3 =? 168) || (n3 =? 169)
                 || (n3 =? 175))
                || (n2 =? 129) && (n3 =? 159))%nat
            then Some s3 else None
        | 227%nat, c2 :: c3 :: s3 =>
            if ((nat_of_ascii c2 =? 128) && (nat_of_ascii c3 =? 128))%nat
            then Some s3 else None
        | _, _ => None
        end
  end.

(** The same from the end of [s]: [space_suffix s] drops one trailing
    white-space rune. *)
Definition space_suffix (s : list ascii) : option (list ascii) :=
  match rev s with
  | [] => None
  | c :: r1 =>
      if is_ascii_space c then Some (rev r1)
      else
        match r1 with
        | c2 :: r2 =>
            match space_prefix [c2; c] with
            | Some [] => Some (rev r2)
            | _ =>
                match r2 with
                | c3 :: r3 =>
                    match space_prefix [c3; c2; c] with
                    | Some [] => Some (rev r3)
                    | _ => None
                    end
                | [] => None
                end
            end
        | [] => None
        end
  end.

Fixpoint trim_left (n : nat) (s : list ascii) : list ascii :=
  match n with
  | O => s
  | S n' => match space_prefix s with
            | Some s' => trim_left n' s'
            | None => s
            end
  end.

Fixpoint trim_right (n : nat) (s : list ascii) : list ascii :=
  match n with
  | O => s
  | S n' => match space_suffix s with
            | Some s' => trim_right n' s'
            | None => s
            end
  end.

(** Each round removes at least one byte, so [length s] rounds reach
    the first rune that is not white space. *)
Definition TrimSpace (s : string) : string :=
  let l := list_ascii_of_string s in
  let l1 := trim_left (length l) l in
  string_of_list_ascii (trim_right (length l1) l1).

(** The fragment of Go's [regexp] syntax the two patterns are written
    in. [Group i r] is the [i]-th capturing group; a non-capturing
    group [(?:r)] is [r] itself. *)
Inductive class : Type :=
| AnyBut (c : ascii).                   (* [[^c]] *)

Inductive regex : Type :=
| Bol                                   (* [^] *)
| Eol                                   (* [$] *)
| Str (t : string)                      (* literal text *)
| Opt (r : regex)                       (* [r?] *)
| Plus (cl : class)                     (* [cl+] *)
| PlusLazy (cl : class)                 (* [cl+?] *)
| Cat (r1 r2 : regex)
| Group (i : nat) (r : regex).

Definition class_match (cl : class) (c : ascii) : bool :=
  match cl with
  | AnyBut d => negb (bool_decide (c = d))
  end.

Fixpoint strip_prefix (t s : list ascii) : option (list ascii) :=
  match t, s with
  | [], _ => Some s
  | a :: t', b :: s' => if bool_decide (a = b) then strip_prefix t' s' else None
  | _ :: _, [] => None
  end.

Section Matcher.
Context {R : Type}.

(** [cl+] followed by [k]: the longest run first. *)
Fixpoint plus_greedy (cl : class) (s : list ascii)
    (k : list ascii -> option R) : option R :=
  match s with
  | [] => None
  | c :: s' =>
      if class_match cl c then
        match plus_greedy cl s' k with
        | Some r => Some r
        | None => k s'
        end
      else None
  end.

(** [cl+?] followed by [k]: the shortest run first. *)
Fixpoint plus_lazy (cl : class) (s : list ascii)
    (k : list ascii -> option R) : option R :=
  match s with
  | [] => None
  | c :: s' =>
      if class_match cl c then
        match k s' with
        | Some r => Some r
        | None => plus_lazy cl s' k
        end
      else None
  end.
End Matcher.

(** A backtracking matcher in continuation-passing style: alternatives
    are tried in the order of preference of the syntax (take the
    optional part first, the longer run first for [+], the shorter
    first for [+?]), and the first that lets the rest of the pattern
    match wins. This is the match Go's [regexp] reports for a pattern
    (leftmost-first). [n0] is the length of the whole text, [s] what
    is left of it, [cs] the text captured so far. *)
Fixpoint rmatch (n0 : nat) (r : regex) (s : list ascii)
    (cs : gmap nat (list ascii))
    (k : list ascii -> gmap nat (list ascii) -> option (gmap nat (list ascii)))
  : option (gmap nat (list ascii)) :=
  match r with
  | Bol => if (length s =? n0)%nat then k s cs else None
  | Eol => match s with [] => k s cs | _ :: _ => None end
  | Str t => match strip_prefix (list_ascii_of_string t) s with
             | Some s' => k s' cs
             | None => None
             end
  | Opt r1 => match rmatch n0 r1 s cs k with
              | Some x => Some x
              | None => k s cs
              end
  | Plus cl => plus_greedy cl s (fun s' => k s' cs)
  | PlusLazy cl => plus_lazy cl s (fun s' => k s' cs)
  | Cat r1 r2 => rmatch n0 r1 s cs (fun s' cs' => rmatch n0 r2 s' cs' k)
  | Group i r1 =>
      rmatch n0 r1 s cs
        (fun s' cs' => k s' (<[i := take (length s - length s') s]> cs'))
  end.

(** The leftmost match: the start positions are tried in order. Group
    0 is the text of the whole match. *)
Fixpoint find_from (n0 : nat) (r : regex) (s : list ascii)
  : option (gmap nat (list ascii)) :=
  match rmatch n0 (Group 0 r) s ∅ (fun _ cs => Some cs) with
  | Some cs => Some cs
  | None => match s with
            | [] => None
            | _ :: s' => find_from n0 r s'
            end
  end.

(** [re.FindStringSubmatch(s)] for a pattern with [groups] capturing
    groups: [nil] without a match, else the text of the match and of
    each group (empty for a group that took no part). *)
Definition FindStringSubmatch (r : regex) (groups : nat) (s : string)
  : list string :=
  let l := list_ascii_of_string s in
  match find_from (length l) r l with
  | None => []
  | Some cs =>
      map (fun i => string_of_list_ascii (default [] (cs !! i)))
          (seq 0 (S groups))
  end.

Definition slash : ascii := "/"%char.
Definition colon : ascii := ":"%char.

(** [^https?://[^/]+/([^/]+)/([^/]+?)(?:\.git)?$] *)
Definition httpsURLPattern : regex :=
  Cat Bol (Cat (Str "http") (Cat (Opt (Str "s")) (Cat (Str "://")
    (Cat (Plus (AnyBut slash)) (Cat (Str "/")
      (Cat (Group 1 (Plus (AnyBut slash))) (Cat (Str "/")
        (Cat (Group 2 (PlusLazy (AnyBut slash)))
          (Cat (Opt (Str ".git")) Eol))))))))).

(** [^git@[^:]+:([^/]+)/([^/]+?)(?:\.git)?$] *)
Definition sshURLPattern : regex :=
  Cat Bol (Cat (Str "git@") (Cat (Plus (AnyBut colon)) (Cat (Str ":")
    (Cat (Group 1 (Plus (AnyBut slash))) (Cat (Str "/")
      (Cat (Group 2 (PlusLazy (AnyBut slash)))
        (Cat (Opt (Str ".git")) Eol))))))).

Definition parseRepoFromURL (url : string) : result string :=
  let url := TrimSpace url in
  match FindStringSubmatch httpsURLPattern 2 url with
  | [_; owner; name] => Ok (owner ++ "/" ++ name)
  | _ =>
      match FindStringSubmatch sshURLPattern 2 url with
      | [_; owner; name] => Ok (owner ++ "/" ++ name)
      | _ => Err (New ("unrecognized URL format: " ++ url))
      end
  end.

(** *** GetGitContext *)
Definition GetGitContext (repo : GoGitRepository) : result GitContext :=
  match Head repo with
  | Err e => Err (Errorf ("failed to get HEAD: " ++ Error e) [e])
  | Ok head =>
      let branch := default "" (RefBranch head) in
      let detached := negb (bool_decide (is_Some (RefBranch head))) in
      match Remote repo "origin" with
      | Err e =>
          Err (Errorf (Error ErrNoRemoteOrigin
                       ++ ": failed to get origin remote: " ++ Error e)
                      [ErrNoRemoteOrigin; e])
      | Ok urls =>
          match urls with
          | [] =>
              Err (Errorf (Error ErrNoRemoteOrigin
                           ++ ": origin remote has no URLs configured")
                          [ErrNoRemoteOrigin])
          | url0 :: _ =>
              match parseRepoFromURL url0 with
              | Err e =>
                  Err (Errorf (Error ErrInvalidRemoteURL
                               ++ ": failed to parse URL: " ++ Error e)
                              [ErrInvalidRemoteURL; e])
              | Ok repoName =>
                  Ok {| HeadSHA := RefHash head;
                        Branch := branch;
                        Repository := repoName;
                        IsDetached := detached |}
              end
          end
      end
  end.

End git.

(** ** Package config: where the pipeline configuration comes from *)

Module config.

Definition EnvPipelineConfig : string := "SLIPPY_PIPELINE_CONFIG".
Definition EnvVaultPipelineConfigPath : string := "VAULT_PIPELINE_CONFIG_PATH".
Definition EnvVaultPipelineConfigMount : string := "VAULT_PIPELINE_CONFIG_MOUNT".
Definition DefaultVaultPipelineMount : string := "secret".

Definition ErrPipelineConfigRequired : goerror :=
  New ("pipeline configuration required: set VAULT_PIPELINE_CONFIG_PATH (with VAULT_ADDRESS, VAULT_ROLE_ID, VAULT_SECRET_ID) "
       ++ "or SLIPPY_PIPELINE_CONFIG for local file").
Definition ErrPipelineConfigNotFound : goerror :=
  New "pipeline configuration file not found".
Definition ErrPipelineConfigInvalid : goerror :=
  New "pipeline configuration is not valid JSON".
Definition ErrVaultClientFailed : goerror :=
  New "failed to create Vault client".
Definition ErrVaultSecretNotFound : goerror :=
  New "pipeline configuration not found in Vault".

(** The process environment; [os.Getenv] gives the empty string for a
    variable that is not set. *)
Definition Getenv (env : gmap string string) (name : string) : string :=
  default "" (env !! name).

(** A value of type [interface{}] found in a secret: what JSON can
    carry, and [VOther] for anything [encoding/json] cannot encode
    (a channel, say). *)
#[warnings="-register-all"]
Inductive value : Type :=
| VNil
| VBool (b : bool)
| VNumber (literal : string)
| VString (s : string)
| VList (l : list value)
| VMap (m : list (string * value))
| VOther.

(** [VaultClient]: the one method of the interface. *)
Record VaultClient : Type := {
  GetKVSecret : string -> string -> result (gmap string value)
}.

(** A [VaultClientFactory], by what calling it gives. *)
Definition VaultClientFactory : Type := result VaultClient.

(** [os.ReadFile] on each path, and [os.IsNotExist] on its errors. *)
Definition ErrNotExist : goerror := New "no such file or directory".
Definition IsNotExist (e : goerror) : bool := Is e ErrNotExist.
Definition PathError (op path : string) (e : goerror) : goerror :=
  Errorf (op ++ " " ++ path ++ ": " ++ Error e) [e].

(** What the loader takes from outside the repository: the type
    [slippy.PipelineConfig], [encoding/json] at that type
    ([json_Unmarshal data] decodes into a zero [PipelineConfig]) and at
    secret mappings, and the production Vault client factory. *)
Class Externals : Type := {
  PipelineConfig : Type;
  json_Unmarshal : string -> result PipelineConfig;
  json_Marshal : gmap string value -> result string;
  DefaultVaultClientFactory : VaultClientFactory
}.

Section Loader.
Context `{Externals}.

Definition invalid (e : goerror) : goerror :=
  Errorf (Error ErrPipelineConfigInvalid ++ ": " ++ Error e)
         [ErrPipelineConfigInvalid; e].

(** [parsePipelineConfigFromVault] *)
Definition parsePipelineConfigFromVault (secretData : gmap string value)
  : result PipelineConfig :=
  match secretData !! "config" with
  | Some (VString configStr) =>
      match json_Unmarshal configStr with
      | Err e => Err (invalid e)
      | Ok config => Ok config
      end
  | _ =>
      match json_Marshal secretData with
      | Err e =>
          Err (Errorf (Error ErrPipelineConfigInvalid
                       ++ ": failed to marshal secret data: " ++ Error e)
                      [ErrPipelineConfigInvalid; e])
      | Ok jsonData =>
          match json_Unmarshal jsonData with
          | Err e => Err (invalid e)
          | Ok config => Ok config
          end
      end
  end.

(** [loadPipelineConfigFromVault]; [None] is a [nil] factory. *)
Definition loadPipelineConfigFromVault (env : gmap string string)
    (vaultClientFactory : option VaultClientFactory) (path : string)
  : result PipelineConfig :=
  let vaultClientFactory :=
    match vaultClientFactory with
    | None => DefaultVaultClientFactory
    | Some f => f
    end in
  match vaultClientFactory with
  | Err e => Err e
  | Ok client =>
      let mount := Getenv env EnvVaultPipelineConfigMount in
      let mount := if bool_decide (mount = "")
                   then DefaultVaultPipelineMount else mount in
      match GetKVSecret client path mount with
      | Err e =>
          Err (Errorf (Error ErrVaultSecretNotFound ++ " at path " ++ path
                       ++ ": " ++ Error e)
                      [ErrVaultSecretNotFound; e])
      | Ok secretData => parsePipelineConfigFromVault secretData
      end
  end.

(** [loadPipelineConfigFromFile]; [fs] is [os.ReadFile]. *)
Definition loadPipelineConfigFromFile (fs : string -> result string)
    (path : string) : result PipelineConfig :=
  match fs path with
  | Err e =>
      if IsNotExist e then
        Err (Errorf (Error ErrPipelineConfigNotFound ++ ": " ++ path)
                    [ErrPipelineConfigNotFound])
      else
        Err (Errorf ("failed to read pipeline config: " ++ Error e) [e])
  | Ok data =>
      match json_Unmarshal data with
      | Err e => Err (invalid e)
      | Ok config => Ok config
      end
  end.

(** [loadPipelineConfigWithVault] *)
Definition loadPipelineConfigWithVault (env : gmap string string)
    (fs : string -> result string)
    (vaultClientFactory : option VaultClientFactory)
  : result PipelineConfig :=
  let vaultPath := Getenv env EnvVaultPipelineConfigPath in
  if negb (bool_decide (vaultPath = "")) then
    loadPipelineConfigFromVault env vaultClientFactory vaultPath
  else
    let pipelineConfigPath := Getenv env EnvPipelineConfig in
    if bool_decide (pipelineConfigPath = "") then
      Err ErrPipelineConfigRequired
    else loadPipelineConfigFromFile fs pipelineConfigPath.

End Loader.

(** The test double of the repository's tests: secrets by path, or an
    error for every call. *)
Definition mockVaultClient (secrets : gmap string (gmap string value))
    (err : option goerror) : VaultClient :=
  {| GetKVSecret := fun path _ =>
       match err with
       | Some e => Err e
       | None =>
           match secrets !! path with
           | Some secret => Ok secret
           | None => Err (New "secret not found")
           end
       end |}.

End config.

(** ** Package usecases: the slip resolver *)

Module usecases.
Import domain.

(** [domain.LocalGitRepository] and [domain.SlipFinder], by what the
    calls [Resolve] makes return. A Go triple [(slip, commit, err)] is
    kept as a triple, [None] for [nil]. *)
Record LocalGitRepository : Type := {
  GetGitContext : result GitContext;
  GetCommitAncestry : Z -> result (list string)
}.

Record SlipFinder : Type := {
  FindByCommits : string -> list string
                  -> option Slip * string * option goerror
}.

Record SlipResolver : Type := {
  gitRepo : LocalGitRepository;
  finder : SlipFinder
}.

(** What a call ends in: a value, an error, or a run-time panic. *)
Inductive outcome (A : Type) : Type :=
| Returns (r : result A)
| Panics (msg : string).
Arguments Returns {A} r.
Arguments Panics {A} msg.

(** [strconv.Itoa] on a length, as [%d] prints it. *)
Definition itoa (n : nat) : string := pretty n.

(** [Resolve]. The debug entry written after the walk reads
    [commits[0]], which panics on an empty slice. *)
Definition Resolve (r : SlipResolver) (input : ResolveInput)
  : outcome ResolveOutput :=
  let depth := Depth input in
  let depth := if depth <=? 0 then DefaultAncestryDepth else depth in
  match GetGitContext (gitRepo r) with
  | Err e => Returns (Err (Errorf ("failed to get git context: " ++ Error e) [e]))
  | Ok gitCtx =>
      match GetCommitAncestry (gitRepo r) depth with
      | Err e =>
          Returns (Err (Errorf ("failed to get commit ancestry: " ++ Error e) [e]))
      | Ok commits =>
          match commits with
          | [] => Panics "runtime error: index out of range [0] with length 0"
          | _ :: _ =>
              match FindByCommits (finder r) (Repository gitCtx) commits with
              | (_, _, Some e) =>
                  Returns (Err (Errorf
                    ("failed to find slip by commits: " ++ Error e) [e]))
              | (None, _, None) =>
                  Returns (Err (Errorf
                    (Error ErrNoAncestorSlip ++ ": searched "
                     ++ itoa (length commits) ++ " commits from "
                     ++ HeadSHA gitCtx)
                    [ErrNoAncestorSlip]))
              | (Some foundSlip, matchedCommit, None) =>
                  Returns (Ok {| CorrelationID := SlipCorrelationID foundSlip;
                                 MatchedCommit := matchedCommit;
                                 OutRepository := Repository gitCtx;
                                 OutBranch := Branch gitCtx;
                                 ResolvedBy := "ancestry" |})
              end
          end
      end
  end.

End usecases.

(** ** Notions the specification uses *)

Module SpecNotions.
Import git.

(** The first-parent lineage from [h], at most [n] commits long: [h],
    then the first listed parent of [h], and so on until a commit
    without parents. *)
Fixpoint first_parent_chain (store : gmap string Commit) (n : nat)
    (h : string) : list string :=
  match n with
  | O => []
  | S n' =>
      h :: match store !! h with
           | Some c => match ParentHashes c with
                       | p :: _ => first_parent_chain store n' p
                       | [] => []
                       end
           | None => []
           end
  end.

(** A store in which every commit sits under its own hash, has at most
    one parent, and that parent is in the store and older: a history
    without merges. *)
Definition well_keyed (store : gmap string Commit) : Prop :=
  forall h c, store !! h = Some c -> Hash c = h.

Definition merge_free (store : gmap string Commit) : Prop :=
  forall h c, store !! h = Some c ->
    ParentHashes c = []
    \/ exists p pc, ParentHashes c = [p] /\ store !! p = Some pc
                    /\ When pc < When c.

(** The two shapes of a remote URL, read off directly. [break d s]
    cuts [s] before its first [d]. *)
Fixpoint break (d : ascii) (s : list ascii) : list ascii * list ascii :=
  match s with
  | [] => ([], [])
  | c :: s' =>
      if bool_decide (c = d) then ([], s)
      else let '(p, r) := break d s' in (c :: p, r)
  end.

(** A non-empty run of characters other than [d] that [d] ends: the
    run, and what follows the [d]. *)
Definition segment_then (d : ascii) (s : list ascii)
  : option (list ascii * list ascii) :=
  match break d s with
  | (c :: p, _ :: rest) => Some (c :: p, rest)
  | _ => None
  end.

Definition dotgit : list ascii := list_ascii_of_string ".git".

(** [s] without a trailing [.git], when something precedes it. *)
Fixpoint strip_dot_git (s : list ascii) : list ascii :=
  match s with
  | [] => []
  | c :: s' => if bool_decide (s' = dotgit) then [c] else c :: strip_dot_git s'
  end.

(** The last path element: not empty, no [/]; its [.git] is dropped. *)
Definition last_segment (s : list ascii) : option (list ascii) :=
  match s with
  | [] => None
  | _ :: _ =>
      if existsb (fun c => bool_decide (c = slash)) s then None
      else Some (strip_dot_git s)
  end.

(** [http://host/owner/name] or [https://host/owner/name], with an
    optional [.git]. *)
Definition https_shape (u : list ascii) : option (list ascii * list ascii) :=
  match strip_prefix (list_ascii_of_string "http") u with
  | None => None
  | Some u1 =>
      let u2 := default u1 (strip_prefix (list_ascii_of_string "s") u1) in
      match strip_prefix (list_ascii_of_string "://") u2 with
      | None => None
      | Some u3 =>
          match segment_then slash u3 with
          | None => None
          | Some (_, u4) =>
              match segment_then slash u4 with
              | None => None
              | Some (owner, u5) =>
                  match last_segment u5 with
                  | None => None
                  | Some name => Some (owner, name)
                  end
              end
          end
      end
  end.

(** [git@host:owner/name], with an optional [.git]. *)
Definition ssh_shape (u : list ascii) : option (list ascii * list ascii) :=
  match strip_prefix (list_ascii_of_string "git@") u with
  | None => None
  | Some u1 =>
      match segment_then colon u1 with
      | None => None
      | Some (_, u2) =>
          match segment_then slash u2 with
          | None => None
          | Some (owner, u3) =>
              match last_segment u3 with
              | None => None
              | Some name => Some (owner, name)
              end
          end
      end
  end.

(** The [owner] and [name] of a URL of one of the two shapes. *)
Definition remote_shape (url : string) : option (string * string) :=
  let u := list_ascii_of_string url in
  match https_shape u with
  | Some (owner, name) =>
      Some (string_of_list_ascii owner, string_of_list_ascii name)
  | None =>
      match ssh_shape u with
      | Some (owner, name) =>
          Some (string_of_list_ascii owner, string_of_list_ascii name)
      | None => None
      end
  end.

(** The same two shapes, stated: a path element is a non-empty text
    without the separator [d]; [without_dot_git] is [strip_dot_git] on
    strings. *)
Definition segment (d : ascii) (x : string) : Prop :=
  x <> "" /\ ~ In d (list_ascii_of_string x).

Definition without_dot_git (np : string) : string :=
  string_of_list_ascii (strip_dot_git (list_ascii_of_string np)).

Inductive RemoteURL : string -> string -> string -> Prop :=
| https_url (secure : bool) (host owner np : string) :
    segment slash host -> segment slash owner -> segment slash np ->
    RemoteURL ((if secure then "https://" else "http://")
               ++ host ++ "/" ++ owner ++ "/" ++ np)
              owner (without_dot_git np)
| ssh_url (host owner np : string) :
    segment colon host -> segment slash owner -> segment slash np ->
    RemoteURL ("git@" ++ host ++ ":" ++ owner ++ "/" ++ np)
              owner (without_dot_git np).

(** The captures of a match of either pattern on [u]: the whole text,
    and groups 1 and 2. *)
Definition found (u owner name : list ascii) : gmap nat (list ascii) :=
  <[0%nat := u]> (<[2%nat := name]> (<[1%nat := owner]> ∅)).

(** A path element as a list of characters. *)
Definition seg (d : ascii) (x : list ascii) : Prop :=
  x <> [] /\ Forall (fun c => c <> d) x.

Section WholeMapping.
Import config.
Context `{Externals}.

(** The whole mapping read as the configuration: encoded as JSON and
    decoded at [PipelineConfig]. *)
Definition decode_whole_mapping (secretData : gmap string value)
  : result PipelineConfig :=
  match json_Marshal secretData with
  | Err e =>
      Err (Errorf (Error ErrPipelineConfigInvalid
                   ++ ": failed to marshal secret data: " ++ Error e)
                  [ErrPipelineConfigInvalid; e])
  | Ok jsonData =>
      match json_Unmarshal jsonData with
      | Err e => Err (invalid e)
      | Ok config => Ok config
      end
  end.

End WholeMapping.

(** [strings.Contains] *)
Definition Contains (s substr : string) : bool :=
  match index 0 substr s with Some _ => true | None => false end.

(** The first [n] commits the iterator returns, when [n] calls of
    [Next] in a row each return one. *)
Fixpoint commits_from (store : gmap string Commit) (w : commitIteratorByCTime)
    (n : nat) : option (list Commit) :=
  match n with
  | O => Some []
  | S n' =>
      match Next store w with
      | Yield c w' =>
          match commits_from store w' n' with
          | Some cs => Some (c :: cs)
          | None => None
          end
      | _ => None
      end
  end.

(** From HEAD the iterator returns at least [n] commits: HEAD
    resolves, its commit is stored, and the first [n] calls of [Next]
    each return a commit. *)
Definition iterates (repo : GoGitRepository) (n : nat) : Prop :=
  exists head c cs,
    HEAD repo = Some head
    /\ objects repo !! RefHash head = Some c
    /\ commits_from (objects repo) (NewCommitIterCTime c) n = Some cs.

(** The walk at [depth] makes its poll number [k] (counting from 0):
    the callback polls the context once for each commit the iterator
    hands it, before the depth check, and the depth check ends the loop
    at the call that finds [depth] commits collected. *)
Definition polled (repo : GoGitRepository) (depth : Z) (k : nat) : Prop :=
  Z.of_nat k <= normalize_depth depth /\ iterates repo (S k).

(** The error [GetCommitAncestry] makes of a failure [e] of the loop. *)
Definition walk_failure (e : goerror) : goerror :=
  Errorf ("failed to walk commit history: " ++ Error e) [e].

End SpecNotions.

(** ** Concrete inputs used by the properties below *)

Module Fixture.
Import git config.

Definition mk (h : string) (ps : list string) (t : Z) : Commit :=
  {| Hash := h; ParentHashes := ps; When := t |}.

Definition store_of (cs : list Commit) : gmap string Commit :=
  list_to_map (map (fun c => (Hash c, c)) cs).

(** The history built by the repository's own test
    [TestGoGitRepository_GetCommitAncestry_FirstParentOnly]: a feature
    branch with one commit, a side branch with two, the side branch
    merged into the feature branch, one more feature commit.

<<
    init <- f1 <--------- merge <- f2   (HEAD)
         \                /
          <- m1 <- m2 <---           (second parent of merge)
>>
*)
Definition merged_repo : GoGitRepository :=
  {| HEAD := Some {| RefHash := "f2"; RefBranch := Some "main" |};
     objects := store_of
       [mk "init" [] 1; mk "f1" ["init"] 2; mk "m1" ["init"] 3;
        mk "m2" ["m1"] 4; mk "merge" ["f1"; "m2"] 5; mk "f2" ["merge"] 6];
     remotes := {[ "origin" := ["https://github.com/TestOrg/test-repo.git"] ]} |}.

(** Six commits in a line, as in
    [TestGoGitRepository_GetCommitAncestry_Success]. *)
Definition linear_repo : GoGitRepository :=
  {| HEAD := Some {| RefHash := "c6"; RefBranch := Some "main" |};
     objects := store_of
       [mk "c1" [] 1; mk "c2" ["c1"] 2; mk "c3" ["c2"] 3;
        mk "c4" ["c3"] 4; mk "c5" ["c4"] 5; mk "c6" ["c5"] 6];
     remotes := {[ "origin" := ["git@github.com:TestOrg/test-repo.git"] ]} |}.

(** A stand-in for [encoding/json] at [slippy.PipelineConfig], exact on
    the documents used below: [{}] and [null] decode to the zero
    configuration, text that is not JSON is refused; the empty mapping
    encodes as [{}]. *)
#[export] Instance json_fixture : Externals :=
  {| PipelineConfig := unit;
     json_Unmarshal := fun data =>
       if bool_decide (data = "{}") || bool_decide (data = "null")
       then Ok tt
       else Err (New "invalid character 'o' in literal null (expecting 'u')");
     json_Marshal := fun m =>
       if bool_decide (m = ∅) then Ok "{}"
       else Err (New "json: unsupported type: chan int");
     DefaultVaultClientFactory := Err ErrVaultClientFailed |}.

(** The resolver of the "no slip found" case of
    [TestSlipResolver_Resolve]. *)
Definition no_match_resolver : usecases.SlipResolver :=
  {| usecases.gitRepo :=
       {| usecases.GetGitContext :=
            Ok {| domain.HeadSHA := "abc123def456";
                  domain.Branch := "feature/test";
                  domain.Repository := "MyCarrier-DevOps/test-repo";
                  domain.IsDetached := false |};
          usecases.GetCommitAncestry := fun _ =>
            Ok ["abc123def456"; "def456ghi789"; "ghi789jkl012"] |};
     usecases.finder :=
       {| usecases.FindByCommits := fun _ _ => (None, "", None) |} |}.

(** A repository without commits: HEAD does not resolve. *)
Definition empty_repo : GoGitRepository :=
  {| HEAD := None; objects := ∅; remotes := ∅ |}.

(** A shallow clone of depth one: the parent of HEAD's commit is not in
    the store. *)
Definition shallow_repo : GoGitRepository :=
  {| HEAD := Some {| RefHash := "c6"; RefBranch := Some "main" |};
     objects := store_of [mk "c6" ["c5"] 6];
     remotes := {[ "origin" := ["git@github.com:TestOrg/test-repo.git"] ]} |}.

(** A checkout whose origin is an SCP-style URL of a user other than
    [git]. *)
Definition alice_repo : GoGitRepository :=
  {| HEAD := Some {| RefHash := "c1"; RefBranch := Some "main" |};
     objects := store_of [mk "c1" [] 1];
     remotes := {[ "origin" := ["alice@github.com:owner/repo.git"] ]} |}.

End Fixture.

(** ** Package store: the slip store adapter *)

Module store.
Import domain usecases.

Section Adapter.
(** [slippy.Slip], of which the adapter reads the [CorrelationID]. *)
Context {ExtSlip : Type} (ExtCorrelationID : ExtSlip -> string).

(** [slippy.SlipStore], by the two methods the adapter calls. *)
Record SlipStore : Type := {
  StoreFindByCommits : string -> list string
                       -> option ExtSlip * string * option goerror;
  StoreClose : option goerror
}.

(** [ClickHouseAdapter.FindByCommits] *)
Definition ClickHouseAdapter_FindByCommits (a : SlipStore)
    (repository : string) (commits : list string)
  : option Slip * string * option goerror :=
  match StoreFindByCommits a repository commits with
  | (_, _, Some err) => (None, "", Some err)
  | (None, _, None) => (None, "", None)
  | (Some slip, matchedCommit, None) =>
      (Some {| SlipCorrelationID := ExtCorrelationID slip |}, matchedCommit, None)
  end.

(** [ClickHouseAdapter.Close] *)
Definition ClickHouseAdapter_Close (a : SlipStore) : option goerror :=
  StoreClose a.

(** The adapter as a [domain.SlipFinder]. *)
Definition NewClickHouseAdapter (a : SlipStore) : SlipFinder :=
  {| FindByCommits := ClickHouseAdapter_FindByCommits a |}.

End Adapter.

End store.

(** ** Package config, continued: the whole configuration *)

Module config_load.
Import config.

Definition EnvLogLevel : string := "LOG_LEVEL".
Definition EnvLogAppName : string := "LOG_APP_NAME".
Definition DefaultLogLevel : string := "info".
Definition DefaultLogAppName : string := "slippy-find".
Definition DefaultDatabase : string := "ci".

(** [ch.ClickhouseConfig] and [ch.ClickhouseLoadConfig], which reads the
    environment. *)
Class ClickHouseExternals : Type := {
  ClickhouseConfig : Type;
  ClickhouseLoadConfig : gmap string string -> result ClickhouseConfig
}.

Section Load.
Context `{Externals} `{ClickHouseExternals}.

Record Config : Type := {
  ClickHouse : ClickhouseConfig;
  CfgPipelineConfig : PipelineConfig;
  Database : string;
  LogLevel : string;
  LogAppName : string
}.

(** [LoadWithVaultClient] *)
Definition LoadWithVaultClient (env : gmap string string)
    (fs : string -> result string)
    (vaultClientFactory : option VaultClientFactory) : result Config :=
  match ClickhouseLoadConfig env with
  | Err e => Err (Errorf ("failed to load ClickHouse config: " ++ Error e) [e])
  | Ok chConfig =>
      match loadPipelineConfigWithVault env fs vaultClientFactory with
      | Err e => Err e
      | Ok pipelineConfig =>
          let logLevel := Getenv env EnvLogLevel in
          let logLevel := if bool_decide (logLevel = "")
                          then DefaultLogLevel else logLevel in
          let logAppName := Getenv env EnvLogAppName in
          let logAppName := if bool_decide (logAppName = "")
                            then DefaultLogAppName else logAppName in
          Ok {| ClickHouse := chConfig;
                CfgPipelineConfig := pipelineConfig;
                Database := DefaultDatabase;
                LogLevel := logLevel;
                LogAppName := logAppName |}
      end
  end.

(** [Load] *)
Definition Load (env : gmap string string) (fs : string -> result string)
  : result Config :=
  LoadWithVaultClient env fs None.

End Load.

End config_load.

(** ** Package cmd: the command *)

Module cmd.
Import domain usecases.

(** What a run leaves behind, in order: the correlation id handed to
    the output writer, and the handles closed. *)
Inductive event : Type :=
| WroteCorrelationID (id : string)
| ClosedRepo
| ClosedFinder.

(** How a run ends: with the error [RunE] returns ([None] for [nil]),
    or in a panic. *)
Inductive exit : Type :=
| Finished (err : option goerror)
| Panicked (msg : string).

(** A [domain.LocalGitRepository] and a [domain.SlipFinder] with what
    their [Close] returns, [domain.Resolver] and [domain.OutputWriter]. *)
Record RepoHandle : Type := {
  Repo : LocalGitRepository;
  RepoClose : option goerror
}.

Record FinderHandle : Type := {
  Finder : SlipFinder;
  FinderClose : option goerror
}.

Record Resolver : Type := {
  ResolverResolve : ResolveInput -> outcome ResolveOutput
}.

Record OutputWriter : Type := {
  WriteCorrelationID : string -> option goerror
}.

Section Run.
(** [AppConfig], which the command only hands from the loader to the
    finder factory. *)
Context {AppConfig : Type}.

(** [Dependencies]: each factory by what its call returns. The loader
    reads the environment, which [-v] changes before it runs. *)
Record Dependencies : Type := {
  ConfigLoader : gmap string string -> result AppConfig;
  GitRepoFactory : string -> result RepoHandle;
  SlipFinderFactory : AppConfig -> result FinderHandle;
  ResolverFactory : LocalGitRepository -> SlipFinder -> Resolver;
  OutputWriterFactory : OutputWriter
}.

(** [runResolve]; [depth] and [verbose] are the flag variables, [None]
    is a [nil] [deps]. A deferred [Close] runs when the function is
    left, the later deferred first, also when it is left by a panic;
    what [Close] returns is only logged. [os.Setenv] cannot fail on the
    constant name used here. *)
Definition runResolve (deps : option Dependencies) (env : gmap string string)
    (args : list string) (depth : Z) (verbose : bool)
  : exit * list event :=
  match deps with
  | None => (Finished (Some (New "dependencies not configured")), [])
  | Some deps =>
      let repoPath := match args with [] => "." | a :: _ => a end in
      let env := if verbose then <["LOG_LEVEL" := "debug"]> env else env in
      match ConfigLoader deps env with
      | Err e =>
          (Finished (Some (Errorf ("configuration error: " ++ Error e) [e])), [])
      | Ok cfg =>
          match GitRepoFactory deps repoPath with
          | Err e =>
              if Is e ErrRepositoryNotFound then
                (Finished (Some (Errorf ("not a git repository: " ++ repoPath) [])),
                 [])
              else (Finished (Some e), [])
          | Ok gitRepo =>
              match SlipFinderFactory deps cfg with
              | Err e =>
                  (Finished (Some (Errorf ("database error: " ++ Error e) [e])),
                   [ClosedRepo])
              | Ok finder =>
                  let resolver :=
                    ResolverFactory deps (Repo gitRepo) (Finder finder) in
                  match ResolverResolve resolver {| Depth := depth |} with
                  | Panics msg => (Panicked msg, [ClosedFinder; ClosedRepo])
                  | Returns (Err e) =>
                      let err :=
                        if Is e ErrNoAncestorSlip then
                          Errorf "no slip found in commit ancestry" []
                        else if Is e ErrNoRemoteOrigin then
                          Errorf "no 'origin' remote configured; cannot determine repository name" []
                        else e in
                      (Finished (Some err), [ClosedFinder; ClosedRepo])
                  | Returns (Ok result) =>
                      let writer := OutputWriterFactory deps in
                      match WriteCorrelationID writer (CorrelationID result) with
                      | Some e =>
                          (Finished (Some (Errorf ("output error: " ++ Error e) [e])),
                           [WroteCorrelationID (CorrelationID result);
                            ClosedFinder; ClosedRepo])
                      | None =>
                          (Finished None,
                           [WroteCorrelationID (CorrelationID result);
                            ClosedFinder; ClosedRepo])
                      end
                  end
              end
          end
      end
  end.

End Run.

(** [usecases.NewSlipResolver] as the resolver factory of [main]. *)
Definition NewSlipResolver (gitRepo : LocalGitRepository) (finder : SlipFinder)
  : Resolver :=
  {| ResolverResolve := Resolve {| gitRepo := gitRepo; finder := finder |} |}.

(** A [GoGitRepository] under a context as a
    [domain.LocalGitRepository]. The walk never runs out of its rounds
    ([GetCommitAncestry_total]); the error put there is never seen. *)
Definition GoGitLocalRepository (repo : git.GoGitRepository) (ctx : git.Context)
  : LocalGitRepository :=
  {| GetGitContext := git.GetGitContext repo;
     GetCommitAncestry := fun depth =>
       match git.GetCommitAncestry repo ctx depth with
       | Some r => r
       | None => Err (New "walk out of rounds")
       end |}.

End cmd.

(** ** Package output *)

Module output.

(** A [Writer] by its destination: what a write of the given text to
    [out] returns as error. [fmt.Fprintln] writes its operand and a
    newline in one call. *)
Record Writer : Type := { out : string -> option goerror }.

Definition newline : string := String "010"%char EmptyString.

Definition WriteCorrelationID (w : Writer) (correlationID : string)
  : option goerror :=
  out w (correlationID ++ newline).

End output.

(** ** Package main: the production wiring *)

Module main.
Import domain usecases config config_load store cmd.

(** [git.NewGoGitRepository]; [PlainOpen] is go-git's. *)
Definition NewGoGitRepository (PlainOpen : string -> result git.GoGitRepository)
    (path : string) : result git.GoGitRepository :=
  match PlainOpen path with
  | Err _ =>
      Err (Errorf (Error ErrRepositoryNotFound ++ ": " ++ path)
                  [ErrRepositoryNotFound])
  | Ok repo => Ok repo
  end.

(** [GoGitRepository.Close] *)
Definition GoGitRepository_Close (repo : git.GoGitRepository) : option goerror :=
  None.

Definition newConfigTypeError (expected : string) : goerror :=
  New ("invalid configuration type: expected " ++ expected).

Section Wiring.
Context `{Externals} `{ClickHouseExternals}.
Context {ExtSlip : Type} (ExtCorrelationID : ExtSlip -> string).

(** A value of type [any] in [cmd.AppConfig], by its dynamic type. *)
Inductive any : Type :=
| AnyClickhouseConfig (c : ClickhouseConfig)
| AnyPipelineConfig (p : PipelineConfig)
| AnyOther.

Record AppConfig : Type := {
  AppClickHouseConfig : any;
  AppPipelineConfig : any;
  AppDatabase : string;
  AppLogLevel : string;
  AppLogAppName : string
}.

(** What [main] takes from outside: the file system, go-git's
    [PlainOpen], the command's context, [slippy]'s store constructor
    (by the configurations and the database name it is given) and
    standard output. *)
Variable fs : string -> result string.
Variable PlainOpen : string -> result git.GoGitRepository.
Variable ctx : git.Context.
Variable NewClickHouseStoreFromConfig :
  ClickhouseConfig -> PipelineConfig -> string -> result (@SlipStore ExtSlip).
Variable Stdout : string -> option goerror.

(** The [Dependencies] value [main] builds. *)
Definition deps : Dependencies (AppConfig := AppConfig) :=
  {| ConfigLoader := fun env =>
       match Load env fs with
       | Err e => Err e
       | Ok cfg =>
           Ok {| AppClickHouseConfig := AnyClickhouseConfig (ClickHouse cfg);
                 AppPipelineConfig := AnyPipelineConfig (CfgPipelineConfig cfg);
                 AppDatabase := Database cfg;
                 AppLogLevel := LogLevel cfg;
                 AppLogAppName := LogAppName cfg |}
       end;
     GitRepoFactory := fun path =>
       match NewGoGitRepository PlainOpen path with
       | Err e => Err e
       | Ok repo =>
           Ok {| Repo := GoGitLocalRepository repo ctx;
                 RepoClose := GoGitRepository_Close repo |}
       end;
     SlipFinderFactory := fun cfg =>
       match AppClickHouseConfig cfg with
       | AnyClickhouseConfig chConfig =>
           match AppPipelineConfig cfg with
           | AnyPipelineConfig pipelineCfg =>
               match NewClickHouseStoreFromConfig chConfig pipelineCfg
                       (AppDatabase cfg) with
               | Err e => Err e
               | Ok slippyStore =>
                   Ok {| Finder := NewClickHouseAdapter ExtCorrelationID slippyStore;
                         FinderClose := ClickHouseAdapter_Close slippyStore |}
               end
           | _ => Err (newConfigTypeError "*slippy.PipelineConfig")
           end
       | _ => Err (newConfigTypeError "*ch.ClickhouseConfig")
       end;
     ResolverFactory := NewSlipResolver;
     OutputWriterFactory :=
       {| WriteCorrelationID :=
            output.WriteCorrelationID {| output.out := Stdout |} |} |}.

(** The command as [main] runs it. *)
Definition run (env : gmap string string) (args : list string) (depth : Z)
    (verbose : bool) : exit * list event :=
  runResolve (Some deps) env args depth verbose.

End Wiring.

End main.

(** ** Further notions *)

Module MoreNotions.
Import git.

(** [k] is [h] or an ancestor of [h]: reached from [h] through parent
    hashes of stored commits, any parent at each step. *)
Inductive reachable (store : gmap string Commit) (h : string) : string -> Prop :=
| reach_here : reachable store h h
| reach_parent (k p : string) (c : Commit) :
    reachable store h k -> store !! k = Some c -> In p (ParentHashes c) ->
    reachable store h p.

(** Every parent named by a stored commit is stored. *)
Definition parent_closed (store : gmap string Commit) : Prop :=
  forall k c p, store !! k = Some c -> In p (ParentHashes c) ->
    is_Some (store !! p).

(** The depth [Resolve] works with. *)
Definition normalized (input : domain.ResolveInput) : Z :=
  if domain.Depth input <=? 0 then domain.DefaultAncestryDepth
  else domain.Depth input.

(** A sentinel error: a value made by [errors.New]. *)
Definition sentinel (e : goerror) : Prop := exists msg, e = New msg.

End MoreNotions.

(** Further values the statements below are tried on. *)
Module MoreFixtures.
Import config config_load store Fixture.

(** A ClickHouse loader that needs the host name. *)
#[export] Instance clickhouse_fixture : ClickHouseExternals :=
  {| ClickhouseConfig := string;
     ClickhouseLoadConfig := fun env =>
       match env !! "CLICKHOUSE_HOSTNAME" with
       | Some host => Ok host
       | None => Err (New "CLICKHOUSE_HOSTNAME is required")
       end |}.

Definition fixture_env : gmap string string :=
  {[ "CLICKHOUSE_HOSTNAME" := "localhost";
     EnvPipelineConfig := "/etc/pipeline.json" ]}.

Definition fixture_fs (p : string) : result string :=
  if bool_decide (p = "/etc/pipeline.json") then Ok "{}"
  else Err (PathError "open" p ErrNotExist).

(** A store with one slip, for the second commit of [linear_repo]'s
    walk. *)
Definition fixture_store : @SlipStore string :=
  {| StoreFindByCommits := fun _ commits =>
       if bool_decide ("c5" ∈ commits) then (Some "corr-1", "c5", None)
       else (None, "", None);
     StoreClose := None |}.

(** The production wiring over one checkout, one store and an output
    that takes every write. *)
Definition fixture_deps : cmd.Dependencies :=
  main.deps (fun id : string => id) fixture_fs (fun _ => Ok linear_repo)
    git.Background (fun _ _ _ => Ok fixture_store) (fun _ => None).

Definition fixture_run : gmap string string -> list string -> Z -> bool
                         -> cmd.exit * list cmd.event :=
  main.run (fun id : string => id) fixture_fs (fun _ => Ok linear_repo)
    git.Background (fun _ _ _ => Ok fixture_store) (fun _ => None).

End MoreFixtures.

(** * Properties *)

(** ** Facts about errors *)

Lemma Is_wraps_sentinel (msg m : string) (ws : list goerror) :
  Is (Errorf msg (New m :: ws)) (New m) = true.
Proof.
  simpl. rewrite bool_decide_eq_true_2 by reflexivity. reflexivity.
Qed.

Lemma Is_sentinel (m1 m2 : string) :
  Is (New m1) (New m2) = bool_decide (m1 = m2).
Proof. simpl. apply orb_false_r. Qed.

Section ResolverProperties.
Import domain usecases Fixture.

(** C6. When the walk gave a non-empty commit sequence and the store
    reports no match for it (nil slip, no error), [Resolve] fails with
    an error that is [ErrNoAncestorSlip] under [errors.Is], whose
    message gives the number of commits searched and the head commit
    of the git context. *)
Theorem Resolve_no_match_is_NoAncestorSlip
    (r : SlipResolver) (input : ResolveInput) (gitCtx : GitContext)
    (commits : list string) (matched : string) :
  GetGitContext (gitRepo r) = Ok gitCtx ->
  GetCommitAncestry (gitRepo r)
    (if Depth input <=? 0 then DefaultAncestryDepth else Depth input)
    = Ok commits ->
  commits <> [] ->
  FindByCommits (finder r) (Repository gitCtx) commits = (None, matched, None) ->
  exists e,
    Resolve r input = Returns (Err e)
    /\ Is e ErrNoAncestorSlip = true
    /\ Error e = "no slip found in commit ancestry: searched "
                 ++ itoa (length commits) ++ " commits from " ++ HeadSHA gitCtx.
Proof.
  intros Hctx Hwalk Hne Hfind.
  unfold Resolve. rewrite Hctx, Hwalk.
  destruct commits as [|c cs]; [congruence|].
  rewrite Hfind.
  eexists. split; [reflexivity|]. split; reflexivity.
Qed.

Lemma Resolve_no_match_is_NoAncestorSlip_witness :
  exists e,
    Resolve no_match_resolver {| Depth := 10 |} = Returns (Err e)
    /\ Is e ErrNoAncestorSlip = true
    /\ Error e = "no slip found in commit ancestry: searched 3 commits from abc123def456".
Proof.
  apply (Resolve_no_match_is_NoAncestorSlip no_match_resolver {| Depth := 10 |}
           _ _ "" eq_refl eq_refl); [discriminate | reflexivity].
Defined.

End ResolverProperties.

Section ConfigProperties.
Import config SpecNotions.
Context `{Externals}.

(** C4. A configured secret locator decides alone: the result is that
    of the Vault loader, whatever it is, and neither the file path
    variable nor the file system has any part in it. Without a
    locator the configured file is read. With neither, the error is
    [ErrPipelineConfigRequired], whose message names both
    variables. *)
Theorem loadPipelineConfigWithVault_precedence
    (env : gmap string string) (fs : string -> result string)
    (factory : option VaultClientFactory) :
  (Getenv env EnvVaultPipelineConfigPath <> "" ->
     loadPipelineConfigWithVault env fs factory
       = loadPipelineConfigFromVault env factory
           (Getenv env EnvVaultPipelineConfigPath)
     /\ forall (fs' : string -> result string) (file : string),
          loadPipelineConfigWithVault (<[EnvPipelineConfig := file]> env) fs' factory
            = loadPipelineConfigWithVault env fs factory)
  /\ (Getenv env EnvVaultPipelineConfigPath = "" ->
      Getenv env EnvPipelineConfig <> "" ->
      loadPipelineConfigWithVault env fs factory
        = loadPipelineConfigFromFile fs (Getenv env EnvPipelineConfig))
  /\ (Getenv env EnvVaultPipelineConfigPath = "" ->
      Getenv env EnvPipelineConfig = "" ->
      loadPipelineConfigWithVault env fs factory = Err ErrPipelineConfigRequired
      /\ Contains (Error ErrPipelineConfigRequired) EnvVaultPipelineConfigPath = true
      /\ Contains (Error ErrPipelineConfigRequired) EnvPipelineConfig = true).
Proof.
  unfold loadPipelineConfigWithVault. cbv zeta.
  split; [|split].
  - intros Hv. case_bool_decide; [contradiction|]. simpl.
    split; [reflexivity|].
    intros fs' file.
    assert (Hget : forall name, name <> EnvPipelineConfig ->
              Getenv (<[EnvPipelineConfig := file]> env) name = Getenv env name).
    { intros name Hn. unfold Getenv. rewrite lookup_insert_ne; [reflexivity|].
      congruence. }
    rewrite (Hget EnvVaultPipelineConfigPath) by discriminate.
    case_bool_decide; [contradiction|]. simpl.
    unfold loadPipelineConfigFromVault.
    rewrite (Hget EnvVaultPipelineConfigMount) by discriminate.
    reflexivity.
  - intros Hv Hf. repeat case_bool_decide; try contradiction. reflexivity.
  - intros Hv Hf. repeat case_bool_decide; try contradiction.
    split; [reflexivity|]. split; vm_compute; reflexivity.
Qed.

(** C7. A secret whose ["config"] entry is the string [s] and a file
    whose content is [s] resolve alike: to the same configuration, or
    both to an [ErrPipelineConfigInvalid] error (the same one). *)
Theorem secret_config_string_same_as_file
    (secretData : gmap string value) (s : string)
    (fs : string -> result string) (path : string) :
  secretData !! "config" = Some (VString s) ->
  fs path = Ok s ->
  parsePipelineConfigFromVault secretData = loadPipelineConfigFromFile fs path
  /\ ((exists cfg, parsePipelineConfigFromVault secretData = Ok cfg
                   /\ loadPipelineConfigFromFile fs path = Ok cfg)
      \/ (exists e, parsePipelineConfigFromVault secretData = Err e
                   /\ loadPipelineConfigFromFile fs path = Err e
                   /\ Is e ErrPipelineConfigInvalid = true)).
Proof.
  intros Hk Hf.
  unfold parsePipelineConfigFromVault, loadPipelineConfigFromFile.
  rewrite Hk, Hf.
  destruct (json_Unmarshal s) as [cfg|e].
  - split; [reflexivity|]. left. exists cfg. split; reflexivity.
  - split; [reflexivity|]. right. exists (invalid e).
    split; [reflexivity|]. split; [reflexivity|].
    apply Is_wraps_sentinel.
Qed.

Lemma invalid_Is (e : goerror) : Is (invalid e) ErrPipelineConfigInvalid = true.
Proof. apply Is_wraps_sentinel. Qed.

(** The parser always looks up the constant key ["config"]. When the
    secret has no entry there, or the entry is not a string, the whole
    mapping is read as the configuration, and every failure of that
    reading is an [ErrPipelineConfigInvalid] error. *)
Theorem parsePipelineConfigFromVault_fallback
    (secretData : gmap string value) :
  (secretData !! "config" = None
   \/ exists v, secretData !! "config" = Some v /\ forall s, v <> VString s) ->
  parsePipelineConfigFromVault secretData = decode_whole_mapping secretData
  /\ forall e, parsePipelineConfigFromVault secretData = Err e ->
              Is e ErrPipelineConfigInvalid = true.
Proof.
  intros Hk.
  assert (Heq : parsePipelineConfigFromVault secretData
                = decode_whole_mapping secretData).
  { unfold parsePipelineConfigFromVault, decode_whole_mapping.
    destruct Hk as [Hk | (v & Hk & Hv)]; rewrite Hk; [reflexivity|].
    destruct v; try reflexivity. exfalso. eapply Hv. reflexivity. }
  split; [exact Heq|].
  intros e. rewrite Heq. unfold decode_whole_mapping.
  destruct (json_Marshal secretData) as [j|e1].
  - destruct (json_Unmarshal j) as [c|e2]; [discriminate|].
    intros [= <-]. apply invalid_Is.
  - intros [= <-]. apply Is_wraps_sentinel.
Qed.

(** C2 (the code at the input of the repository's test
    [TestLoadWithVaultClient_CustomKey]). With the locator
    ["ci/slippy/pipeline#myconfig"] the loader asks the Vault client
    for the secret at the whole locator, [#myconfig] included; the
    client, which holds a secret at ["ci/slippy/pipeline"], has none
    there, and loading fails with [ErrVaultSecretNotFound]. *)
Theorem locator_with_key_is_fetched_unsplit (s : string) :
  let env : gmap string string :=
    {[ EnvVaultPipelineConfigPath := "ci/slippy/pipeline#myconfig" ]} in
  let client :=
    mockVaultClient {[ "ci/slippy/pipeline" := {[ "myconfig" := VString s ]} ]} None in
  forall fs,
    loadPipelineConfigWithVault env fs (Some (Ok client))
    = Err (Errorf
        "pipeline configuration not found in Vault at path ci/slippy/pipeline#myconfig: secret not found"
        [ErrVaultSecretNotFound; New "secret not found"]).
Proof.
  intros env client fs. reflexivity.
Qed.

(** C8 (the code at the input of the repository's test
    [TestLoadWithVaultClient_KeyNotFoundFallsBackToSecret]). With the
    locator ["ci/slippy/pipeline#nonexistent"] and a secret at
    ["ci/slippy/pipeline"], whatever it holds, the loader does not
    fall back to the whole mapping:
    it asks the client for the secret at the whole locator,
    [#nonexistent] included, finds none, and fails with
    [ErrVaultSecretNotFound]; the error is not
    [ErrPipelineConfigInvalid], and the secret is never decoded. *)
Theorem absent_key_does_not_fall_back (secret : gmap string value) :
  let env : gmap string string :=
    {[ EnvVaultPipelineConfigPath := "ci/slippy/pipeline#nonexistent" ]} in
  let client := mockVaultClient {[ "ci/slippy/pipeline" := secret ]} None in
  let e := Errorf
    "pipeline configuration not found in Vault at path ci/slippy/pipeline#nonexistent: secret not found"
    [ErrVaultSecretNotFound; New "secret not found"] in
  forall fs,
    loadPipelineConfigWithVault env fs (Some (Ok client)) = Err e
    /\ Is e ErrVaultSecretNotFound = true
    /\ Is e ErrPipelineConfigInvalid = false.
Proof.
  intros env client e fs.
  split; [reflexivity|]. split; reflexivity.
Qed.

End ConfigProperties.

Section ConfigWitnesses.
Import config Fixture.

Lemma loadPipelineConfigWithVault_precedence_witness :
  loadPipelineConfigWithVault
    {[ EnvVaultPipelineConfigPath := "ci/slippy/pipeline";
       EnvPipelineConfig := "/etc/pipeline.json" ]}
    (fun _ => Ok "{}")
    (Some (Ok (mockVaultClient ∅ (Some (New "vault error")))))
  = Err (Errorf
      "pipeline configuration not found in Vault at path ci/slippy/pipeline: vault error"
      [ErrVaultSecretNotFound; New "vault error"])
  /\ loadPipelineConfigWithVault {[ EnvPipelineConfig := "/etc/pipeline.json" ]}
       (fun _ => Ok "{}") None
     = Ok (tt : PipelineConfig)
  /\ loadPipelineConfigWithVault ∅ (fun _ => Ok "{}") None
     = Err ErrPipelineConfigRequired.
Proof.
  split; [|split].
  - destruct (loadPipelineConfigWithVault_precedence
      {[ EnvVaultPipelineConfigPath := "ci/slippy/pipeline";
         EnvPipelineConfig := "/etc/pipeline.json" ]}
      (fun _ => Ok "{}")
      (Some (Ok (mockVaultClient ∅ (Some (New "vault error")))))) as (H1 & _ & _).
    destruct H1 as [H1 _]; [vm_compute; discriminate|].
    rewrite H1. reflexivity.
  - destruct (loadPipelineConfigWithVault_precedence
      {[ EnvPipelineConfig := "/etc/pipeline.json" ]}
      (fun _ => Ok "{}") None) as (_ & H2 & _).
    rewrite H2; [reflexivity | reflexivity | vm_compute; discriminate].
  - destruct (loadPipelineConfigWithVault_precedence
      ∅ (fun _ => Ok "{}") None) as (_ & _ & H3).
    destruct H3 as [H3 _]; [reflexivity | reflexivity | exact H3].
Defined.

Lemma secret_config_string_same_as_file_witness :
  parsePipelineConfigFromVault {[ "config" := VString "{}" ]}
  = loadPipelineConfigFromFile
      (fun p => if bool_decide (p = "/etc/pipeline.json") then Ok "{}"
                else Err (PathError "open" p ErrNotExist))
      "/etc/pipeline.json".
Proof.
  apply (secret_config_string_same_as_file
           {[ "config" := VString "{}" ]} "{}"); reflexivity.
Defined.

Lemma parsePipelineConfigFromVault_fallback_witness :
  parsePipelineConfigFromVault (∅ : gmap string value) = Ok (tt : PipelineConfig)
  /\ forall e,
       parsePipelineConfigFromVault ({[ "config" := VOther ]} : gmap string value)
         = Err e ->
       Is e ErrPipelineConfigInvalid = true.
Proof.
  split.
  - destruct (parsePipelineConfigFromVault_fallback ∅) as [H _].
    + left. reflexivity.
    + rewrite H. reflexivity.
  - apply (parsePipelineConfigFromVault_fallback {[ "config" := VOther ]}).
    right. exists VOther. split; [reflexivity | discriminate].
Defined.

End ConfigWitnesses.

Section WalkProperties.
Import domain git SpecNotions Fixture.

Lemma CtxErr_not_stop (ctx : Context) : goerror_eqb (CtxErr ctx) ErrStop = false.
Proof. unfold CtxErr. destruct (TimedOut ctx); reflexivity. Qed.

Lemma CtxErr_Is_not_stop (ctx : Context) : Is (CtxErr ctx) ErrStop = false.
Proof. unfold CtxErr. destruct (TimedOut ctx); reflexivity. Qed.

Lemma push_parents_error (store : gmap string Commit) (hs : list string) :
  forall (sn : gset string) (h : list Commit) (e : goerror),
    push_parents store sn hs h = Err e -> e = ErrObjectNotFound.
Proof.
  induction hs as [|p hs IH]; simpl; intros sn h e; [discriminate|].
  destruct (decide (p ∈ sn)); [apply IH|].
  destruct (store !! p); [apply IH|]. congruence.
Qed.

Lemma next_from_error (store : gmap string Commit) (sn : gset string)
    (h : list Commit) (e : goerror) :
  next_from store sn h = NextErr e -> e = ErrObjectNotFound.
Proof.
  induction h as [|c rest IH]; simpl; [discriminate|].
  destruct (decide (Hash c ∈ sn)); [exact IH|].
  destruct (push_parents store ({[Hash c]} ∪ sn) (ParentHashes c) rest) eqn:E;
    [discriminate|].
  intros [= <-]. eapply push_parents_error, E.
Qed.

(** With at most [depth] commits collected and more rounds allowed
    than commits missing, the loop ends within its budget. *)
Lemma ForEach_ancestry_total (ctx : Context) (depth : Z)
    (store : gmap string Commit) (fuel : nat) :
  forall (w : commitIteratorByCTime) (s : walk_state),
    Z.of_nat (length (commits s)) <= depth ->
    depth < Z.of_nat (length (commits s)) + Z.of_nat fuel ->
    exists s' err,
      ForEach fuel store w (ancestry_callback ctx depth) s = Some (s', err).
Proof.
  induction fuel as [|fuel IH]; intros w s Hle Hfuel; [lia|].
  simpl. destruct (Next store w) as [c w'| |e]; [|eauto|eauto].
  unfold ancestry_callback.
  destruct (Done ctx (polls s)).
  { rewrite CtxErr_not_stop. eauto. }
  destruct (Z.geb_spec (Z.of_nat (length (commits s))) depth) as [Hge|Hlt].
  { simpl. eauto. }
  apply IH; simpl; rewrite length_app; simpl; lia.
Qed.

(** What the loop guarantees about the state it ends in. *)
Lemma ForEach_ancestry_inv (ctx : Context) (depth : Z)
    (store : gmap string Commit) (fuel : nat) :
  forall (w : commitIteratorByCTime) (s s' : walk_state) (err : option goerror),
    ForEach fuel store w (ancestry_callback ctx depth) s = Some (s', err) ->
    Z.of_nat (length (commits s)) <= depth ->
    polls s = length (commits s) ->
    (forall k, (k < length (commits s))%nat -> Done ctx k = false) ->
    Z.of_nat (length (commits s')) <= depth
    /\ (exists tl, commits s' = (commits s ++ tl)%list)
    /\ (err = None ->
        (forall k, (k < length (commits s'))%nat -> Done ctx k = false)
        /\ ForEach fuel store w (ancestry_callback Background depth) s
           = Some (s', None))
    /\ (forall e, err = Some e -> e = ErrObjectNotFound \/ e = CtxErr ctx).
Proof.
  induction fuel as [|fuel IH]; intros w s s' err Hrun Hle Hpolls Hlive;
    [discriminate|].
  simpl in Hrun |- *.
  destruct (Next store w) as [c w'| |e] eqn:Hnext.
  - unfold ancestry_callback in Hrun |- *. simpl.
    destruct (Done ctx (polls s)) eqn:Hdone.
    { rewrite CtxErr_not_stop in Hrun. injection Hrun as <- <-. simpl.
      split; [exact Hle|]. split; [exists []; symmetry; apply app_nil_r|].
      split; [discriminate|]. intros e [= <-]. right. reflexivity. }
    destruct (Z.of_nat (length (commits s)) >=? depth) eqn:Hge.
    { simpl in Hrun. injection Hrun as <- <-. simpl.
      split; [exact Hle|]. split; [exists []; symmetry; apply app_nil_r|].
      split; [|discriminate]. intros _. split; [exact Hlive | reflexivity]. }
    rewrite Z.geb_leb in Hge. apply Z.leb_gt in Hge.
    apply IH in Hrun; simpl.
    + destruct Hrun as (Hle' & (tl & Htl) & Hnone & Herr).
      split; [exact Hle'|]. split.
      { exists (Hash c :: tl). rewrite Htl. simpl. rewrite <- app_assoc.
        reflexivity. }
      split; [exact Hnone | exact Herr].
    + rewrite length_app. simpl. lia.
    + rewrite length_app. simpl. lia.
    + intros k Hk. rewrite length_app in Hk. simpl in Hk.
      destruct (decide (k = length (commits s))) as [->|Hne].
      * rewrite <- Hpolls. exact Hdone.
      * apply Hlive. lia.
  - injection Hrun as <- <-.
    split; [exact Hle|]. split; [exists []; symmetry; apply app_nil_r|].
    split; [|discriminate]. intros _. split; [exact Hlive | reflexivity].
  - injection Hrun as <- <-.
    split; [exact Hle|]. split; [exists []; symmetry; apply app_nil_r|].
    split; [discriminate|]. intros e' [= <-]. left.
    eapply next_from_error. exact Hnext.
Qed.

Lemma normalize_depth_pos (depth : Z) : 0 < normalize_depth depth.
Proof.
  unfold normalize_depth, DefaultAncestryDepth.
  destruct (Z.leb_spec depth 0); lia.
Qed.

(** The walk always ends within the rounds it is given. *)
Lemma GetCommitAncestry_total (repo : GoGitRepository) (ctx : Context)
    (depth : Z) :
  exists r, GetCommitAncestry repo ctx depth = Some r.
Proof.
  unfold GetCommitAncestry. cbv zeta.
  destruct (Head repo) as [head|e]; [|eauto].
  destruct (CommitObject repo (RefHash head)) as [c|e]; [|eauto].
  pose proof (normalize_depth_pos depth) as Hpos.
  destruct (ForEach_ancestry_total ctx (normalize_depth depth) (objects repo)
              (S (Z.to_nat (normalize_depth depth))) (NewCommitIterCTime c)
              {| commits := []; polls := O |}) as (s' & err & ->);
    [simpl; lia | simpl; lia |].
  destruct err as [e|].
  - destruct (negb (Is e ErrStop)); [eauto|].
    destruct (length (commits s') =? 0)%nat; eauto.
  - destruct (length (commits s') =? 0)%nat; eauto.
Qed.

(** What a successful walk went through. *)
Lemma GetCommitAncestry_Ok_inv (repo : GoGitRepository) (ctx : Context)
    (depth : Z) (l : list string) :
  GetCommitAncestry repo ctx depth = Some (Ok l) ->
  l <> []
  /\ Z.of_nat (length l) <= normalize_depth depth
  /\ (forall k, (k < length l)%nat -> Done ctx k = false)
  /\ GetCommitAncestry repo Background depth = Some (Ok l).
Proof.
  unfold GetCommitAncestry. cbv zeta.
  destruct (Head repo) as [head|e]; [|discriminate].
  destruct (CommitObject repo (RefHash head)) as [c|e]; [|discriminate].
  pose proof (normalize_depth_pos depth) as Hpos.
  destruct (ForEach _ _ _ (ancestry_callback ctx _) _) as [[s' err]|] eqn:Hrun;
    [|discriminate].
  apply ForEach_ancestry_inv in Hrun;
    [| simpl; lia | reflexivity | simpl; intros; lia].
  destruct Hrun as (Hle & _ & Hnone & Herr).
  destruct err as [e|].
  - destruct (Herr e eq_refl) as [-> | ->].
    + simpl. discriminate.
    + rewrite CtxErr_Is_not_stop. simpl. discriminate.
  - destruct (Hnone eq_refl) as [Hlive Hbg]. rewrite Hbg.
    destruct (length (commits s') =? 0)%nat eqn:Hlen; [discriminate|].
    intros [= <-]. apply Nat.eqb_neq in Hlen.
    split; [destruct (commits s'); simpl in *; congruence|].
    split; [exact Hle|]. split; [exact Hlive | reflexivity].
Qed.

(** C10. The adapter itself replaces a depth of zero or less by the
    default, 25: the call is the call with depth 25, it ends, and a
    sequence it returns has at most 25 commits. *)
Theorem GetCommitAncestry_normalizes_depth
    (repo : GoGitRepository) (ctx : Context) (depth : Z) :
  depth <= 0 ->
  GetCommitAncestry repo ctx depth = GetCommitAncestry repo ctx 25
  /\ (exists r, GetCommitAncestry repo ctx depth = Some r)
  /\ forall l, GetCommitAncestry repo ctx depth = Some (Ok l) ->
              (length l <= 25)%nat.
Proof.
  intros Hd.
  assert (Hn : normalize_depth depth = 25).
  { unfold normalize_depth. destruct (Z.leb_spec depth 0); [reflexivity|lia]. }
  split; [|split].
  - unfold GetCommitAncestry. rewrite Hn. reflexivity.
  - apply GetCommitAncestry_total.
  - intros l Hl. apply GetCommitAncestry_Ok_inv in Hl.
    destruct Hl as (_ & Hle & _). rewrite Hn in Hle. lia.
Qed.

Lemma GetCommitAncestry_normalizes_depth_witness :
  GetCommitAncestry linear_repo Background (-3)
  = GetCommitAncestry linear_repo Background 25.
Proof.
  apply (GetCommitAncestry_normalizes_depth linear_repo Background (-3)). lia.
Defined.

(** Where the uncancelled loop goes on to collect a commit at a poll
    that the context fails, the loop under the context ends with
    [ctx.Err()]. *)
Lemma ForEach_ancestry_done (ctx : Context) (depth : Z)
    (store : gmap string Commit) (fuel : nat) :
  forall (w : commitIteratorByCTime) (s s' : walk_state) (k : nat),
    ForEach fuel store w (ancestry_callback Background depth) s = Some (s', None) ->
    polls s = length (commits s) ->
    (polls s <= k < length (commits s'))%nat ->
    Done ctx k = true ->
    exists s'',
      ForEach fuel store w (ancestry_callback ctx depth) s
      = Some (s'', Some (CtxErr ctx)).
Proof.
  induction fuel as [|fuel IH]; intros w s s' k Hrun Hpolls Hk Hdone;
    [discriminate|].
  cbn [ForEach] in Hrun |- *.
  destruct (Next store w) as [c w'| |e].
  - unfold ancestry_callback in Hrun |- *. cbn [Background Done] in Hrun.
    destruct (Done ctx (polls s)) eqn:Hnow.
    { rewrite CtxErr_not_stop. eauto. }
    destruct (Z.of_nat (length (commits s)) >=? depth).
    { cbn in Hrun. injection Hrun as <-. cbn [commits] in Hk. lia. }
    eapply IH; [exact Hrun | | | exact Hdone].
    + cbn. rewrite length_app. cbn. lia.
    + cbn [polls]. split; [|lia].
      destruct (decide (k = polls s)) as [->|Hne]; [congruence | lia].
  - injection Hrun as <-. lia.
  - discriminate.
Qed.

(** The first call of [Next] behind [n + 1] commits in a row. *)
Lemma commits_from_S (store : gmap string Commit) (w : commitIteratorByCTime)
    (n : nat) :
  is_Some (commits_from store w (S n)) ->
  exists c w', Next store w = Yield c w' /\ is_Some (commits_from store w' n).
Proof.
  cbn [commits_from]. destruct (Next store w) as [c w'| |e].
  - intros Hs. exists c, w'. split; [reflexivity|].
    destruct (commits_from store w' n); [eauto | destruct Hs; discriminate].
  - intros [cs Hcs]. discriminate.
  - intros [cs Hcs]. discriminate.
Qed.

Lemma commits_from_Yield (store : gmap string Commit)
    (w w' : commitIteratorByCTime) (c : Commit) (n : nat) :
  Next store w = Yield c w' ->
  is_Some (commits_from store w' n) ->
  is_Some (commits_from store w (S n)).
Proof.
  intros Hnext [cs Hcs]. cbn [commits_from]. rewrite Hnext, Hcs. eauto.
Qed.

(** A poll the loop makes that finds the context done ends the loop
    with [ctx.Err()]. *)
Lemma ForEach_ancestry_fires (ctx : Context) (depth : Z)
    (store : gmap string Commit) (j : nat) :
  forall (fuel : nat) (w : commitIteratorByCTime) (s : walk_state),
    polls s = length (commits s) ->
    is_Some (commits_from store w (S j)) ->
    Z.of_nat (length (commits s) + j) <= depth ->
    Done ctx (length (commits s) + j) = true ->
    (j < fuel)%nat ->
    exists s',
      ForEach fuel store w (ancestry_callback ctx depth) s
      = Some (s', Some (CtxErr ctx)).
Proof.
  induction j as [|j IH]; intros fuel w s Hpolls Hsome Hle Hdone Hfuel.
  - destruct fuel as [|fuel]; [lia|].
    destruct (commits_from_S _ _ _ Hsome) as (c & w' & Hnext & _).
    cbn [ForEach]. rewrite Hnext. unfold ancestry_callback.
    rewrite Hpolls. rewrite Nat.add_0_r in Hdone. rewrite Hdone.
    rewrite CtxErr_not_stop. eauto.
  - destruct fuel as [|fuel]; [lia|].
    destruct (commits_from_S _ _ _ Hsome) as (c & w' & Hnext & Hsome').
    cbn [ForEach]. rewrite Hnext. unfold ancestry_callback.
    destruct (Done ctx (polls s)) eqn:Hnow.
    { rewrite CtxErr_not_stop. eauto. }
    destruct (Z.geb_spec (Z.of_nat (length (commits s))) depth) as [Hge|Hlt];
      [lia|].
    apply IH.
    + cbn. rewrite length_app. cbn. lia.
    + exact Hsome'.
    + cbn [commits]. rewrite length_app. cbn [length]. lia.
    + cbn [commits]. rewrite length_app. cbn [length].
      replace (length (commits s) + 1 + j)%nat
        with (length (commits s) + S j)%nat by lia.
      exact Hdone.
    + lia.
Qed.

(** While every poll the loop makes finds the context live, the loop
    is the loop without cancellation. *)
Lemma ForEach_ancestry_live (ctx : Context) (depth : Z)
    (store : gmap string Commit) (fuel : nat) :
  forall (w : commitIteratorByCTime) (s : walk_state),
    polls s = length (commits s) ->
    (forall j, Z.of_nat (length (commits s) + j) <= depth ->
               is_Some (commits_from store w (S j)) ->
               Done ctx (length (commits s) + j) = false) ->
    Z.of_nat (length (commits s)) <= depth ->
    ForEach fuel store w (ancestry_callback ctx depth) s
    = ForEach fuel store w (ancestry_callback Background depth) s.
Proof.
  induction fuel as [|fuel IH]; intros w s Hpolls Hlive Hle; [reflexivity|].
  cbn [ForEach]. destruct (Next store w) as [c w'| |e] eqn:Hnext;
    [|reflexivity|reflexivity].
  unfold ancestry_callback. cbn [Background Done].
  assert (Hnow : Done ctx (polls s) = false).
  { rewrite Hpolls. rewrite <- (Nat.add_0_r (length (commits s))).
    apply Hlive; [lia|].
    apply (commits_from_Yield _ _ _ _ O Hnext). cbn. eauto. }
  rewrite Hnow.
  destruct (Z.geb_spec (Z.of_nat (length (commits s))) depth) as [Hge|Hlt];
    [reflexivity|].
  apply IH.
  - cbn. rewrite length_app. cbn. lia.
  - cbn [commits]. rewrite length_app. cbn [length]. intros j Hj Hsome.
    replace (length (commits s) + 1 + j)%nat
      with (length (commits s) + S j)%nat by lia.
    apply Hlive; [lia|]. apply (commits_from_Yield _ _ _ _ _ Hnext Hsome).
  - cbn [commits]. rewrite length_app. cbn [length]. lia.
Qed.

(** C5 (amended). The context is polled only inside the walk, once for
    each commit the iterator hands over, before the depth check and the
    append. A poll the walk makes that finds the context done ends it:
    the result is no sequence and the walk failure wrapping
    [ctx.Err()]; this holds also for the poll behind the last commit
    collected. When every poll the walk makes finds the context live,
    the result is that of the walk without cancellation, a failure
    before the first poll included. A sequence that is returned was
    collected with every poll live and is the sequence the walk returns
    without cancellation, never a part of it. The walk always
    returns. *)
Theorem GetCommitAncestry_cancellation
    (repo : GoGitRepository) (ctx : Context) (depth : Z) :
  ((exists k, polled repo depth k /\ Done ctx k = true) ->
     GetCommitAncestry repo ctx depth = Some (Err (walk_failure (CtxErr ctx)))
     /\ Is (walk_failure (CtxErr ctx)) (CtxErr ctx) = true)
  /\ ((forall k, polled repo depth k -> Done ctx k = false) ->
      GetCommitAncestry repo ctx depth = GetCommitAncestry repo Background depth)
  /\ (forall l,
        GetCommitAncestry repo ctx depth = Some (Ok l) ->
        (forall k, polled repo depth k -> Done ctx k = false)
        /\ (forall k, (k < length l)%nat -> Done ctx k = false)
        /\ GetCommitAncestry repo Background depth = Some (Ok l))
  /\ exists r, GetCommitAncestry repo ctx depth = Some r.
Proof.
  pose proof (normalize_depth_pos depth) as Hpos.
  assert (Hfire : (exists k, polled repo depth k /\ Done ctx k = true) ->
            GetCommitAncestry repo ctx depth
            = Some (Err (walk_failure (CtxErr ctx)))).
  { intros (k & (Hk & head & c & cs & Hhead & Hc & Hcs) & Hdone).
    unfold GetCommitAncestry, Head, CommitObject. cbv zeta.
    rewrite Hhead, Hc.
    destruct (ForEach_ancestry_fires ctx (normalize_depth depth) (objects repo)
                k (S (Z.to_nat (normalize_depth depth)))
                (NewCommitIterCTime c) {| commits := []; polls := O |})
      as (s' & ->).
    - reflexivity.
    - rewrite Hcs. eauto.
    - cbn. exact Hk.
    - exact Hdone.
    - lia.
    - rewrite CtxErr_Is_not_stop. reflexivity. }
  split; [|split; [|split]].
  - intros Hex. split; [apply Hfire, Hex|].
    unfold walk_failure, CtxErr. destruct (TimedOut ctx); apply Is_wraps_sentinel.
  - intros Hlive. unfold GetCommitAncestry, Head, CommitObject. cbv zeta.
    destruct (HEAD repo) as [head|] eqn:Hhead; [|reflexivity].
    destruct (objects repo !! RefHash head) as [c|] eqn:Hc; [|reflexivity].
    rewrite ForEach_ancestry_live; [reflexivity | reflexivity | | cbn; lia].
    cbn [commits length Nat.add]. intros j Hj [cs Hcs].
    apply Hlive. split; [exact Hj|]. exists head, c, cs. auto.
  - intros l Hl. split.
    + intros k Hk. destruct (Done ctx k) eqn:Hdone; [|reflexivity].
      rewrite Hfire in Hl by eauto. discriminate.
    + apply GetCommitAncestry_Ok_inv in Hl.
      destruct Hl as (_ & _ & Hlive & Hbg). split; assumption.
  - apply GetCommitAncestry_total.
Qed.

Lemma GetCommitAncestry_cancellation_witness :
  GetCommitAncestry linear_repo AlreadyCanceled 10
  = Some (Err (Errorf "failed to walk commit history: context canceled"
                      [Canceled]))
  /\ GetCommitAncestry linear_repo (CanceledAt 3) 3
     = Some (Err (Errorf "failed to walk commit history: context canceled"
                         [Canceled]))
  /\ GetCommitAncestry linear_repo (CanceledAt 7) 10
     = GetCommitAncestry linear_repo Background 10.
Proof.
  split; [|split].
  - destruct (GetCommitAncestry_cancellation linear_repo AlreadyCanceled 10)
      as (H & _).
    destruct H as [H _]; [|exact H].
    exists O. split; [|reflexivity].
    split; [vm_compute; discriminate|].
    eexists _, _, _. split; [reflexivity|]. split; vm_compute; reflexivity.
  - destruct (GetCommitAncestry_cancellation linear_repo (CanceledAt 3) 3)
      as (H & _).
    destruct H as [H _]; [|exact H].
    exists 3%nat. split; [|reflexivity].
    split; [vm_compute; discriminate|].
    eexists _, _, _. split; [reflexivity|]. split; vm_compute; reflexivity.
  - destruct (GetCommitAncestry_cancellation linear_repo (CanceledAt 7) 10)
      as (_ & H & _).
    apply H. intros k [_ (head & c & cs & Hhead & Hc & Hcs)].
    do 7 (destruct k as [|k]; [reflexivity|]).
    exfalso. injection Hhead as <-. vm_compute in Hc. injection Hc as <-.
    vm_compute in Hcs. discriminate.
Defined.

(** C5 (the claim as written fails). Under a context cancelled before
    the call, a repository whose HEAD does not resolve, and a shallow
    clone whose HEAD commit names a parent that is not stored, give
    the failure of HEAD and of the store: neither is a cancellation
    error. *)
Lemma GetCommitAncestry_cancelled_not_reported :
  GetCommitAncestry empty_repo AlreadyCanceled 10
  = Some (Err (Errorf "failed to get HEAD: reference not found"
                      [ErrReferenceNotFound]))
  /\ Is (Errorf "failed to get HEAD: reference not found" [ErrReferenceNotFound])
        (CtxErr AlreadyCanceled) = false
  /\ GetCommitAncestry shallow_repo AlreadyCanceled 10
     = Some (Err (Errorf "failed to walk commit history: object not found"
                         [ErrObjectNotFound]))
  /\ Is (Errorf "failed to walk commit history: object not found"
                [ErrObjectNotFound])
        (CtxErr AlreadyCanceled) = false.
Proof. repeat split; vm_compute; reflexivity. Qed.

(** On a history without merges the walk is the first-parent lineage,
    cut at the depth. *)
Lemma ForEach_merge_free (depth : Z) (store : gmap string Commit) :
  well_keyed store -> merge_free store ->
  forall (fuel : nat) (w : commitIteratorByCTime) (s : walk_state) (c : Commit),
    heap w = [c] ->
    store !! Hash c = Some c ->
    (forall h, h ∈ seen w -> exists c', store !! h = Some c' /\ When c < When c') ->
    Z.of_nat (length (commits s)) <= depth ->
    depth < Z.of_nat (length (commits s)) + Z.of_nat fuel ->
    exists s',
      ForEach fuel store w (ancestry_callback Background depth) s = Some (s', None)
      /\ commits s'
         = (commits s
            ++ first_parent_chain store
                 (Z.to_nat depth - length (commits s)) (Hash c))%list.
Proof.
  intros Hkey Hlin. induction fuel as [|fuel IH];
    intros w s c Hheap Hc Hseen Hle Hfuel; [lia|].
  cbn [ForEach]. unfold Next. rewrite Hheap. cbn [next_from].
  destruct (decide (Hash c ∈ seen w)) as [Hin|Hnin].
  { destruct (Hseen _ Hin) as (c' & Hc' & Hlt). rewrite Hc in Hc'.
    injection Hc' as <-. lia. }
  unfold ancestry_callback. cbn [Background Done].
  destruct (Hlin _ _ Hc) as [Hnil | (p & pc & Hp & Hpc & Hlt)].
  - rewrite Hnil. cbn [push_parents].
    destruct (Z.of_nat (length (commits s)) >=? depth) eqn:Hge.
    + cbn. eexists. split; [reflexivity|]. cbn [commits].
      rewrite Z.geb_leb in Hge. apply Z.leb_le in Hge.
      replace (Z.to_nat depth - length (commits s))%nat with O by lia.
      cbn. symmetry. apply app_nil_r.
    + rewrite Z.geb_leb in Hge. apply Z.leb_gt in Hge.
      destruct fuel as [|fuel]; [lia|]. cbn [ForEach Next seen heap next_from].
      eexists. split; [reflexivity|]. cbn [commits].
      replace (Z.to_nat depth - length (commits s))%nat
        with (S (Z.to_nat depth - S (length (commits s)))) by lia.
      cbn [first_parent_chain]. rewrite Hc, Hnil. reflexivity.
  - rewrite Hp. cbn [push_parents].
    destruct (decide (p ∈ {[Hash c]} ∪ seen w)) as [Hpin|_].
    { exfalso. apply elem_of_union in Hpin. destruct Hpin as [Hpin|Hpin].
      - apply elem_of_singleton in Hpin. subst p. rewrite Hc in Hpc.
        injection Hpc as <-. lia.
      - destruct (Hseen _ Hpin) as (c' & Hc' & Hlt'). rewrite Hpc in Hc'.
        injection Hc' as <-. lia. }
    rewrite Hpc. cbn [heap_Push].
    destruct (Z.of_nat (length (commits s)) >=? depth) eqn:Hge.
    + cbn. eexists. split; [reflexivity|]. cbn [commits].
      rewrite Z.geb_leb in Hge. apply Z.leb_le in Hge.
      replace (Z.to_nat depth - length (commits s))%nat with O by lia.
      cbn. symmetry. apply app_nil_r.
    + rewrite Z.geb_leb in Hge. apply Z.leb_gt in Hge.
      pose proof (Hkey _ _ Hpc) as Hhash.
      edestruct (IH {| seen := {[Hash c]} ∪ seen w; heap := [pc] |}
                   {| commits := commits s ++ [Hash c];
                      polls := S (polls s) |} pc) as (s' & Hrun & Hcommits).
      * reflexivity.
      * rewrite Hhash. exact Hpc.
      * cbn [seen]. intros h Hh. apply elem_of_union in Hh. destruct Hh as [Hh|Hh].
        { apply elem_of_singleton in Hh. subst h. exists c. split; [exact Hc | lia]. }
        { destruct (Hseen _ Hh) as (c' & Hc' & Hlt'). exists c'.
          split; [exact Hc' | lia]. }
      * cbn [commits]. rewrite length_app. cbn. lia.
      * cbn [commits]. rewrite length_app. cbn. lia.
      * exists s'. split; [exact Hrun|]. rewrite Hcommits. cbn [commits].
        rewrite length_app. cbn [length].
        replace (Z.to_nat depth - length (commits s))%nat
          with (S (Z.to_nat depth - (length (commits s) + 1))) by lia.
        cbn [first_parent_chain]. rewrite Hc, Hp, Hhash, <- app_assoc.
        reflexivity.
Qed.

(** X7. On a history without merge commits (each commit under its own
    hash, with at most one parent, stored and older) the walk without
    cancellation is the first-parent lineage of HEAD, cut at the
    depth. *)
Lemma GetCommitAncestry_merge_free (repo : GoGitRepository) (head : Reference)
    (c : Commit) (depth : Z) :
  well_keyed (objects repo) -> merge_free (objects repo) ->
  HEAD repo = Some head ->
  objects repo !! RefHash head = Some c ->
  GetCommitAncestry repo Background depth
  = Some (Ok (first_parent_chain (objects repo)
                (Z.to_nat (normalize_depth depth)) (RefHash head))).
Proof.
  intros Hkey Hlin Hhead Hc.
  pose proof (normalize_depth_pos depth) as Hpos.
  unfold GetCommitAncestry, Head, CommitObject. cbv zeta. rewrite Hhead, Hc.
  pose proof (Hkey _ _ Hc) as Hhash.
  destruct (ForEach_merge_free (normalize_depth depth) (objects repo) Hkey Hlin
              (S (Z.to_nat (normalize_depth depth))) (NewCommitIterCTime c)
              {| commits := []; polls := O |} c) as (s' & -> & Hcommits).
  - reflexivity.
  - rewrite Hhash. exact Hc.
  - cbn [NewCommitIterCTime seen]. intros h Hh.
    exfalso. revert Hh. apply not_elem_of_empty.
  - cbn. lia.
  - cbn. lia.
  - cbn [commits length app] in Hcommits. rewrite Nat.sub_0_r, Hhash in Hcommits.
    rewrite Hcommits.
    destruct (Z.to_nat (normalize_depth depth)) as [|n] eqn:Hn; [lia|].
    reflexivity.
Qed.

(** C1 (the code at the history of the repository's test
    [TestGoGitRepository_GetCommitAncestry_FirstParentOnly]). The walk
    returns all six commits by decreasing committer time. After the
    merge commit comes [m2], its second parent, not [f1], its first;
    [m2] and [m1], reachable only through that second parent, are in
    the sequence, and not in the first-parent lineage of HEAD. *)
Theorem GetCommitAncestry_follows_all_parents :
  GetCommitAncestry merged_repo Background 20
    = Some (Ok ["f2"; "merge"; "m2"; "m1"; "f1"; "init"])
  /\ first_parent_chain (objects merged_repo) 20 "f2"
     = ["f2"; "merge"; "f1"; "init"]
  /\ (ParentHashes <$> objects merged_repo !! "merge") = Some ["f1"; "m2"].
Proof. vm_compute. repeat split. Qed.

(** C3 (the code at the same history, depth 20). The sequence starts
    at HEAD but has six commits, where the first-parent lineage of
    HEAD has four. *)
Theorem GetCommitAncestry_length_counts_merged_commits :
  exists l,
    GetCommitAncestry merged_repo Background 20 = Some (Ok l)
    /\ head l = Some "f2"
    /\ length l = 6%nat
    /\ length (first_parent_chain (objects merged_repo) 20 "f2") = 4%nat
    /\ length l <> Nat.min 20 4.
Proof.
  eexists. split; [vm_compute; reflexivity|].
  repeat split; vm_compute; congruence.
Qed.

End WalkProperties.

Section RegexFacts.
Import git SpecNotions.

Lemma break_spec (d : ascii) (s : list ascii) :
  forall p r, break d s = (p, r) ->
    s = (p ++ r)%list /\ Forall (fun c => c <> d) p
    /\ (r = [] \/ exists r', r = d :: r').
Proof.
  induction s as [|c s IH]; simpl; intros p r.
  - intros [= <- <-]. auto.
  - case_bool_decide as Hc.
    + intros [= <- <-]. subst c. split; [reflexivity|]. split; [constructor|].
      right. eauto.
    + destruct (break d s) as [p' r'] eqn:E. intros [= <- <-].
      destruct (IH p' r' eq_refl) as (-> & Hall & Hr).
      split; [reflexivity|]. split; [constructor; assumption | exact Hr].
Qed.

(** A greedy [[^d]+] whose continuation wants [d] next has one way to
    match: the whole run up to the first [d]. *)
Lemma plus_greedy_break {R : Type} (d : ascii) (k : list ascii -> option R) :
  (forall s', head s' <> Some d -> k s' = None) ->
  forall s,
    plus_greedy (AnyBut d) s k
    = match break d s with
      | ([], _) => None
      | (_ :: _, rest) => k rest
      end.
Proof.
  intros Hk. induction s as [|c s IH]; simpl; [reflexivity|].
  case_bool_decide as Hc; simpl; [reflexivity|].
  rewrite IH. destruct (break d s) as [p r] eqn:E.
  destruct (break_spec d s p r E) as (Hs & Hall & _).
  destruct p as [|c' p].
  - simpl in Hs. subst r. reflexivity.
  - destruct (k r); [reflexivity|].
    apply Hk. subst s. simpl. inversion Hall; subst. congruence.
Qed.

Lemma strip_prefix_Some (t s r : list ascii) :
  strip_prefix t s = Some r <-> s = (t ++ r)%list.
Proof.
  revert s. induction t as [|a t IH]; intros s; simpl.
  - split; congruence.
  - destruct s as [|b s]; [split; discriminate|].
    case_bool_decide as Hab.
    + subst b. rewrite IH. split; congruence.
    + split; [discriminate | congruence].
Qed.

Lemma strip_prefix_app (t r : list ascii) :
  strip_prefix t (t ++ r) = Some r.
Proof. apply strip_prefix_Some. reflexivity. Qed.

Lemma strip_prefix_head (d : ascii) (s : list ascii) :
  head s <> Some d -> strip_prefix [d] s = None.
Proof.
  destruct s as [|c s]; simpl; [reflexivity|].
  intros Hc. case_bool_decide; [congruence | reflexivity].
Qed.

(** *** How the matcher unfolds along a pattern *)

Lemma rmatch_Bol_Cat n0 r s (cs : gmap nat (list ascii)) k :
  rmatch n0 (Cat Bol r) s cs k
  = if (length s =? n0)%nat then rmatch n0 r s cs k else None.
Proof. reflexivity. Qed.

Lemma rmatch_Str_Cat n0 t r s (cs : gmap nat (list ascii)) k :
  rmatch n0 (Cat (Str t) r) s cs k
  = match strip_prefix (list_ascii_of_string t) s with
    | Some s' => rmatch n0 r s' cs k
    | None => None
    end.
Proof. reflexivity. Qed.

Lemma rmatch_Opt_Cat n0 r1 r2 s (cs : gmap nat (list ascii)) k :
  rmatch n0 (Cat (Opt r1) r2) s cs k
  = match rmatch n0 (Cat r1 r2) s cs k with
    | Some x => Some x
    | None => rmatch n0 r2 s cs k
    end.
Proof. reflexivity. Qed.

Lemma rmatch_Group n0 i r s (cs : gmap nat (list ascii)) k :
  rmatch n0 (Group i r) s cs k
  = rmatch n0 r s cs
      (fun s' cs' => k s' (<[i := take (length s - length s') s]> cs')).
Proof. reflexivity. Qed.

(** [[^d]+] and then [d]. *)
Lemma rmatch_segment n0 d r s (cs : gmap nat (list ascii)) k :
  rmatch n0 (Cat (Plus (AnyBut d)) (Cat (Str (String d "")) r)) s cs k
  = match segment_then d s with
    | Some (_, s2) => rmatch n0 r s2 cs k
    | None => None
    end.
Proof.
  cbn [rmatch list_ascii_of_string].
  rewrite plus_greedy_break.
  2:{ intros s' Hs'. rewrite strip_prefix_head by exact Hs'. reflexivity. }
  unfold segment_then. destruct (break d s) as [p rest] eqn:E.
  destruct (break_spec d s p rest E) as (_ & _ & Hrest).
  destruct p as [|c p]; [reflexivity|].
  destruct Hrest as [-> | [r' ->]]; [reflexivity|].
  simpl. rewrite bool_decide_eq_true_2 by reflexivity. reflexivity.
Qed.

(** [([^d]+)] and then [d]: the group is the run. *)
Lemma rmatch_group_segment n0 i d r s (cs : gmap nat (list ascii)) k :
  rmatch n0 (Cat (Group i (Plus (AnyBut d))) (Cat (Str (String d "")) r)) s cs k
  = match segment_then d s with
    | Some (p, s2) => rmatch n0 r s2 (<[i := p]> cs) k
    | None => None
    end.
Proof.
  cbn [rmatch list_ascii_of_string].
  rewrite plus_greedy_break.
  2:{ intros s' Hs'. rewrite strip_prefix_head by exact Hs'. reflexivity. }
  unfold segment_then. destruct (break d s) as [p rest] eqn:E.
  destruct (break_spec d s p rest E) as (Hs & _ & Hrest).
  destruct p as [|c p]; [reflexivity|].
  destruct Hrest as [-> | [r' ->]]; [reflexivity|].
  simpl strip_prefix. rewrite bool_decide_eq_true_2 by reflexivity.
  replace (take (length s - length (d :: r')) s) with (c :: p); [reflexivity|].
  rewrite Hs, length_app, Nat.add_sub. symmetry. apply take_app_length.
Qed.

Lemma strip_dot_git_prefix (s : list ascii) :
  take (length (strip_dot_git s)) s = strip_dot_git s
  /\ (length (strip_dot_git s) <= length s)%nat
  /\ (drop (length (strip_dot_git s)) s = []
      \/ drop (length (strip_dot_git s)) s = dotgit).
Proof.
  induction s as [|c s (IH1 & IH2 & IH3)]; simpl; [auto|].
  case_bool_decide as Hs; simpl.
  - subst s. rewrite take_0, drop_0. split; [reflexivity|].
    split; [lia | right; reflexivity].
  - rewrite IH1. split; [reflexivity|]. split; [lia | exact IH3].
Qed.

(** A lazy [[^/]+?] whose continuation accepts exactly the empty rest
    and [.git] stops at the [.git] when there is one. *)
Lemma plus_lazy_dotgit {R : Type} (k : list ascii -> option R) :
  (forall s', k s' = None <-> s' <> [] /\ s' <> dotgit) ->
  forall s,
    plus_lazy (AnyBut slash) s k
    = match last_segment s with
      | Some name => k (drop (length name) s)
      | None => None
      end.
Proof.
  intros Hk. induction s as [|c s IH]; [reflexivity|].
  cbn [plus_lazy class_match last_segment existsb strip_dot_git].
  case_bool_decide as Hc; cbn [negb orb]; [reflexivity|].
  destruct (k s) as [x|] eqn:Hks.
  - assert (Hs : s = [] \/ s = dotgit).
    { destruct (decide (s = [])) as [|Hn]; [auto|].
      destruct (decide (s = dotgit)) as [|Hd]; [auto|].
      assert (k s = None) by (apply Hk; auto). congruence. }
    destruct Hs as [-> | ->]; cbn; rewrite ?drop_0; exact (eq_sym Hks).
  - apply Hk in Hks. destruct Hks as [Hn Hd].
    rewrite IH. rewrite (bool_decide_eq_false_2 _ Hd).
    destruct s as [|c' s]; [congruence|].
    cbn [last_segment]. destruct (existsb _ (c' :: s)); reflexivity.
Qed.

(** [([^/]+?)(?:\.git)?$] *)
Lemma rmatch_group_last n0 i s (cs : gmap nat (list ascii))
    (f : list ascii -> gmap nat (list ascii) -> gmap nat (list ascii)) :
  rmatch n0 (Cat (Group i (PlusLazy (AnyBut slash))) (Cat (Opt (Str ".git")) Eol))
    s cs (fun s' cs' => Some (f s' cs'))
  = match last_segment s with
    | Some name => Some (f [] (<[i := name]> cs))
    | None => None
    end.
Proof.
  cbn [rmatch].
  rewrite plus_lazy_dotgit.
  - destruct (last_segment s) as [name|] eqn:Hname; [|reflexivity].
    assert (name = strip_dot_git s) as ->.
    { unfold last_segment in Hname. destruct s; [discriminate|].
      destruct (existsb _ _); congruence. }
    destruct (strip_dot_git_prefix s) as (Htake & Hlen & Hdrop).
    replace (take (length s - length (drop (length (strip_dot_git s)) s)) s)
      with (strip_dot_git s).
    2:{ rewrite length_drop.
        replace (length s - (length s - length (strip_dot_git s)))%nat
          with (length (strip_dot_git s)) by lia.
        symmetry. exact Htake. }
    destruct Hdrop as [-> | ->]; reflexivity.
  - intros s'. split.
    + intros Hnone. split; intros ->; cbn in Hnone; discriminate.
    + intros [Hn Hd].
      destruct (strip_prefix (list_ascii_of_string ".git") s') as [r|] eqn:E.
      * apply strip_prefix_Some in E. destruct r as [|c r].
        { exfalso. apply Hd. rewrite E. apply app_nil_r. }
        destruct s'; [congruence | reflexivity].
      * destruct s'; [congruence | reflexivity].
Qed.

(** A pattern that starts with [^] matches at the start or nowhere. *)
Lemma find_from_anchored_later n0 r s :
  (length s < n0)%nat -> find_from n0 (Cat Bol r) s = None.
Proof.
  induction s as [|c s IH]; intros Hlen; cbn [find_from].
  - rewrite rmatch_Group, rmatch_Bol_Cat.
    destruct (Nat.eqb_spec (length (@nil ascii)) n0); [lia | reflexivity].
  - rewrite rmatch_Group, rmatch_Bol_Cat.
    destruct (Nat.eqb_spec (length (c :: s)) n0); [lia|].
    apply IH. simpl in Hlen. lia.
Qed.

Lemma find_from_anchored r s :
  find_from (length s) (Cat Bol r) s
  = rmatch (length s) r s ∅
      (fun s' cs => Some (<[0%nat := take (length s - length s') s]> cs)).
Proof.
  assert (Hm : rmatch (length s) (Group 0 (Cat Bol r)) s ∅ (fun _ cs => Some cs)
               = rmatch (length s) r s ∅
                   (fun s' cs => Some (<[0%nat := take (length s - length s') s]> cs))).
  { rewrite rmatch_Group, rmatch_Bol_Cat, Nat.eqb_refl. reflexivity. }
  destruct s as [|c s]; cbn [find_from]; rewrite Hm.
  - destruct (rmatch _ r [] ∅ _); reflexivity.
  - rewrite find_from_anchored_later by (simpl; lia).
    destruct (rmatch _ r (c :: s) ∅ _); reflexivity.
Qed.

(** The HTTPS pattern finds what [https_shape] reads. *)
Lemma https_find (u : list ascii) :
  find_from (length u) httpsURLPattern u
  = match https_shape u with
    | Some (owner, name) => Some (found u owner name)
    | None => None
    end.
Proof.
  unfold httpsURLPattern, https_shape.
  rewrite find_from_anchored, rmatch_Str_Cat.
  destruct (strip_prefix (list_ascii_of_string "http") u) as [u1|]; [|reflexivity].
  rewrite rmatch_Opt_Cat, !rmatch_Str_Cat.
  assert (Hrest : forall u2,
    match strip_prefix (list_ascii_of_string "://") u2 with
    | Some s' =>
        rmatch (length u)
          (Cat (Plus (AnyBut slash)) (Cat (Str "/")
            (Cat (Group 1 (Plus (AnyBut slash))) (Cat (Str "/")
              (Cat (Group 2 (PlusLazy (AnyBut slash)))
                (Cat (Opt (Str ".git")) Eol))))))
          s' ∅
          (fun s'0 cs => Some (<[0%nat := take (length u - length s'0) u]> cs))
    | None => None
    end
    = match strip_prefix (list_ascii_of_string "://") u2 with
      | Some u3 =>
          match segment_then slash u3 with
          | Some (_, u4) =>
              match segment_then slash u4 with
              | Some (owner, u5) =>
                  match last_segment u5 with
                  | Some name => Some (found u owner name)
                  | None => None
                  end
              | None => None
              end
          | None => None
          end
      | None => None
      end).
  { intros u2.
    destruct (strip_prefix (list_ascii_of_string "://") u2) as [u3|]; [|reflexivity].
    change (Str "/") with (Str (String slash "")).
    rewrite rmatch_segment.
    destruct (segment_then slash u3) as [[host u4]|]; [|reflexivity].
    rewrite rmatch_group_segment.
    destruct (segment_then slash u4) as [[owner u5]|]; [|reflexivity].
    rewrite (rmatch_group_last (length u) 2 u5 (<[1%nat := owner]> ∅)
               (fun s' cs => <[0%nat := take (length u - length s') u]> cs)).
    destruct (last_segment u5) as [name|]; [|reflexivity].
    unfold found. cbn [length]. rewrite Nat.sub_0_r, firstn_all. reflexivity. }
  destruct (strip_prefix (list_ascii_of_string "s") u1) as [u2|] eqn:Es;
    cbn [from_option]; unfold id.
  - rewrite rmatch_Str_Cat, !Hrest.
    assert (Hs : strip_prefix (list_ascii_of_string "://") u1 = None).
    { apply strip_prefix_Some in Es. subst u1. reflexivity. }
    rewrite Hs.
    destruct (strip_prefix (list_ascii_of_string "://") u2) as [u3|];
      [|reflexivity].
    destruct (segment_then slash u3) as [[host u4]|]; [|reflexivity].
    destruct (segment_then slash u4) as [[owner u5]|]; [|reflexivity].
    destruct (last_segment u5); reflexivity.
  - rewrite Hrest.
    destruct (strip_prefix (list_ascii_of_string "://") u1) as [u3|];
      [|reflexivity].
    destruct (segment_then slash u3) as [[host u4]|]; [|reflexivity].
    destruct (segment_then slash u4) as [[owner u5]|]; [|reflexivity].
    destruct (last_segment u5); reflexivity.
Qed.

(** The SSH pattern finds what [ssh_shape] reads. *)
Lemma ssh_find (u : list ascii) :
  find_from (length u) sshURLPattern u
  = match ssh_shape u with
    | Some (owner, name) => Some (found u owner name)
    | None => None
    end.
Proof.
  unfold sshURLPattern, ssh_shape.
  rewrite find_from_anchored, rmatch_Str_Cat.
  destruct (strip_prefix (list_ascii_of_string "git@") u) as [u1|]; [|reflexivity].
  change (Str ":") with (Str (String colon "")).
  change (Str "/") with (Str (String slash "")).
  rewrite rmatch_segment.
  destruct (segment_then colon u1) as [[host u2]|]; [|reflexivity].
  rewrite rmatch_group_segment.
  destruct (segment_then slash u2) as [[owner u3]|]; [|reflexivity].
  rewrite (rmatch_group_last (length u) 2 u3 (<[1%nat := owner]> ∅)
             (fun s' cs => <[0%nat := take (length u - length s') u]> cs)).
  destruct (last_segment u3) as [name|]; [|reflexivity].
  unfold found. cbn [length]. rewrite Nat.sub_0_r, firstn_all. reflexivity.
Qed.

Lemma submatches_found (u owner name : list ascii) :
  map (fun i => string_of_list_ascii (default [] (found u owner name !! i)))
      (seq 0 3)
  = [string_of_list_ascii u; string_of_list_ascii owner;
     string_of_list_ascii name].
Proof.
  unfold found. cbn [seq map].
  rewrite lookup_insert_eq.
  rewrite lookup_insert_ne, lookup_insert_ne, lookup_insert_eq by discriminate.
  rewrite lookup_insert_ne, lookup_insert_eq by discriminate.
  reflexivity.
Qed.

(** [parseRepoFromURL] reads the two shapes and nothing else. *)
Lemma parseRepoFromURL_shape (url : string) :
  parseRepoFromURL url
  = match remote_shape (TrimSpace url) with
    | Some (owner, name) => Ok (owner ++ "/" ++ name)
    | None => Err (New ("unrecognized URL format: " ++ TrimSpace url))
    end.
Proof.
  unfold parseRepoFromURL, remote_shape, FindStringSubmatch. cbv zeta.
  rewrite https_find, ssh_find.
  destruct (https_shape _) as [[owner name]|].
  - rewrite submatches_found. reflexivity.
  - cbn [map]. destruct (ssh_shape _) as [[owner name]|].
    + rewrite submatches_found. reflexivity.
    + reflexivity.
Qed.

End RegexFacts.

Section ShapeFacts.
Import git SpecNotions.

Lemma break_app (d : ascii) (p r : list ascii) :
  Forall (fun c => c <> d) p -> break d (p ++ d :: r) = (p, d :: r).
Proof.
  induction 1 as [|c p Hc _ IH]; simpl.
  - rewrite bool_decide_eq_true_2 by reflexivity. reflexivity.
  - rewrite (bool_decide_eq_false_2 _ Hc), IH. reflexivity.
Qed.

Lemma segment_then_app (d : ascii) (p r : list ascii) :
  p <> [] -> Forall (fun c => c <> d) p ->
  segment_then d (p ++ d :: r) = Some (p, r).
Proof.
  intros Hp Hall. unfold segment_then. rewrite break_app by exact Hall.
  destruct p; [congruence | reflexivity].
Qed.

Lemma segment_then_inv (d : ascii) (s p r : list ascii) :
  segment_then d s = Some (p, r) ->
  s = (p ++ d :: r)%list /\ p <> [] /\ Forall (fun c => c <> d) p.
Proof.
  unfold segment_then. destruct (break d s) as [p' r'] eqn:E.
  destruct (break_spec d s p' r' E) as (Hs & Hall & Hr).
  destruct p' as [|c p']; [discriminate|].
  destruct r' as [|c' r']; [discriminate|].
  intros [= <- <-]. destruct Hr as [|[r'' [= -> ->]]]; [discriminate|].
  split; [exact Hs|]. split; [discriminate | exact Hall].
Qed.

Lemma existsb_slash_false (s : list ascii) :
  existsb (fun c => bool_decide (c = slash)) s = false
  <-> Forall (fun c => c <> slash) s.
Proof.
  induction s as [|c s IH]; simpl.
  - split; [constructor | reflexivity].
  - rewrite orb_false_iff, IH. split.
    + intros [Hc Hs]. constructor; [|exact Hs].
      intros ->. rewrite bool_decide_eq_true_2 in Hc by reflexivity. discriminate.
    + intros Hall. inversion Hall; subst.
      split; [apply bool_decide_eq_false_2; assumption | assumption].
Qed.

Lemma last_segment_iff (s n : list ascii) :
  last_segment s = Some n
  <-> s <> [] /\ Forall (fun c => c <> slash) s /\ n = strip_dot_git s.
Proof.
  unfold last_segment. destruct s as [|c s].
  - split; [discriminate | intros [Hn _]; congruence].
  - destruct (existsb _ (c :: s)) eqn:E.
    + split; [discriminate|]. intros (_ & Hall & _).
      apply existsb_slash_false in Hall. congruence.
    + apply existsb_slash_false in E. split.
      * intros [= <-]. split; [discriminate|]. split; [exact E | reflexivity].
      * intros (_ & _ & ->). reflexivity.
Qed.

(** [strip_dot_git] does what its name says. *)
Lemma strip_dot_git_suffix (stem : list ascii) :
  stem <> [] -> strip_dot_git (stem ++ dotgit) = stem.
Proof.
  induction stem as [|c stem IH]; [congruence|]. intros _.
  cbn [app strip_dot_git]. destruct stem as [|c' stem].
  - rewrite bool_decide_eq_true_2 by reflexivity. reflexivity.
  - rewrite bool_decide_eq_false_2.
    + rewrite IH by discriminate. reflexivity.
    + intros Heq. apply (f_equal (@length ascii)) in Heq.
      cbn in Heq. rewrite length_app in Heq. cbn in Heq. lia.
Qed.

Lemma strip_dot_git_other (s : list ascii) :
  (forall stem, stem <> [] -> s <> (stem ++ dotgit)%list) ->
  strip_dot_git s = s.
Proof.
  induction s as [|c s IH]; [reflexivity|]. intros Hno.
  cbn [strip_dot_git]. case_bool_decide as Hs.
  - exfalso. apply (Hno [c]); [discriminate|]. subst s. reflexivity.
  - rewrite IH; [reflexivity|].
    intros stem Hstem ->. apply (Hno (c :: stem)); [discriminate | reflexivity].
Qed.

Lemma https_shape_iff (u owner name : list ascii) :
  https_shape u = Some (owner, name)
  <-> exists (secure : bool) host np,
        u = (list_ascii_of_string (if secure then "https://" else "http://")
             ++ host ++ slash :: owner ++ slash :: np)%list
        /\ seg slash host /\ seg slash owner /\ seg slash np
        /\ name = strip_dot_git np.
Proof.
  unfold https_shape. split.
  - destruct (strip_prefix (list_ascii_of_string "http") u) as [u1|] eqn:E1;
      [|discriminate].
    apply strip_prefix_Some in E1.
    destruct (strip_prefix (list_ascii_of_string "s") u1) as [u2|] eqn:E2;
      cbn [from_option]; unfold id.
    + apply strip_prefix_Some in E2.
      destruct (strip_prefix (list_ascii_of_string "://") u2) as [u3|] eqn:E3;
        [|discriminate].
      apply strip_prefix_Some in E3.
      destruct (segment_then slash u3) as [[host u4]|] eqn:E4; [|discriminate].
      destruct (segment_then slash u4) as [[owner' u5]|] eqn:E5; [|discriminate].
      destruct (last_segment u5) as [name'|] eqn:E6; [|discriminate].
      intros [= <- <-].
      apply segment_then_inv in E4, E5. apply last_segment_iff in E6.
      destruct E4 as (-> & H4), E5 as (-> & H5), E6 as (H6a & H6b & ->).
      exists true, host, u5. subst. repeat split; tauto.
    + destruct (strip_prefix (list_ascii_of_string "://") u1) as [u3|] eqn:E3;
        [|discriminate].
      apply strip_prefix_Some in E3.
      destruct (segment_then slash u3) as [[host u4]|] eqn:E4; [|discriminate].
      destruct (segment_then slash u4) as [[owner' u5]|] eqn:E5; [|discriminate].
      destruct (last_segment u5) as [name'|] eqn:E6; [|discriminate].
      intros [= <- <-].
      apply segment_then_inv in E4, E5. apply last_segment_iff in E6.
      destruct E4 as (-> & H4), E5 as (-> & H5), E6 as (H6a & H6b & ->).
      exists false, host, u5. subst. repeat split; tauto.
  - intros (secure & host & np & -> & [Hh1 Hh2] & [Ho1 Ho2] & [Hn1 Hn2] & ->).
    assert (Hlast : last_segment np = Some (strip_dot_git np)).
    { apply last_segment_iff. auto. }
    set (rest := (host ++ slash :: owner ++ slash :: np)%list).
    assert (Hrest : match segment_then slash rest with
                    | Some (_, u4) =>
                        match segment_then slash u4 with
                        | Some (owner0, u5) =>
                            match last_segment u5 with
                            | Some name => Some (owner0, name)
                            | None => None
                            end
                        | None => None
                        end
                    | None => None
                    end = Some (owner, strip_dot_git np)).
    { unfold rest. rewrite segment_then_app by assumption.
      rewrite segment_then_app by assumption. rewrite Hlast. reflexivity. }
    destruct secure.
    + change (list_ascii_of_string "https://" ++ rest)%list
        with (list_ascii_of_string "http"
              ++ (list_ascii_of_string "s" ++ (list_ascii_of_string "://" ++ rest)))%list.
      rewrite !strip_prefix_app. cbn [from_option]; unfold id.
      rewrite strip_prefix_app. exact Hrest.
    + change (list_ascii_of_string "http://" ++ rest)%list
        with (list_ascii_of_string "http" ++ (list_ascii_of_string "://" ++ rest))%list.
      rewrite strip_prefix_app.
      replace (strip_prefix (list_ascii_of_string "s")
                 (list_ascii_of_string "://" ++ rest)) with (@None (list ascii))
        by reflexivity.
      cbn [from_option]. rewrite strip_prefix_app. exact Hrest.
Qed.

Lemma ssh_shape_iff (u owner name : list ascii) :
  ssh_shape u = Some (owner, name)
  <-> exists host np,
        u = (list_ascii_of_string "git@"
             ++ host ++ colon :: owner ++ slash :: np)%list
        /\ seg colon host /\ seg slash owner /\ seg slash np
        /\ name = strip_dot_git np.
Proof.
  unfold ssh_shape. split.
  - destruct (strip_prefix (list_ascii_of_string "git@") u) as [u1|] eqn:E1;
      [|discriminate].
    apply strip_prefix_Some in E1.
    destruct (segment_then colon u1) as [[host u2]|] eqn:E2; [|discriminate].
    destruct (segment_then slash u2) as [[owner' u3]|] eqn:E3; [|discriminate].
    destruct (last_segment u3) as [name'|] eqn:E4; [|discriminate].
    intros [= <- <-].
    apply segment_then_inv in E2, E3. apply last_segment_iff in E4.
    destruct E2 as (-> & H2), E3 as (-> & H3), E4 as (H4a & H4b & ->).
    exists host, u3. subst. repeat split; tauto.
  - intros (host & np & -> & [Hh1 Hh2] & [Ho1 Ho2] & [Hn1 Hn2] & ->).
    rewrite strip_prefix_app.
    rewrite segment_then_app by assumption.
    rewrite segment_then_app by assumption.
    replace (last_segment np) with (Some (strip_dot_git np)); [reflexivity|].
    symmetry. apply last_segment_iff. auto.
Qed.

Lemma https_not_ssh (u : list ascii) (x : list ascii * list ascii) :
  https_shape u = Some x -> ssh_shape u = None.
Proof.
  unfold https_shape, ssh_shape.
  destruct (strip_prefix (list_ascii_of_string "http") u) as [u1|] eqn:E1;
    [|discriminate].
  apply strip_prefix_Some in E1. subst u. intros _. reflexivity.
Qed.

(** From lists of characters back to strings. *)
Lemma list_ascii_of_string_app (a b : string) :
  list_ascii_of_string (a ++ b)
  = (list_ascii_of_string a ++ list_ascii_of_string b)%list.
Proof. induction a as [|c a IH]; simpl; [reflexivity | rewrite IH; reflexivity]. Qed.

Lemma string_of_list_ascii_app (a b : list ascii) :
  string_of_list_ascii (a ++ b)
  = string_of_list_ascii a ++ string_of_list_ascii b.
Proof. induction a as [|c a IH]; simpl; [reflexivity | rewrite IH; reflexivity]. Qed.

Lemma segment_seg (d : ascii) (x : string) :
  segment d x <-> seg d (list_ascii_of_string x).
Proof.
  unfold segment, seg. rewrite Forall_forall.
  split; intros [Hne Hd]; split.
  - destruct x; [congruence | discriminate].
  - intros c Hc ->. apply Hd. apply list_elem_of_In. exact Hc.
  - destruct x; [simpl in Hne; congruence | discriminate].
  - intros Hin. apply (Hd d); [apply list_elem_of_In; exact Hin | reflexivity].
Qed.

Lemma seg_segment (d : ascii) (l : list ascii) :
  seg d l -> segment d (string_of_list_ascii l).
Proof.
  intros H. apply segment_seg. rewrite list_ascii_of_string_of_list_ascii. exact H.
Qed.

(** [remote_shape] reads exactly the URLs [RemoteURL] describes. *)
Lemma remote_shape_iff (u owner name : string) :
  remote_shape u = Some (owner, name) <-> RemoteURL u owner name.
Proof.
  unfold remote_shape. cbv zeta. split.
  - destruct (https_shape (list_ascii_of_string u)) as [[lo ln]|] eqn:Eh.
    + intros [= <- <-]. apply https_shape_iff in Eh.
      destruct Eh as (secure & host & np & Hu & Hh & Ho & Hn & ->).
      apply (f_equal string_of_list_ascii) in Hu.
      rewrite string_of_list_ascii_of_string in Hu. rewrite Hu.
      rewrite !string_of_list_ascii_app, string_of_list_ascii_of_string.
      cbn [string_of_list_ascii]. rewrite !string_of_list_ascii_app.
      cbn [string_of_list_ascii].
      replace (string_of_list_ascii (strip_dot_git np))
        with (without_dot_git (string_of_list_ascii np))
        by (unfold without_dot_git;
            rewrite list_ascii_of_string_of_list_ascii; reflexivity).
      apply (https_url secure (string_of_list_ascii host)
               (string_of_list_ascii lo) (string_of_list_ascii np));
        apply seg_segment; assumption.
    + destruct (ssh_shape (list_ascii_of_string u)) as [[lo ln]|] eqn:Es;
        [|discriminate].
      intros [= <- <-]. apply ssh_shape_iff in Es.
      destruct Es as (host & np & Hu & Hh & Ho & Hn & ->).
      apply (f_equal string_of_list_ascii) in Hu.
      rewrite string_of_list_ascii_of_string in Hu. rewrite Hu.
      rewrite !string_of_list_ascii_app.
      cbn [string_of_list_ascii list_ascii_of_string].
      rewrite !string_of_list_ascii_app. cbn [string_of_list_ascii].
      replace (string_of_list_ascii (strip_dot_git np))
        with (without_dot_git (string_of_list_ascii np))
        by (unfold without_dot_git;
            rewrite list_ascii_of_string_of_list_ascii; reflexivity).
      apply (ssh_url (string_of_list_ascii host)
               (string_of_list_ascii lo) (string_of_list_ascii np));
        apply seg_segment; assumption.
  - intros Hurl. destruct Hurl as [secure host owner np Hh Ho Hn | host owner np Hh Ho Hn].
    + apply segment_seg in Hh, Ho, Hn.
      assert (Hs : https_shape
                (list_ascii_of_string
                   ((if secure then "https://" else "http://")
                    ++ host ++ "/" ++ owner ++ "/" ++ np))
              = Some (list_ascii_of_string owner,
                      strip_dot_git (list_ascii_of_string np))).
      { apply https_shape_iff.
        exists secure, (list_ascii_of_string host), (list_ascii_of_string np).
        split; [|auto].
        rewrite !list_ascii_of_string_app. reflexivity. }
      rewrite Hs. rewrite string_of_list_ascii_of_string. reflexivity.
    + apply segment_seg in Hh, Ho, Hn.
      assert (Hs : ssh_shape
                (list_ascii_of_string
                   ("git@" ++ host ++ ":" ++ owner ++ "/" ++ np))
              = Some (list_ascii_of_string owner,
                      strip_dot_git (list_ascii_of_string np))).
      { apply ssh_shape_iff.
        exists (list_ascii_of_string host), (list_ascii_of_string np).
        split; [|auto].
        rewrite !list_ascii_of_string_app. reflexivity. }
      replace (https_shape (list_ascii_of_string
                 ("git@" ++ host ++ ":" ++ owner ++ "/" ++ np)))
        with (@None (list ascii * list ascii)) by reflexivity.
      rewrite Hs. rewrite string_of_list_ascii_of_string. reflexivity.
Qed.

(** A trailing [.git] goes when a name precedes it, and nothing else
    changes. *)
Lemma without_dot_git_suffix (stem : string) :
  stem <> "" -> without_dot_git (stem ++ ".git") = stem.
Proof.
  intros Hne. unfold without_dot_git. rewrite list_ascii_of_string_app.
  change (list_ascii_of_string ".git") with dotgit.
  rewrite strip_dot_git_suffix.
  - apply string_of_list_ascii_of_string.
  - destruct stem; [congruence | discriminate].
Qed.

Lemma without_dot_git_other (np : string) :
  (forall stem, stem <> "" -> np <> stem ++ ".git") ->
  without_dot_git np = np.
Proof.
  intros Hno. unfold without_dot_git. rewrite strip_dot_git_other.
  - apply string_of_list_ascii_of_string.
  - intros stem Hstem Heq. apply (Hno (string_of_list_ascii stem)).
    + destruct stem; [congruence | discriminate].
    + apply (f_equal string_of_list_ascii) in Heq.
      rewrite string_of_list_ascii_of_string, string_of_list_ascii_app in Heq.
      exact Heq.
Qed.

End ShapeFacts.

Section ContextProperties.
Import domain git SpecNotions Fixture.

(** C9, as the code has it. The repository name comes from the first
    URL of [origin], trimmed of white space. When that is
    [http://host/owner/name] or [https://host/owner/name], or
    [git@host:owner/name] with the user [git] and no other, the name is
    [owner/name], less a trailing [.git] that follows a non-empty name.
    Any other URL ends [GetGitContext] with an error that is
    [ErrInvalidRemoteURL] under [errors.Is]. *)
Theorem GetGitContext_repository_name
    (repo : GoGitRepository) (head : Reference) (url : string)
    (urls : list string) :
  HEAD repo = Some head ->
  remotes repo !! "origin" = Some (url :: urls) ->
  (forall owner name,
     RemoteURL (TrimSpace url) owner name ->
     GetGitContext repo
     = Ok {| HeadSHA := RefHash head;
             Branch := default "" (RefBranch head);
             Repository := owner ++ "/" ++ name;
             IsDetached := negb (bool_decide (is_Some (RefBranch head))) |})
  /\ ((forall owner name, ~ RemoteURL (TrimSpace url) owner name) ->
      exists e, GetGitContext repo = Err e
                /\ Is e ErrInvalidRemoteURL = true).
Proof.
  intros Hhead Horigin.
  unfold GetGitContext, Head, Remote. rewrite Hhead, Horigin.
  rewrite parseRepoFromURL_shape. split.
  - intros owner name Hurl. apply remote_shape_iff in Hurl.
    rewrite Hurl. reflexivity.
  - intros Hnone.
    destruct (remote_shape (TrimSpace url)) as [[owner name]|] eqn:E.
    + exfalso. apply (Hnone owner name). apply remote_shape_iff. exact E.
    + eexists. split; [reflexivity|]. apply Is_wraps_sentinel.
Qed.

Lemma GetGitContext_repository_name_witness :
  GetGitContext merged_repo
  = Ok {| HeadSHA := "f2"; Branch := "main"; Repository := "TestOrg/test-repo";
          IsDetached := false |}
  /\ exists e, GetGitContext alice_repo = Err e
               /\ Is e ErrInvalidRemoteURL = true.
Proof.
  split.
  - destruct (GetGitContext_repository_name merged_repo
                {| RefHash := "f2"; RefBranch := Some "main" |}
                "https://github.com/TestOrg/test-repo.git" []
                eq_refl eq_refl) as [H _].
    apply (H "TestOrg" "test-repo").
    apply (https_url true "github.com" "TestOrg" "test-repo.git");
      (split; [discriminate | vm_compute; intuition discriminate]).
  - destruct (GetGitContext_repository_name alice_repo
                {| RefHash := "c1"; RefBranch := Some "main" |}
                "alice@github.com:owner/repo.git" []
                eq_refl eq_refl) as [_ H].
    apply H. intros owner name Hurl. apply remote_shape_iff in Hurl.
    vm_compute in Hurl. discriminate.
Defined.

(** C9 as stated fails: an SCP-style URL whose user is not [git] is
    refused. *)
Lemma GetGitContext_rejects_other_ssh_user :
  GetGitContext alice_repo
  = Err (Errorf
      "could not parse repository name from remote URL: failed to parse URL: unrecognized URL format: alice@github.com:owner/repo.git"
      [ErrInvalidRemoteURL;
       New "unrecognized URL format: alice@github.com:owner/repo.git"]).
Proof. vm_compute. reflexivity. Qed.

End ContextProperties.

(** * Further properties of the code *)

Section AncestryFacts.
Import domain git SpecNotions MoreNotions Fixture.

Lemma heap_Push_In (c x : Commit) (h : list Commit) :
  In x (heap_Push c h) <-> x = c \/ In x h.
Proof.
  induction h as [|y h IH]; simpl; [intuition congruence|].
  destruct (When y <? When c); simpl; [intuition congruence|].
  rewrite IH. intuition congruence.
Qed.

Lemma push_parents_In (store : gmap string Commit) (sn : gset string)
    (hs : list string) :
  forall (h h' : list Commit),
    push_parents store sn hs h = Ok h' ->
    forall x, In x h' -> In x h \/ exists p, In p hs /\ store !! p = Some x.
Proof.
  induction hs as [|p hs IH]; simpl; intros h h' Hpp x Hx.
  - injection Hpp as <-. auto.
  - destruct (decide (p ∈ sn)).
    + destruct (IH _ _ Hpp x Hx) as [|(q & Hq & Hs)]; [auto|]. right. eauto.
    + destruct (store !! p) as [pc|] eqn:Hp; [|discriminate].
      destruct (IH _ _ Hpp x Hx) as [Hin|(q & Hq & Hs)].
      * apply heap_Push_In in Hin. destruct Hin as [->|Hin]; [|auto].
        right. eauto.
      * right. eauto.
Qed.

(** What [Next] returns was queued and not yet seen; it is seen from
    then on, and what is queued afterwards was queued before or is one
    of its parents, read from the store. *)
Lemma next_from_Yield (store : gmap string Commit) (sn : gset string)
    (h : list Commit) (c : Commit) (w' : commitIteratorByCTime) :
  next_from store sn h = Yield c w' ->
  In c h /\ (Hash c ∉ sn) /\ seen w' = {[Hash c]} ∪ sn
  /\ forall x, In x (heap w') ->
       In x h \/ exists p, In p (ParentHashes c) /\ store !! p = Some x.
Proof.
  induction h as [|y h IH]; simpl; [discriminate|].
  destruct (decide (Hash y ∈ sn)) as [Hin|Hnin].
  - intros Hn. destruct (IH Hn) as (H1 & H2 & H3 & H4).
    split; [auto|]. split; [exact H2|]. split; [exact H3|].
    intros x Hx. destruct (H4 x Hx); auto.
  - destruct (push_parents store ({[Hash y]} ∪ sn) (ParentHashes y) h)
      as [h'|e] eqn:Hpp; [|discriminate].
    intros [= <- <-]. split; [auto|]. split; [exact Hnin|].
    split; [reflexivity|]. cbn [heap]. intros x Hx.
    destruct (push_parents_In _ _ _ _ _ Hpp x Hx); auto.
Qed.

(** The loop never collects a hash twice. *)
Lemma ForEach_NoDup (ctx : Context) (depth : Z) (store : gmap string Commit)
    (fuel : nat) :
  forall (w : commitIteratorByCTime) (s s' : walk_state) (err : option goerror),
    ForEach fuel store w (ancestry_callback ctx depth) s = Some (s', err) ->
    NoDup (commits s) ->
    (forall x, In x (commits s) -> x ∈ seen w) ->
    NoDup (commits s').
Proof.
  induction fuel as [|fuel IH]; intros w s s' err Hrun Hnd Hseen; [discriminate|].
  cbn [ForEach] in Hrun. unfold Next in Hrun.
  destruct (next_from store (seen w) (heap w)) as [c w'| |e] eqn:Hnext.
  - apply next_from_Yield in Hnext. destruct Hnext as (_ & Hnin & Hseen' & _).
    unfold ancestry_callback in Hrun.
    destruct (Done ctx (polls s)).
    { destruct (goerror_eqb _ _); injection Hrun as <- <-; exact Hnd. }
    destruct (Z.of_nat (length (commits s)) >=? depth).
    { cbn in Hrun. injection Hrun as <- <-. exact Hnd. }
    eapply IH; [exact Hrun | |]; cbn [commits].
    + apply NoDup_app. split; [exact Hnd|]. split; [|apply NoDup_singleton].
      intros x Hx Hx'. apply list_elem_of_In in Hx.
      apply list_elem_of_singleton in Hx'. subst x. apply Hnin, Hseen, Hx.
    + intros x Hx. rewrite Hseen'. apply in_app_or in Hx.
      destruct Hx as [Hx|[<-|[]]].
      * apply elem_of_union_r, Hseen, Hx.
      * apply elem_of_union_l, elem_of_singleton. reflexivity.
  - injection Hrun as <- <-. exact Hnd.
  - injection Hrun as <- <-. exact Hnd.
Qed.

(** The loop started on a commit collects its hash first, or ends with
    an error and nothing collected. *)
Lemma ForEach_first (ctx : Context) (depth : Z) (store : gmap string Commit)
    (n : nat) (c : Commit) (s' : walk_state) (err : option goerror) :
  0 < depth ->
  ForEach (S n) store (NewCommitIterCTime c) (ancestry_callback ctx depth)
    {| commits := []; polls := O |} = Some (s', err) ->
  (commits s' = [] /\ (err = Some ErrObjectNotFound \/ err = Some (CtxErr ctx)))
  \/ exists tl, commits s' = Hash c :: tl.
Proof.
  intros Hpos. cbn [ForEach]. unfold Next, NewCommitIterCTime.
  cbn [seen heap next_from].
  destruct (decide (Hash c ∈ (∅ : gset string))) as [Hin|_];
    [exfalso; revert Hin; apply not_elem_of_empty|].
  destruct (push_parents store _ (ParentHashes c) []) as [h'|e] eqn:Hpp.
  - unfold ancestry_callback. cbn [polls commits length].
    destruct (Done ctx 0) eqn:Hdone.
    { rewrite CtxErr_not_stop. intros [= <- <-]. left. auto. }
    destruct (Z.geb_spec (Z.of_nat 0) depth) as [Hge|_]; [simpl in Hge; lia|].
    intros Hrun. apply ForEach_ancestry_inv in Hrun.
    + destruct Hrun as (_ & (tl & Htl) & _). right. exists tl. exact Htl.
    + simpl. lia.
    + reflexivity.
    + simpl. intros k Hk. replace k with O by lia. exact Hdone.
  - apply push_parents_error in Hpp. subst e. intros [= <- <-]. left. auto.
Qed.

(** A sequence the walk returns starts with the hash of HEAD's commit. *)
Lemma GetCommitAncestry_Ok_head
    (repo : GoGitRepository) (ctx : Context) (depth : Z) (l : list string) :
  GetCommitAncestry repo ctx depth = Some (Ok l) ->
  exists head c tl,
    HEAD repo = Some head
    /\ objects repo !! RefHash head = Some c
    /\ l = Hash c :: tl.
Proof.
  unfold GetCommitAncestry, Head, CommitObject. cbv zeta.
  destruct (HEAD repo) as [head|] eqn:Hhead; [|discriminate].
  destruct (objects repo !! RefHash head) as [c|] eqn:Hc; [|discriminate].
  destruct (ForEach _ _ _ _ _) as [[s' err]|] eqn:Hrun; [|discriminate].
  apply ForEach_first in Hrun; [|apply normalize_depth_pos].
  intros Hres. exists head, c.
  destruct Hrun as [[Hnil [-> | ->]] | [tl Htl]].
  - cbn in Hres. discriminate.
  - rewrite CtxErr_Is_not_stop in Hres. cbn in Hres. discriminate.
  - exists tl. split; [reflexivity|]. split; [exact Hc|].
    rewrite Htl in Hres. destruct err as [e|].
    + destruct (negb (Is e ErrStop)); [discriminate|].
      cbn in Hres. congruence.
    + cbn in Hres. congruence.
Qed.

(** X1. A sequence the walk returns starts with the hash of HEAD's
    commit and has at least one and at most [depth] entries (25 for a
    depth of zero or less). *)
Theorem GetCommitAncestry_head_first_bounded
    (repo : GoGitRepository) (ctx : Context) (depth : Z) (l : list string) :
  GetCommitAncestry repo ctx depth = Some (Ok l) ->
  exists head c tl,
    HEAD repo = Some head
    /\ objects repo !! RefHash head = Some c
    /\ l = Hash c :: tl
    /\ (1 <= length l)%nat
    /\ Z.of_nat (length l) <= (if depth <=? 0 then 25 else depth).
Proof.
  intros Hl.
  pose proof (GetCommitAncestry_Ok_inv _ _ _ _ Hl) as (_ & Hlen & _).
  destruct (GetCommitAncestry_Ok_head _ _ _ _ Hl) as (head & c & tl & Hh & Hc & ->).
  exists head, c, tl. split; [exact Hh|]. split; [exact Hc|].
  split; [reflexivity|]. split; [simpl; lia | exact Hlen].
Qed.

Lemma GetCommitAncestry_head_first_bounded_witness :
  exists head c tl,
    HEAD merged_repo = Some head
    /\ objects merged_repo !! RefHash head = Some c
    /\ ["f2"; "merge"; "m2"] = Hash c :: tl
    /\ (1 <= length ["f2"; "merge"; "m2"])%nat
    /\ Z.of_nat (length ["f2"; "merge"; "m2"]) <= 3.
Proof.
  apply (GetCommitAncestry_head_first_bounded merged_repo Background 3).
  vm_compute. reflexivity.
Defined.

(** X2. The walk fails for three reasons only: HEAD does not resolve,
    an object is missing from the store, or the context is done.
    [ErrEmptyAncestry] is never returned. *)
Theorem GetCommitAncestry_error_causes
    (repo : GoGitRepository) (ctx : Context) (depth : Z) (e : goerror) :
  GetCommitAncestry repo ctx depth = Some (Err e) ->
  e <> ErrEmptyAncestry
  /\ ((HEAD repo = None
       /\ e = Errorf "failed to get HEAD: reference not found"
                    [ErrReferenceNotFound])
      \/ e = Errorf "failed to get commit object for HEAD: object not found"
                   [ErrObjectNotFound]
      \/ e = Errorf "failed to walk commit history: object not found"
                   [ErrObjectNotFound]
      \/ e = Errorf ("failed to walk commit history: " ++ Error (CtxErr ctx))
                   [CtxErr ctx]).
Proof.
  unfold GetCommitAncestry, Head, CommitObject. cbv zeta.
  destruct (HEAD repo) as [head|].
  2:{ intros [= <-]. split; [discriminate|]. left. auto. }
  destruct (objects repo !! RefHash head) as [c|].
  2:{ intros [= <-]. split; [discriminate|]. right. left. reflexivity. }
  destruct (ForEach _ _ _ _ _) as [[s' err]|] eqn:Hrun; [|discriminate].
  pose proof Hrun as Hfirst.
  apply ForEach_first in Hfirst; [|apply normalize_depth_pos].
  apply ForEach_ancestry_inv in Hrun;
    [| pose proof (normalize_depth_pos depth); simpl; lia | reflexivity
     | simpl; intros; lia].
  destruct Hrun as (_ & _ & _ & Herr).
  destruct err as [e'|].
  - destruct (Herr e' eq_refl) as [-> | ->].
    + cbn. intros [= <-]. split; [discriminate|]. right. right. left. reflexivity.
    + rewrite CtxErr_Is_not_stop. cbn. intros [= <-].
      split; [discriminate|]. right. right. right. reflexivity.
  - destruct Hfirst as [[_ [? | ?]] | [tl Htl]]; [discriminate | discriminate |].
    rewrite Htl. cbn. discriminate.
Qed.

Lemma GetCommitAncestry_error_causes_witness :
  Errorf "failed to walk commit history: context canceled" [Canceled]
  <> ErrEmptyAncestry.
Proof.
  apply (GetCommitAncestry_error_causes linear_repo AlreadyCanceled 10).
  vm_compute. reflexivity.
Defined.

(** X3. No commit is listed twice, whatever the shape of the history. *)
Theorem GetCommitAncestry_NoDup
    (repo : GoGitRepository) (ctx : Context) (depth : Z) (l : list string) :
  GetCommitAncestry repo ctx depth = Some (Ok l) -> NoDup l.
Proof.
  unfold GetCommitAncestry, Head, CommitObject. cbv zeta.
  destruct (HEAD repo) as [head|]; [|discriminate].
  destruct (objects repo !! RefHash head) as [c|]; [|discriminate].
  destruct (ForEach _ _ _ _ _) as [[s' err]|] eqn:Hrun; [|discriminate].
  apply ForEach_NoDup in Hrun; [|constructor | intros x []].
  destruct err as [e|].
  - destruct (negb (Is e ErrStop)); [discriminate|].
    destruct (length (commits s') =? 0)%nat; [discriminate|].
    intros [= <-]. exact Hrun.
  - destruct (length (commits s') =? 0)%nat; [discriminate|].
    intros [= <-]. exact Hrun.
Qed.

Lemma GetCommitAncestry_NoDup_witness :
  NoDup ["f2"; "merge"; "m2"; "m1"; "f1"; "init"].
Proof.
  apply (GetCommitAncestry_NoDup merged_repo Background 20).
  vm_compute. reflexivity.
Defined.

(** Whatever is queued or collected descends from the commit the walk
    started at. *)
Lemma ForEach_reachable (ctx : Context) (depth : Z) (store : gmap string Commit)
    (h0 : string) (fuel : nat) :
  forall (w : commitIteratorByCTime) (s s' : walk_state) (err : option goerror),
    ForEach fuel store w (ancestry_callback ctx depth) s = Some (s', err) ->
    (forall x, In x (heap w) ->
       exists k, store !! k = Some x /\ reachable store h0 k) ->
    (forall y, In y (commits s) ->
       exists k c, store !! k = Some c /\ Hash c = y /\ reachable store h0 k) ->
    forall y, In y (commits s') ->
      exists k c, store !! k = Some c /\ Hash c = y /\ reachable store h0 k.
Proof.
  induction fuel as [|fuel IH]; intros w s s' err Hrun Hheap Hcommits;
    [discriminate|].
  cbn [ForEach] in Hrun. unfold Next in Hrun.
  destruct (next_from store (seen w) (heap w)) as [c w'| |e] eqn:Hnext.
  - apply next_from_Yield in Hnext. destruct Hnext as (Hin & _ & _ & Hheap').
    destruct (Hheap c Hin) as (k & Hk & Hreach).
    unfold ancestry_callback in Hrun.
    destruct (Done ctx (polls s)).
    { destruct (goerror_eqb _ _); injection Hrun as <- <-; exact Hcommits. }
    destruct (Z.of_nat (length (commits s)) >=? depth).
    { cbn in Hrun. injection Hrun as <- <-. exact Hcommits. }
    eapply IH; [exact Hrun | |]; cbn [commits].
    + intros x Hx. destruct (Hheap' x Hx) as [Hold|(p & Hp & Hs)]; [auto|].
      exists p. split; [exact Hs|]. eapply reach_parent; eassumption.
    + intros y Hy. apply in_app_or in Hy. destruct Hy as [Hy|[<-|[]]]; [auto|].
      exists k, c. auto.
  - injection Hrun as <- <-. exact Hcommits.
  - injection Hrun as <- <-. exact Hcommits.
Qed.

(** X4. In a store that keeps every commit under its own hash, every
    commit the walk lists is HEAD's commit or one of its ancestors. *)
Theorem GetCommitAncestry_reachable
    (repo : GoGitRepository) (ctx : Context) (depth : Z)
    (head : Reference) (l : list string) :
  well_keyed (objects repo) ->
  HEAD repo = Some head ->
  GetCommitAncestry repo ctx depth = Some (Ok l) ->
  forall y, In y l -> reachable (objects repo) (RefHash head) y.
Proof.
  intros Hkey Hhead. unfold GetCommitAncestry, Head, CommitObject. cbv zeta.
  rewrite Hhead.
  destruct (objects repo !! RefHash head) as [c|] eqn:Hc; [|discriminate].
  destruct (ForEach _ _ _ _ _) as [[s' err]|] eqn:Hrun; [|discriminate].
  intros Hres y Hy.
  assert (Hl : commits s' = l).
  { destruct err as [e|].
    - destruct (negb (Is e ErrStop)); [discriminate|].
      destruct (length (commits s') =? 0)%nat; congruence.
    - destruct (length (commits s') =? 0)%nat; congruence. }
  subst l.
  destruct (ForEach_reachable _ _ _ (RefHash head) _ _ _ _ _ Hrun) with (y := y)
    as (k & c' & Hk & Hhash & Hreach).
  - cbn. intros x [<-|[]]. exists (RefHash head). split; [exact Hc | constructor].
  - intros ? [].
  - exact Hy.
  - rewrite <- Hhash, (Hkey _ _ Hk). exact Hreach.
Qed.

Lemma push_parents_present (store : gmap string Commit) (hs : list string) :
  (forall p, In p hs -> is_Some (store !! p)) ->
  forall (sn : gset string) (h : list Commit),
    exists h', push_parents store sn hs h = Ok h'.
Proof.
  induction hs as [|p hs IH]; simpl; intros Hall sn h; [eauto|].
  destruct (decide (p ∈ sn)); [apply IH; auto|].
  destruct (Hall p (or_introl eq_refl)) as [pc ->]. apply IH. auto.
Qed.

Lemma next_from_closed (store : gmap string Commit) (sn : gset string)
    (h : list Commit) (e : goerror) :
  parent_closed store ->
  (forall x, In x h -> exists k, store !! k = Some x) ->
  next_from store sn h <> NextErr e.
Proof.
  intros Hclosed. induction h as [|y h IH]; simpl; intros Hheap; [discriminate|].
  destruct (decide (Hash y ∈ sn)); [apply IH; auto|].
  destruct (Hheap y (or_introl eq_refl)) as (k & Hk).
  destruct (push_parents_present store (ParentHashes y)
              (fun p Hp => Hclosed _ _ _ Hk Hp) ({[Hash y]} ∪ sn) h) as [h' ->].
  discriminate.
Qed.

(** Without cancellation and with every parent in the store, the loop
    ends without error. *)
Lemma ForEach_closed (depth : Z) (store : gmap string Commit) (fuel : nat) :
  parent_closed store ->
  forall (w : commitIteratorByCTime) (s s' : walk_state) (err : option goerror),
    ForEach fuel store w (ancestry_callback Background depth) s = Some (s', err) ->
    (forall x, In x (heap w) -> exists k, store !! k = Some x) ->
    err = None.
Proof.
  intros Hclosed. induction fuel as [|fuel IH]; intros w s s' err Hrun Hheap;
    [discriminate|].
  cbn [ForEach] in Hrun. unfold Next in Hrun.
  destruct (next_from store (seen w) (heap w)) as [c w'| |e] eqn:Hnext.
  - apply next_from_Yield in Hnext. destruct Hnext as (Hin & _ & _ & Hheap').
    destruct (Hheap c Hin) as (k & Hk).
    unfold ancestry_callback in Hrun. cbn [Background Done] in Hrun.
    destruct (Z.of_nat (length (commits s)) >=? depth).
    { simpl in Hrun. congruence. }
    eapply IH; [exact Hrun|].
    intros x Hx. destruct (Hheap' x Hx) as [Hold|(p & Hp & Hs)]; [auto|]. eauto.
  - congruence.
  - exfalso. eapply next_from_closed; eauto.
Qed.

(** X5. When HEAD resolves to a stored commit and every parent named in
    the store is stored too, the walk without cancellation succeeds, at
    any depth. *)
Theorem GetCommitAncestry_succeeds_on_complete_store
    (repo : GoGitRepository) (head : Reference) (c : Commit) (depth : Z) :
  parent_closed (objects repo) ->
  HEAD repo = Some head ->
  objects repo !! RefHash head = Some c ->
  exists l, GetCommitAncestry repo Background depth = Some (Ok l).
Proof.
  intros Hclosed Hhead Hc.
  destruct (GetCommitAncestry_total repo Background depth) as [r Hr].
  destruct r as [l|e]; [eauto|]. exfalso. revert Hr.
  unfold GetCommitAncestry, Head, CommitObject. cbv zeta. rewrite Hhead, Hc.
  destruct (ForEach _ _ _ _ _) as [[s' err]|] eqn:Hrun; [|discriminate].
  pose proof Hrun as Hfirst.
  apply ForEach_first in Hfirst; [|apply normalize_depth_pos].
  apply ForEach_closed in Hrun; [|exact Hclosed|].
  2:{ cbn. intros x [<-|[]]. eauto. }
  subst err.
  destruct Hfirst as [[_ [? | ?]] | [tl Htl]]; [discriminate | discriminate |].
  rewrite Htl. cbn. discriminate.
Qed.

(** Under the same iterator and without cancellation, a loop with a
    smaller depth collects the first commits of a loop with a larger
    one. *)
Lemma ForEach_depth_prefix (d1 d2 : Z) (store : gmap string Commit)
    (fuel1 : nat) :
  d1 <= d2 ->
  forall (fuel2 : nat) (w : commitIteratorByCTime)
         (s1 s2 s1' s2' : walk_state) (e1 e2 : option goerror),
    commits s1 = commits s2 ->
    Z.of_nat (length (commits s1)) <= d1 ->
    polls s2 = length (commits s2) ->
    ForEach fuel1 store w (ancestry_callback Background d1) s1 = Some (s1', e1) ->
    ForEach fuel2 store w (ancestry_callback Background d2) s2 = Some (s2', None) ->
    commits s1' = take (Z.to_nat d1) (commits s2').
Proof.
  intros Hd. induction fuel1 as [|fuel1 IH];
    intros fuel2 w s1 s2 s1' s2' e1 e2 Hs Hlen Hpolls Hrun1 Hrun2; [discriminate|].
  destruct fuel2 as [|fuel2]; [discriminate|].
  cbn [ForEach] in Hrun1, Hrun2.
  destruct (Next store w) as [c w'| |e].
  - unfold ancestry_callback in Hrun1, Hrun2. cbn [Background Done] in Hrun1, Hrun2.
    destruct (Z.geb_spec (Z.of_nat (length (commits s1))) d1) as [Hge1|Hlt1].
    + simpl in Hrun1. injection Hrun1 as <- <-. cbn [commits].
      assert (Hpre : exists tl, commits s2' = (commits s2 ++ tl)%list).
      { destruct (Z.of_nat (length (commits s2)) >=? d2) eqn:Hge2.
        - simpl in Hrun2. injection Hrun2 as <-. exists []. cbn.
          symmetry. apply app_nil_r.
        - rewrite Z.geb_leb in Hge2. apply Z.leb_gt in Hge2.
          apply (ForEach_ancestry_inv Background d2) in Hrun2.
          + destruct Hrun2 as (_ & (tl & Htl) & _). cbn [commits] in Htl.
            exists (Hash c :: tl). rewrite Htl, <- app_assoc. reflexivity.
          + cbn. rewrite length_app. cbn. lia.
          + cbn. rewrite length_app. cbn. lia.
          + reflexivity. }
      destruct Hpre as [tl ->]. rewrite <- Hs.
      rewrite take_app_length' by lia. reflexivity.
    + rewrite <- Hs in Hrun2.
      destruct (Z.geb_spec (Z.of_nat (length (commits s1))) d2) as [Hge2|Hlt2];
        [lia|].
      eapply (IH fuel2 w' _ _ s1' s2' e1 e2); [| | | exact Hrun1 | exact Hrun2];
        cbn [commits polls].
      * reflexivity.
      * rewrite length_app. cbn. lia.
      * rewrite length_app. cbn. rewrite Hpolls, <- Hs. lia.
  - injection Hrun1 as <- <-. injection Hrun2 as <-. rewrite <- Hs.
    symmetry. apply take_ge. lia.
  - discriminate.
Qed.

(** X6. A larger depth only adds older commits: without cancellation,
    the sequence for depth [d1] is the first [d1] commits of the
    sequence for any depth [d2] above it. *)
Theorem GetCommitAncestry_depth_prefix
    (repo : GoGitRepository) (d1 d2 : Z) (l1 l2 : list string) :
  0 < d1 <= d2 ->
  GetCommitAncestry repo Background d1 = Some (Ok l1) ->
  GetCommitAncestry repo Background d2 = Some (Ok l2) ->
  l1 = take (Z.to_nat d1) l2.
Proof.
  intros [Hpos Hle].
  assert (Hn1 : normalize_depth d1 = d1).
  { unfold normalize_depth. destruct (Z.leb_spec d1 0); [lia | reflexivity]. }
  assert (Hn2 : normalize_depth d2 = d2).
  { unfold normalize_depth. destruct (Z.leb_spec d2 0); [lia | reflexivity]. }
  unfold GetCommitAncestry, Head, CommitObject. cbv zeta. rewrite Hn1, Hn2.
  destruct (HEAD repo) as [head|]; [|discriminate].
  destruct (objects repo !! RefHash head) as [c|]; [|discriminate].
  destruct (ForEach _ _ _ (ancestry_callback Background d1) _)
    as [[s1' e1]|] eqn:Hrun1; [|discriminate].
  destruct (ForEach _ _ _ (ancestry_callback Background d2) _)
    as [[s2' e2]|] eqn:Hrun2; [|discriminate].
  intros H1 H2.
  assert (He2 : e2 = None /\ commits s2' = l2).
  { pose proof Hrun2 as Hinv. apply ForEach_ancestry_inv in Hinv;
      [| simpl; lia | reflexivity | simpl; intros; lia].
    destruct Hinv as (_ & _ & _ & Herr). destruct e2 as [e|].
    - destruct (Herr e eq_refl) as [-> | ->]; cbn in H2; discriminate.
    - destruct (length (commits s2') =? 0)%nat; [discriminate|].
      split; congruence. }
  destruct He2 as [-> <-].
  assert (Hl1 : commits s1' = l1).
  { destruct e1 as [e|].
    - destruct (negb (Is e ErrStop)); [discriminate|].
      destruct (length (commits s1') =? 0)%nat; congruence.
    - destruct (length (commits s1') =? 0)%nat; congruence. }
  subst l1.
  eapply (ForEach_depth_prefix d1 d2 _ _ Hle _ _ _ _ _ _ e1 None);
    [| | | exact Hrun1 | exact Hrun2]; cbn; [reflexivity | lia | reflexivity].
Qed.

(** The stores of the concrete histories. *)
Lemma store_of_well_keyed (cs : list Commit) : well_keyed (store_of cs).
Proof.
  unfold well_keyed, store_of. induction cs as [|c0 cs IH]; cbn; intros h c.
  - rewrite lookup_empty. discriminate.
  - intros Hlk. apply lookup_insert_Some in Hlk.
    destruct Hlk as [[<- <-] | [_ Hlk]]; [reflexivity | eauto].
Qed.

Ltac store_cases H :=
  unfold store_of in H; cbn [map list_to_map foldr Hash mk] in H;
  repeat (apply lookup_insert_Some in H; destruct H as [[<- <-] | [_ H]]);
  [.. | rewrite lookup_empty in H; discriminate].

Lemma linear_repo_parent_closed : parent_closed (objects linear_repo).
Proof.
  intros k c p Hk Hp. cbn [objects linear_repo] in Hk.
  store_cases Hk; cbn in Hp; repeat (destruct Hp as [<-|Hp]); try contradiction;
    eexists; vm_compute; reflexivity.
Qed.

Lemma merged_repo_parent_closed : parent_closed (objects merged_repo).
Proof.
  intros k c p Hk Hp. cbn [objects merged_repo] in Hk.
  store_cases Hk; cbn in Hp; repeat (destruct Hp as [<-|Hp]); try contradiction;
    eexists; vm_compute; reflexivity.
Qed.

Lemma linear_repo_merge_free : merge_free (objects linear_repo).
Proof.
  intros h c Hk. cbn [objects linear_repo] in Hk.
  store_cases Hk; cbn [ParentHashes mk When];
    first [ left; reflexivity
          | right; eexists _, _; split; [reflexivity|];
            split; [vm_compute; reflexivity | cbn; lia] ].
Qed.

Lemma GetCommitAncestry_reachable_witness :
  reachable (objects merged_repo) "f2" "m1".
Proof.
  apply (GetCommitAncestry_reachable merged_repo Background 20
           {| RefHash := "f2"; RefBranch := Some "main" |}
           ["f2"; "merge"; "m2"; "m1"; "f1"; "init"]).
  - apply store_of_well_keyed.
  - reflexivity.
  - vm_compute. reflexivity.
  - simpl. tauto.
Defined.

Lemma GetCommitAncestry_succeeds_on_complete_store_witness :
  exists l, GetCommitAncestry merged_repo Background 4 = Some (Ok l).
Proof.
  apply (GetCommitAncestry_succeeds_on_complete_store merged_repo
           {| RefHash := "f2"; RefBranch := Some "main" |}
           (mk "f2" ["merge"] 6) 4).
  - apply merged_repo_parent_closed.
  - reflexivity.
  - vm_compute. reflexivity.
Defined.

Lemma GetCommitAncestry_depth_prefix_witness :
  ["f2"; "merge"; "m2"]
  = take (Z.to_nat 3) ["f2"; "merge"; "m2"; "m1"; "f1"; "init"].
Proof.
  apply (GetCommitAncestry_depth_prefix merged_repo 3 20).
  - lia.
  - vm_compute. reflexivity.
  - vm_compute. reflexivity.
Defined.

Lemma GetCommitAncestry_merge_free_witness :
  GetCommitAncestry linear_repo Background 4
  = Some (Ok ["c6"; "c5"; "c4"; "c3"]).
Proof.
  rewrite (GetCommitAncestry_merge_free linear_repo
             {| RefHash := "c6"; RefBranch := Some "main" |}
             (mk "c6" ["c5"] 6) 4).
  - vm_compute. reflexivity.
  - apply store_of_well_keyed.
  - apply linear_repo_merge_free.
  - reflexivity.
  - vm_compute. reflexivity.
Defined.

End AncestryFacts.

Section ContextFacts.
Import domain git SpecNotions MoreNotions Fixture.

(** X8. Without an [origin] remote, or with one that has no URL, a
    checkout whose HEAD resolves gives an error that is
    [ErrNoRemoteOrigin] and not [ErrInvalidRemoteURL]; when HEAD does not
    resolve, that failure comes first and is neither. *)
Theorem GetGitContext_no_origin (repo : GoGitRepository) :
  (forall head,
     HEAD repo = Some head ->
     remotes repo !! "origin" = None \/ remotes repo !! "origin" = Some [] ->
     exists e, GetGitContext repo = Err e
               /\ Is e ErrNoRemoteOrigin = true
               /\ Is e ErrInvalidRemoteURL = false)
  /\ (HEAD repo = None ->
      exists e, GetGitContext repo = Err e
                /\ Is e ErrNoRemoteOrigin = false
                /\ Is e ErrInvalidRemoteURL = false).
Proof.
  unfold GetGitContext, Head, Remote. split.
  - intros head -> [-> | ->]; eexists; (split; [reflexivity|]); split; reflexivity.
  - intros ->. eexists. split; [reflexivity|]. split; reflexivity.
Qed.

Lemma GetGitContext_no_origin_witness :
  exists e,
    GetGitContext {| HEAD := Some {| RefHash := "c1"; RefBranch := None |};
                     objects := store_of [mk "c1" [] 1];
                     remotes := ∅ |} = Err e
    /\ Is e ErrNoRemoteOrigin = true
    /\ Is e ErrInvalidRemoteURL = false.
Proof.
  eapply (GetGitContext_no_origin
            {| HEAD := Some {| RefHash := "c1"; RefBranch := None |};
               objects := store_of [mk "c1" [] 1];
               remotes := ∅ |}).
  - reflexivity.
  - left. reflexivity.
Defined.

Lemma strip_dot_git_segment (s : list ascii) :
  seg slash s -> seg slash (strip_dot_git s).
Proof.
  intros [Hne Hall]. split.
  - destruct s as [|c s]; [congruence|]. cbn [strip_dot_git].
    destruct (bool_decide (s = dotgit)); discriminate.
  - destruct (strip_dot_git_prefix s) as (Htake & _). rewrite <- Htake.
    apply Forall_take. exact Hall.
Qed.

Lemma RemoteURL_segments (u owner name : string) :
  RemoteURL u owner name -> segment slash owner /\ segment slash name.
Proof.
  assert (Hname : forall np, segment slash np -> segment slash (without_dot_git np)).
  { intros np Hnp. apply seg_segment, strip_dot_git_segment, segment_seg, Hnp. }
  intros [secure host o np _ Ho Hn | host o np _ Ho Hn]; auto.
Qed.

(** X9. A git context that is returned has HEAD's hash, an empty branch
    whenever it is marked detached, and a repository name of the form
    [owner/name] with exactly one [/]: neither part is empty and
    neither holds a [/]. *)
Theorem GetGitContext_Ok_shape (repo : GoGitRepository) (g : GitContext) :
  GetGitContext repo = Ok g ->
  exists head owner name,
    HEAD repo = Some head
    /\ HeadSHA g = RefHash head
    /\ (IsDetached g = true -> Branch g = "")
    /\ Repository g = owner ++ "/" ++ name
    /\ segment slash owner /\ segment slash name.
Proof.
  unfold GetGitContext, Head, Remote.
  destruct (HEAD repo) as [head|]; [|discriminate].
  destruct (remotes repo !! "origin") as [[|url urls]|]; try discriminate.
  rewrite parseRepoFromURL_shape.
  destruct (remote_shape (TrimSpace url)) as [[owner name]|] eqn:E; [|discriminate].
  intros [= <-]. apply remote_shape_iff, RemoteURL_segments in E.
  exists head, owner, name. cbn.
  split; [reflexivity|]. split; [reflexivity|]. split; [|tauto].
  destruct (RefBranch head); [discriminate | reflexivity].
Qed.

Lemma GetGitContext_Ok_shape_witness :
  exists head owner name,
    HEAD linear_repo = Some head
    /\ "c6" = RefHash head
    /\ (false = true -> "main" = "")
    /\ "TestOrg/test-repo" = owner ++ "/" ++ name
    /\ segment slash owner /\ segment slash name.
Proof.
  apply (GetGitContext_Ok_shape linear_repo
           {| HeadSHA := "c6"; Branch := "main";
              Repository := "TestOrg/test-repo"; IsDetached := false |}).
  vm_compute. reflexivity.
Defined.

End ContextFacts.

Section ResolveFacts.
Import domain usecases MoreNotions Fixture.

(** Wrapping one error with [%w] keeps what [errors.Is] says about
    sentinels. *)
Lemma Is_wrap_one (msg : string) (e t : goerror) :
  sentinel t -> Is (Errorf msg [e]) t = Is e t.
Proof. intros [m ->]. simpl. apply orb_false_r. Qed.

(** X10. [Resolve] succeeds exactly when the git context is read, the
    walk gives a non-empty sequence and the finder gives a slip without
    error; the output then carries the slip's correlation id, the
    finder's matched commit, the context's repository and branch, and
    ["ancestry"]. *)
Theorem Resolve_success_iff (r : SlipResolver) (input : ResolveInput)
    (out : ResolveOutput) :
  Resolve r input = Returns (Ok out)
  <-> exists gitCtx commits slip matched,
        GetGitContext (gitRepo r) = Ok gitCtx
        /\ GetCommitAncestry (gitRepo r) (normalized input) = Ok commits
        /\ commits <> []
        /\ FindByCommits (finder r) (Repository gitCtx) commits
           = (Some slip, matched, None)
        /\ out = {| CorrelationID := SlipCorrelationID slip;
                    MatchedCommit := matched;
                    OutRepository := Repository gitCtx;
                    OutBranch := Branch gitCtx;
                    ResolvedBy := "ancestry" |}.
Proof.
  unfold Resolve, normalized. split.
  - destruct (GetGitContext (gitRepo r)) as [gitCtx|e]; [|discriminate].
    destruct (GetCommitAncestry (gitRepo r) _) as [commits|e]; [|discriminate].
    destruct commits as [|c cs]; [discriminate|].
    destruct (FindByCommits (finder r) (Repository gitCtx) (c :: cs))
      as [[[slip|] matched] [e|]] eqn:Hfind; try discriminate.
    intros [= <-]. exists gitCtx, (c :: cs), slip, matched.
    split; [reflexivity|]. split; [reflexivity|]. split; [discriminate|].
    split; [exact Hfind | reflexivity].
  - intros (gitCtx & commits & slip & matched & -> & -> & Hne & Hfind & ->).
    destruct commits as [|c cs]; [congruence|]. rewrite Hfind. reflexivity.
Qed.

Lemma Resolve_success_iff_witness :
  Resolve {| gitRepo := gitRepo no_match_resolver;
             finder := {| FindByCommits := fun _ _ =>
                            (Some {| SlipCorrelationID := "corr-1" |},
                             "def456ghi789", None) |} |}
    {| Depth := 10 |}
  = Returns (Ok {| CorrelationID := "corr-1";
                   MatchedCommit := "def456ghi789";
                   OutRepository := "MyCarrier-DevOps/test-repo";
                   OutBranch := "feature/test";
                   ResolvedBy := "ancestry" |}).
Proof.
  apply Resolve_success_iff.
  eexists _, _, _, _.
  split; [reflexivity|]. split; [reflexivity|]. split; [discriminate|].
  split; reflexivity.
Defined.

(** X11. Every error [Resolve] returns comes from one stage, in the
    order context, walk, finder: it wraps the error of the first stage
    that failed, and is under [errors.Is] whatever sentinel that error
    is; or the finder had no match, and it is [ErrNoAncestorSlip]. *)
Theorem Resolve_error_kinds (r : SlipResolver) (input : ResolveInput)
    (e' : goerror) :
  Resolve r input = Returns (Err e') ->
  (exists e,
     (GetGitContext (gitRepo r) = Err e
      \/ (exists gitCtx, GetGitContext (gitRepo r) = Ok gitCtx
                         /\ GetCommitAncestry (gitRepo r) (normalized input) = Err e)
      \/ (exists gitCtx commits slip matched,
            GetGitContext (gitRepo r) = Ok gitCtx
            /\ GetCommitAncestry (gitRepo r) (normalized input) = Ok commits
            /\ FindByCommits (finder r) (Repository gitCtx) commits
               = (slip, matched, Some e)))
     /\ forall t, sentinel t -> Is e' t = Is e t)
  \/ (exists gitCtx commits matched,
        GetGitContext (gitRepo r) = Ok gitCtx
        /\ GetCommitAncestry (gitRepo r) (normalized input) = Ok commits
        /\ FindByCommits (finder r) (Repository gitCtx) commits
           = (None, matched, None)
        /\ Is e' ErrNoAncestorSlip = true).
Proof.
  unfold Resolve, normalized.
  destruct (GetGitContext (gitRepo r)) as [gitCtx|e].
  2:{ intros [= <-]. left. exists e. split; [auto|]. intros t. apply Is_wrap_one. }
  destruct (GetCommitAncestry (gitRepo r) _) as [commits|e].
  2:{ intros [= <-]. left. exists e. split; [eauto|]. intros t. apply Is_wrap_one. }
  destruct commits as [|c cs]; [discriminate|].
  destruct (FindByCommits (finder r) (Repository gitCtx) (c :: cs))
    as [[[slip|] matched] [e|]] eqn:Hfind; try discriminate.
  - intros [= <-]. left. exists e. split; [|intros t; apply Is_wrap_one].
    right. right. exists gitCtx, (c :: cs), (Some slip), matched. auto.
  - intros [= <-]. left. exists e. split; [|intros t; apply Is_wrap_one].
    right. right. exists gitCtx, (c :: cs), None, matched. auto.
  - intros [= <-]. right. exists gitCtx, (c :: cs), matched.
    split; [reflexivity|]. split; [reflexivity|]. split; [exact Hfind|].
    apply Is_wraps_sentinel.
Qed.

Lemma Resolve_error_kinds_witness :
  (exists e,
     (GetGitContext (gitRepo no_match_resolver) = Err e
      \/ (exists gitCtx, GetGitContext (gitRepo no_match_resolver) = Ok gitCtx
                         /\ GetCommitAncestry (gitRepo no_match_resolver)
                              (normalized {| Depth := 10 |}) = Err e)
      \/ (exists gitCtx commits slip matched,
            GetGitContext (gitRepo no_match_resolver) = Ok gitCtx
            /\ GetCommitAncestry (gitRepo no_match_resolver)
                 (normalized {| Depth := 10 |}) = Ok commits
            /\ FindByCommits (finder no_match_resolver) (Repository gitCtx) commits
               = (slip, matched, Some e)))
     /\ forall t, sentinel t
                  -> Is (Errorf
                           "no slip found in commit ancestry: searched 3 commits from abc123def456"
                           [ErrNoAncestorSlip]) t = Is e t)
  \/ (exists gitCtx commits matched,
        GetGitContext (gitRepo no_match_resolver) = Ok gitCtx
        /\ GetCommitAncestry (gitRepo no_match_resolver)
             (normalized {| Depth := 10 |}) = Ok commits
        /\ FindByCommits (finder no_match_resolver) (Repository gitCtx) commits
           = (None, matched, None)
        /\ Is (Errorf
                 "no slip found in commit ancestry: searched 3 commits from abc123def456"
                 [ErrNoAncestorSlip]) ErrNoAncestorSlip = true).
Proof.
  apply (Resolve_error_kinds no_match_resolver {| Depth := 10 |}).
  reflexivity.
Defined.

(** X12. [Resolve] asks for the walk with a positive depth only: a
    depth of zero or less is the depth 25, and two repositories that
    agree on the context and on every positive depth resolve alike. *)
Theorem Resolve_depth_positive (r : SlipResolver) (input : ResolveInput) :
  (Depth input <= 0 -> Resolve r input = Resolve r {| Depth := 25 |})
  /\ forall repo',
       GetGitContext repo' = GetGitContext (gitRepo r) ->
       (forall d, 0 < d -> GetCommitAncestry repo' d
                           = GetCommitAncestry (gitRepo r) d) ->
       Resolve {| gitRepo := repo'; finder := finder r |} input = Resolve r input.
Proof.
  split.
  - intros Hd. unfold Resolve. cbn [Depth].
    destruct (Z.leb_spec (Depth input) 0); [reflexivity | lia].
  - intros repo' Hctx Hwalk. unfold Resolve. cbn [gitRepo finder].
    rewrite Hctx, Hwalk; [reflexivity|].
    unfold DefaultAncestryDepth. destruct (Z.leb_spec (Depth input) 0); lia.
Qed.

Lemma Resolve_depth_positive_witness :
  Resolve no_match_resolver {| Depth := -1 |}
  = Resolve no_match_resolver {| Depth := 25 |}.
Proof.
  destruct (Resolve_depth_positive no_match_resolver {| Depth := -1 |}) as [H _].
  apply H. simpl. lia.
Defined.



End ResolveFacts.

Section AdapterFacts.
Import domain usecases cmd store SpecNotions MoreNotions Fixture.

(** X14. Over the go-git adapter [Resolve] never panics: the walk
    never hands it an empty sequence. *)
Theorem Resolve_over_GoGit_never_panics
    (repo : git.GoGitRepository) (ctx : git.Context) (f : SlipFinder)
    (input : ResolveInput) (msg : string) :
  Resolve {| gitRepo := GoGitLocalRepository repo ctx; finder := f |} input
  <> Panics msg.
Proof.
  unfold Resolve. cbn [gitRepo GoGitLocalRepository GetGitContext GetCommitAncestry].
  destruct (git.GetGitContext repo) as [gitCtx|e]; [|discriminate].
  destruct (git.GetCommitAncestry repo ctx _) as [[l|e]|] eqn:Hwalk;
    try discriminate.
  apply GetCommitAncestry_Ok_inv in Hwalk. destruct Hwalk as (Hne & _).
  destruct l as [|c cs]; [congruence|].
  cbn [finder].
  destruct (FindByCommits f (Repository gitCtx) (c :: cs))
    as [[[slip|] matched] [e|]]; cbn; discriminate.
Qed.

(** X15. The two methods of the go-git adapter agree on HEAD: in a
    store that keeps every commit under its own hash, the first commit
    of the walk is the [HeadSHA] of the git context. *)
Theorem GoGit_walk_starts_at_HeadSHA
    (repo : git.GoGitRepository) (ctx : git.Context) (depth : Z)
    (g : GitContext) (l : list string) :
  well_keyed (git.objects repo) ->
  git.GetGitContext repo = Ok g ->
  git.GetCommitAncestry repo ctx depth = Some (Ok l) ->
  head l = Some (HeadSHA g).
Proof.
  intros Hkey Hctx Hwalk.
  apply GetCommitAncestry_Ok_head in Hwalk.
  destruct Hwalk as (hd & c & tl & Hhead & Hc & ->).
  revert Hctx. unfold git.GetGitContext, git.Head. rewrite Hhead.
  destruct (git.Remote repo "origin") as [[|url urls]|]; try discriminate.
  destruct (git.parseRepoFromURL url); [|discriminate].
  intros [= <-]. cbn. rewrite (Hkey _ _ Hc). reflexivity.
Qed.

Lemma GoGit_walk_starts_at_HeadSHA_witness :
  head ["f2"; "merge"; "m2"] = Some "f2".
Proof.
  apply (GoGit_walk_starts_at_HeadSHA merged_repo git.Background 3
           {| HeadSHA := "f2"; Branch := "main";
              Repository := "TestOrg/test-repo"; IsDetached := false |}).
  - apply store_of_well_keyed.
  - vm_compute. reflexivity.
  - vm_compute. reflexivity.
Defined.

(** X16. Over the go-git adapter, a checkout whose HEAD resolves but
    which has no [origin] remote makes [Resolve] fail with an
    [ErrNoRemoteOrigin] error, whatever the history, the depth, the
    context and the finder. *)
Theorem Resolve_without_origin
    (repo : git.GoGitRepository) (ctx : git.Context) (f : SlipFinder)
    (input : ResolveInput) (hd : git.Reference) :
  git.HEAD repo = Some hd ->
  git.remotes repo !! "origin" = None ->
  exists e,
    Resolve {| gitRepo := GoGitLocalRepository repo ctx; finder := f |} input
    = Returns (Err e)
    /\ Is e ErrNoRemoteOrigin = true.
Proof.
  intros Hhead Horigin. unfold Resolve.
  cbn [gitRepo GoGitLocalRepository GetGitContext].
  unfold git.GetGitContext, git.Head, git.Remote. rewrite Hhead, Horigin.
  eexists. split; reflexivity.
Qed.

Lemma Resolve_without_origin_witness :
  exists e,
    Resolve {| gitRepo := GoGitLocalRepository
                 {| git.HEAD := Some {| git.RefHash := "c1";
                                        git.RefBranch := Some "main" |};
                    git.objects := store_of [mk "c1" [] 1];
                    git.remotes := ∅ |} git.Background;
               finder := {| FindByCommits := fun _ _ => (None, "", None) |} |}
      {| Depth := 5 |}
    = Returns (Err e)
    /\ Is e ErrNoRemoteOrigin = true.
Proof.
  apply (Resolve_without_origin _ git.Background _ {| Depth := 5 |}
           {| git.RefHash := "c1"; git.RefBranch := Some "main" |});
    reflexivity.
Defined.

(** X17. Over the go-git adapter, a context that is done at the first
    poll makes [Resolve] fail before the finder is asked: with a git
    context that can be read, the result is an error, the same for
    every finder. *)
Theorem Resolve_cancelled_before_finder
    (repo : git.GoGitRepository) (ctx : git.Context) (f f' : SlipFinder)
    (input : ResolveInput) (g : GitContext) :
  git.Done ctx 0 = true ->
  git.GetGitContext repo = Ok g ->
  exists e,
    Resolve {| gitRepo := GoGitLocalRepository repo ctx; finder := f |} input
    = Returns (Err e)
    /\ Resolve {| gitRepo := GoGitLocalRepository repo ctx; finder := f' |} input
       = Returns (Err e).
Proof.
  intros Hdone Hctx. unfold Resolve.
  cbn [gitRepo finder GoGitLocalRepository GetGitContext GetCommitAncestry].
  rewrite Hctx.
  destruct (git.GetCommitAncestry repo ctx _) as [[l|e]|] eqn:Hwalk.
  - exfalso. apply GetCommitAncestry_Ok_inv in Hwalk.
    destruct Hwalk as (Hne & _ & Hlive & _).
    destruct l as [|c cs]; [congruence|].
    rewrite (Hlive O) in Hdone by (simpl; lia). discriminate.
  - eexists. split; reflexivity.
  - eexists. split; reflexivity.
Qed.

Lemma Resolve_cancelled_before_finder_witness :
  exists e,
    Resolve {| gitRepo := GoGitLocalRepository linear_repo git.AlreadyCanceled;
               finder := {| FindByCommits := fun _ _ => (None, "", None) |} |}
      {| Depth := 5 |}
    = Returns (Err e).
Proof.
  destruct (Resolve_cancelled_before_finder linear_repo git.AlreadyCanceled
              {| FindByCommits := fun _ _ => (None, "", None) |}
              {| FindByCommits := fun _ _ => (None, "", None) |}
              {| Depth := 5 |}
              {| HeadSHA := "c6"; Branch := "main";
                 Repository := "TestOrg/test-repo"; IsDetached := false |})
    as (e & He & _).
  - reflexivity.
  - vm_compute. reflexivity.
  - exists e. exact He.
Defined.

Section StoreAdapter.
Context {ExtSlip : Type} (ExtCorrelationID : ExtSlip -> string).

(** X18. With the store adapter as finder, [Resolve] succeeds exactly
    when the store returns a slip and no error for the walked commits;
    the output carries that slip's correlation id and the store's
    matched commit. A store error wins over a slip returned with it. *)
Theorem Resolve_with_store_adapter
    (repo : LocalGitRepository) (a : SlipStore) (input : ResolveInput)
    (gitCtx : GitContext) (commits : list string) :
  GetGitContext repo = Ok gitCtx ->
  GetCommitAncestry repo (normalized input) = Ok commits ->
  commits <> [] ->
  let r := {| gitRepo := repo;
              finder := NewClickHouseAdapter ExtCorrelationID a |} in
  match StoreFindByCommits a (Repository gitCtx) commits with
  | (_, _, Some e) =>
      Resolve r input
      = Returns (Err (Errorf ("failed to find slip by commits: " ++ Error e) [e]))
  | (None, _, None) =>
      exists e, Resolve r input = Returns (Err e)
                /\ Is e ErrNoAncestorSlip = true
  | (Some slip, matched, None) =>
      Resolve r input
      = Returns (Ok {| CorrelationID := ExtCorrelationID slip;
                       MatchedCommit := matched;
                       OutRepository := Repository gitCtx;
                       OutBranch := Branch gitCtx;
                       ResolvedBy := "ancestry" |})
  end.
Proof.
  intros Hctx Hwalk Hne r. unfold r, Resolve, normalized in *.
  cbn [gitRepo finder NewClickHouseAdapter FindByCommits].
  rewrite Hctx, Hwalk. destruct commits as [|c cs]; [congruence|].
  unfold ClickHouseAdapter_FindByCommits.
  destruct (StoreFindByCommits a (Repository gitCtx) (c :: cs))
    as [[[slip|] matched] [e|]]; try reflexivity.
  eexists. split; [reflexivity|]. apply Is_wraps_sentinel.
Qed.

End StoreAdapter.

Lemma Resolve_with_store_adapter_witness :
  Resolve {| gitRepo := gitRepo no_match_resolver;
             finder := NewClickHouseAdapter (fun id : string => id)
                         {| StoreFindByCommits := fun _ _ =>
                              (Some "corr-1", "def456ghi789", None);
                            StoreClose := None |} |}
    {| Depth := 10 |}
  = Returns (Ok {| CorrelationID := "corr-1";
                   MatchedCommit := "def456ghi789";
                   OutRepository := "MyCarrier-DevOps/test-repo";
                   OutBranch := "feature/test";
                   ResolvedBy := "ancestry" |}).
Proof.
  apply (Resolve_with_store_adapter (fun id : string => id)
           (gitRepo no_match_resolver)
           {| StoreFindByCommits := fun _ _ =>
                (Some "corr-1", "def456ghi789", None);
              StoreClose := None |}
           {| Depth := 10 |} _ _ eq_refl eq_refl).
  discriminate.
Defined.

End AdapterFacts.

Section ConfigFacts.
Import config config_load MoreNotions.
Context `{Externals} `{ClickHouseExternals}.

Lemma goerror_eqb_refl : forall e, goerror_eqb e e = true.
Proof.
  fix IH 1. intros [m|m ws]; simpl.
  - apply bool_decide_eq_true_2. reflexivity.
  - rewrite bool_decide_eq_true_2 by reflexivity. simpl.
    induction ws as [|w ws IHws]; [reflexivity|].
    rewrite (IH w). simpl. exact IHws.
Qed.

Lemma Is_refl (e : goerror) : Is e e = true.
Proof.
  pose proof (goerror_eqb_refl e) as Hr.
  destruct e; simpl in *; rewrite Hr; reflexivity.
Qed.

(** An error with two [%w] operands is the second one under
    [errors.Is]. *)
Lemma Is_wraps_second (msg : string) (s e : goerror) :
  Is (Errorf msg [s; e]) e = true.
Proof.
  change (goerror_eqb (Errorf msg [s; e]) e
          || (Is s e || (Is e e || false)) = true).
  rewrite Is_refl. rewrite !orb_true_r. reflexivity.
Qed.

Lemma parsePipelineConfigFromVault_Err (secretData : gmap string value)
    (e : goerror) :
  parsePipelineConfigFromVault secretData = Err e ->
  Is e ErrPipelineConfigInvalid = true.
Proof.
  unfold parsePipelineConfigFromVault.
  destruct (secretData !! "config") as [[| | |configStr| | |]|].
  4:{ destruct (json_Unmarshal configStr); [discriminate|].
      intros [= <-]. apply invalid_Is. }
  all: destruct (json_Marshal secretData) as [jsonData|e0];
    [destruct (json_Unmarshal jsonData); [discriminate|];
     intros [= <-]; apply invalid_Is
    | intros [= <-]; apply Is_wraps_sentinel].
Qed.

(** X19. Every failure of the file loader is one of three: the file
    does not exist, and the error is [ErrPipelineConfigNotFound], names
    the path, and no longer is a does-not-exist error itself; the read
    failed otherwise, and the error wraps the cause alone; or the text
    was read and refused, and the error is [ErrPipelineConfigInvalid]
    and wraps the decoder's error. *)
Theorem loadPipelineConfigFromFile_error_kinds
    (fs : string -> result string) (path : string) (e' : goerror) :
  loadPipelineConfigFromFile fs path = Err e' ->
  (exists e, fs path = Err e /\ IsNotExist e = true
             /\ Is e' ErrPipelineConfigNotFound = true
             /\ IsNotExist e' = false
             /\ Error e' = Error ErrPipelineConfigNotFound ++ ": " ++ path)
  \/ (exists e, fs path = Err e /\ IsNotExist e = false
                /\ Is e' e = true
                /\ forall t, sentinel t -> Is e' t = Is e t)
  \/ (exists data e, fs path = Ok data /\ json_Unmarshal data = Err e
                     /\ Is e' ErrPipelineConfigInvalid = true
                     /\ Is e' e = true).
Proof.
  unfold loadPipelineConfigFromFile.
  destruct (fs path) as [data|e] eqn:Hfs.
  - destruct (json_Unmarshal data) as [cfg|e] eqn:Hjson; [discriminate|].
    intros [= <-]. right. right. exists data, e.
    split; [reflexivity|]. split; [exact Hjson|].
    split; [apply invalid_Is | apply Is_wraps_second].
  - destruct (IsNotExist e) eqn:Hne; intros [= <-].
    + left. exists e. split; [reflexivity|]. split; [exact Hne|].
      split; [apply Is_wraps_sentinel|]. split; reflexivity.
    + right. left. exists e. split; [reflexivity|]. split; [exact Hne|].
      split.
      * simpl. rewrite Is_refl. apply orb_true_r.
      * intros t Ht. apply (Is_wrap_one _ _ _ Ht).
Qed.

(** X20. The Vault loader asks the client for one secret only, the one
    at the given path, and never under an empty mount: a mount variable
    that is unset or empty means the mount [secret]. A failed fetch is
    an [ErrVaultSecretNotFound] error that wraps the client's error. *)
Theorem loadPipelineConfigFromVault_fetch
    (env : gmap string string) (path : string) (c : VaultClient) :
  (forall c',
     (forall mount, mount <> "" ->
        GetKVSecret c' path mount = GetKVSecret c path mount) ->
     loadPipelineConfigFromVault env (Some (Ok c')) path
     = loadPipelineConfigFromVault env (Some (Ok c)) path)
  /\ (Getenv env EnvVaultPipelineConfigMount = "" ->
      loadPipelineConfigFromVault env (Some (Ok c)) path
      = loadPipelineConfigFromVault
          (<[EnvVaultPipelineConfigMount := "secret"]> env) (Some (Ok c)) path)
  /\ (forall e',
        loadPipelineConfigFromVault env (Some (Ok c)) path = Err e' ->
        (exists mount e, mount <> "" /\ GetKVSecret c path mount = Err e
                         /\ Is e' ErrVaultSecretNotFound = true
                         /\ Is e' e = true)
        \/ Is e' ErrPipelineConfigInvalid = true).
Proof.
  unfold loadPipelineConfigFromVault. cbv zeta.
  split; [|split].
  - intros c' Hsame. rewrite Hsame; [reflexivity|].
    case_bool_decide; [discriminate | assumption].
  - intros Hmount. rewrite Hmount.
    assert (Hset : Getenv (<[EnvVaultPipelineConfigMount := "secret"]> env)
                     EnvVaultPipelineConfigMount = "secret").
    { unfold Getenv. rewrite lookup_insert_eq. reflexivity. }
    rewrite Hset. reflexivity.
  - intros e'.
    set (mount := if bool_decide (Getenv env EnvVaultPipelineConfigMount = "")
                  then DefaultVaultPipelineMount
                  else Getenv env EnvVaultPipelineConfigMount).
    assert (Hm : mount <> "").
    { unfold mount. case_bool_decide; [discriminate | assumption]. }
    destruct (GetKVSecret c path mount) as [secretData|e] eqn:Hget.
    + intros Hparse. right. apply (parsePipelineConfigFromVault_Err _ _ Hparse).
    + intros [= <-]. left. exists mount, e. split; [exact Hm|].
      split; [exact Hget|]. split; [apply Is_wraps_sentinel|].
      apply Is_wraps_second.
Qed.

(** The Vault client factory in use: the given one, or the production
    one for [nil]. *)
Lemma loadPipelineConfigFromVault_factory_Err
    (env : gmap string string) (factory : option VaultClientFactory)
    (path : string) (e : goerror) :
  default DefaultVaultClientFactory factory = Err e ->
  loadPipelineConfigFromVault env factory path = Err e.
Proof.
  unfold loadPipelineConfigFromVault. cbv zeta.
  destruct factory as [f|]; simpl; intros ->; reflexivity.
Qed.

(** X21. Every failure of the pipeline loader has a kind a caller can
    test for: it is the factory's error, unchanged; or one of the four
    sentinels [ErrPipelineConfigRequired], [ErrVaultSecretNotFound],
    [ErrPipelineConfigNotFound] and [ErrPipelineConfigInvalid]; or it
    wraps a read failure of the configured file. *)
Theorem loadPipelineConfigWithVault_error_kinds
    (env : gmap string string) (fs : string -> result string)
    (factory : option VaultClientFactory) (e' : goerror) :
  loadPipelineConfigWithVault env fs factory = Err e' ->
  default DefaultVaultClientFactory factory = Err e'
  \/ Is e' ErrPipelineConfigRequired = true
  \/ Is e' ErrVaultSecretNotFound = true
  \/ Is e' ErrPipelineConfigNotFound = true
  \/ Is e' ErrPipelineConfigInvalid = true
  \/ exists e, fs (Getenv env EnvPipelineConfig) = Err e
               /\ IsNotExist e = false /\ Is e' e = true.
Proof.
  unfold loadPipelineConfigWithVault. cbv zeta.
  case_bool_decide as Hv; simpl.
  - case_bool_decide as Hf.
    + intros [= <-]. right. left. reflexivity.
    + unfold loadPipelineConfigFromFile.
      destruct (fs (Getenv env EnvPipelineConfig)) as [data|e] eqn:Hfs.
      * destruct (json_Unmarshal data); [discriminate|].
        intros [= <-]. do 4 right. left. apply invalid_Is.
      * destruct (IsNotExist e) eqn:Hne; intros [= <-].
        -- do 3 right. left. apply Is_wraps_sentinel.
        -- do 5 right. exists e. split; [reflexivity|]. split; [exact Hne|].
           simpl. rewrite Is_refl. apply orb_true_r.
  - unfold loadPipelineConfigFromVault. cbv zeta.
    destruct factory as [[c|e]|]; simpl.
    2:{ intros [= <-]. left. reflexivity. }
    2:{ destruct DefaultVaultClientFactory as [c|e].
        2:{ intros [= <-]. left. reflexivity. }
        destruct (GetKVSecret c _ _) as [secretData|e].
        - intros Hp. do 4 right. left.
          apply (parsePipelineConfigFromVault_Err _ _ Hp).
        - intros [= <-]. do 2 right. left. apply Is_wraps_sentinel. }
    destruct (GetKVSecret c _ _) as [secretData|e].
    + intros Hp. do 4 right. left.
      apply (parsePipelineConfigFromVault_Err _ _ Hp).
    + intros [= <-]. do 2 right. left. apply Is_wraps_sentinel.
Qed.

(** X22. [LoadWithVaultClient] loads the ClickHouse configuration
    first: when that fails nothing else is looked at and the error
    wraps the cause; a pipeline failure is returned unchanged. A loaded
    configuration holds what the two loaders gave, and its log level
    and application name are never empty: the variable's value when it
    is set and not empty, [info] and [slippy-find] otherwise. *)
Theorem LoadWithVaultClient_stages
    (env : gmap string string) (fs : string -> result string)
    (factory : option VaultClientFactory) :
  (forall e, ClickhouseLoadConfig env = Err e ->
     exists e', Is e' e = true
       /\ forall fs' factory', LoadWithVaultClient env fs' factory' = Err e')
  /\ (forall ch e, ClickhouseLoadConfig env = Ok ch ->
        loadPipelineConfigWithVault env fs factory = Err e ->
        LoadWithVaultClient env fs factory = Err e)
  /\ (forall cfg, LoadWithVaultClient env fs factory = Ok cfg ->
        ClickhouseLoadConfig env = Ok (ClickHouse cfg)
        /\ loadPipelineConfigWithVault env fs factory = Ok (CfgPipelineConfig cfg)
        /\ LogLevel cfg <> "" /\ LogAppName cfg <> ""
        /\ LogLevel cfg = (if bool_decide (Getenv env EnvLogLevel = "")
                           then "info" else Getenv env EnvLogLevel)
        /\ LogAppName cfg = (if bool_decide (Getenv env EnvLogAppName = "")
                             then "slippy-find" else Getenv env EnvLogAppName)).
Proof.
  unfold LoadWithVaultClient. split; [|split].
  - intros e ->. eexists. split; [|reflexivity].
    simpl. rewrite Is_refl. apply orb_true_r.
  - intros ch e -> ->. reflexivity.
  - intros cfg.
    destruct (ClickhouseLoadConfig env) as [ch|e]; [|discriminate].
    destruct (loadPipelineConfigWithVault env fs factory) as [p|e];
      [|discriminate].
    cbv zeta. intros [= <-]. cbn.
    split; [reflexivity|]. split; [reflexivity|].
    repeat split; case_bool_decide; try discriminate; assumption.
Qed.

End ConfigFacts.

Section ConfigFactsWitnesses.
Import config config_load Fixture MoreFixtures.

Lemma loadPipelineConfigFromFile_error_kinds_witness :
  let e' := Errorf "pipeline configuration file not found: /missing.json"
              [ErrPipelineConfigNotFound] in
  (exists e, fixture_fs "/missing.json" = Err e /\ IsNotExist e = true
             /\ Is e' ErrPipelineConfigNotFound = true
             /\ IsNotExist e' = false
             /\ Error e' = Error ErrPipelineConfigNotFound ++ ": " ++ "/missing.json")
  \/ (exists e, fixture_fs "/missing.json" = Err e /\ IsNotExist e = false
                /\ Is e' e = true
                /\ forall t, MoreNotions.sentinel t -> Is e' t = Is e t)
  \/ (exists data e, fixture_fs "/missing.json" = Ok data
                     /\ json_Unmarshal data = Err e
                     /\ Is e' ErrPipelineConfigInvalid = true
                     /\ Is e' e = true).
Proof.
  apply (loadPipelineConfigFromFile_error_kinds fixture_fs "/missing.json").
  reflexivity.
Defined.

Lemma loadPipelineConfigFromVault_fetch_witness :
  loadPipelineConfigFromVault ∅
    (Some (Ok (mockVaultClient {[ "ci/pipeline" := {[ "config" := VString "{}" ]} ]}
                 None)))
    "ci/pipeline"
  = loadPipelineConfigFromVault (<[EnvVaultPipelineConfigMount := "secret"]> ∅)
      (Some (Ok (mockVaultClient {[ "ci/pipeline" := {[ "config" := VString "{}" ]} ]}
                   None)))
      "ci/pipeline".
Proof.
  apply (loadPipelineConfigFromVault_fetch ∅ "ci/pipeline"). reflexivity.
Defined.

Lemma loadPipelineConfigWithVault_error_kinds_witness :
  default DefaultVaultClientFactory None = Err ErrPipelineConfigRequired
  \/ Is ErrPipelineConfigRequired ErrPipelineConfigRequired = true
  \/ Is ErrPipelineConfigRequired ErrVaultSecretNotFound = true
  \/ Is ErrPipelineConfigRequired ErrPipelineConfigNotFound = true
  \/ Is ErrPipelineConfigRequired ErrPipelineConfigInvalid = true
  \/ exists e, fixture_fs (Getenv ∅ EnvPipelineConfig) = Err e
               /\ IsNotExist e = false /\ Is ErrPipelineConfigRequired e = true.
Proof.
  apply (loadPipelineConfigWithVault_error_kinds ∅ fixture_fs None).
  reflexivity.
Defined.

Lemma LoadWithVaultClient_stages_witness :
  ClickhouseLoadConfig fixture_env = Ok "localhost"
  /\ loadPipelineConfigWithVault fixture_env fixture_fs None
     = Ok (tt : PipelineConfig).
Proof.
  destruct (LoadWithVaultClient_stages fixture_env fixture_fs None)
    as (_ & _ & Hok).
  destruct (Hok (@Build_Config json_fixture clickhouse_fixture
                   "localhost" tt "ci" "info" "slippy-find"))
    as (Hch & Hp & _).
  - vm_compute. reflexivity.
  - split; [exact Hch | exact Hp].
Defined.

End ConfigFactsWitnesses.

Section RunFacts.
Import domain usecases cmd MoreNotions.
Context {AppConfig : Type}.

(** An error made by [fmt.Errorf] without a [%w] operand is no
    sentinel. *)
Lemma Is_plain (msg m : string) : Is (Errorf msg []) (New m) = false.
Proof. reflexivity. Qed.

(** X23. The correlation id is handed to the output writer only when
    the resolver returned an output, it is that output's id, it is
    handed over once and before any handle is closed; a run that ends
    without error did so. *)
Theorem runResolve_writes_on_success
    (deps : option (Dependencies (AppConfig := AppConfig)))
    (env : gmap string string) (args : list string) (depth : Z)
    (verbose : bool) (ex : exit) (tr : list event) :
  runResolve deps env args depth verbose = (ex, tr) ->
  (forall id, In (WroteCorrelationID id) tr ->
     tr = [WroteCorrelationID id; ClosedFinder; ClosedRepo]
     /\ exists d gitRepo finder result,
          deps = Some d
          /\ ResolverResolve (ResolverFactory d gitRepo finder) {| Depth := depth |}
             = Returns (Ok result)
          /\ id = CorrelationID result
          /\ match WriteCorrelationID (OutputWriterFactory d) id with
             | None => ex = Finished None
             | Some e =>
                 ex = Finished (Some (Errorf ("output error: " ++ Error e) [e]))
             end)
  /\ (ex = Finished None ->
      exists id, tr = [WroteCorrelationID id; ClosedFinder; ClosedRepo]).
Proof.
  unfold runResolve. destruct deps as [d|].
  2:{ intros [= <- <-]. split; [intros id []|discriminate]. }
  cbv zeta.
  destruct (ConfigLoader d _) as [cfg|e].
  2:{ intros [= <- <-]. split; [intros id []|discriminate]. }
  destruct (GitRepoFactory d _) as [gitRepo|e].
  2:{ destruct (Is e ErrRepositoryNotFound); intros [= <- <-];
      (split; [intros id []|discriminate]). }
  destruct (SlipFinderFactory d cfg) as [finder|e].
  2:{ intros [= <- <-]. split; [|discriminate].
      intros id [Hin|[]]. discriminate. }
  destruct (ResolverResolve _ _) as [[result|e]|msg] eqn:Hres.
  - destruct (WriteCorrelationID _ _) as [e|] eqn:Hw; intros [= <- <-].
    + split; [|discriminate].
      intros id [[= <-]|[Hin|[Hin|[]]]]; try discriminate.
      split; [reflexivity|]. exists d, (Repo gitRepo), (Finder finder), result.
      rewrite Hw. auto.
    + split; [|eauto].
      intros id [[= <-]|[Hin|[Hin|[]]]]; try discriminate.
      split; [reflexivity|]. exists d, (Repo gitRepo), (Finder finder), result.
      rewrite Hw. auto.
  - intros [= <- <-]. split; [|discriminate].
    intros id [Hin|[Hin|[]]]; discriminate.
  - intros [= <- <-]. split; [|discriminate].
    intros id [Hin|[Hin|[]]]; discriminate.
Qed.

Ltac run_case :=
  repeat split; intros;
  repeat match goal with
         | H : In _ _ |- _ => simpl in H
         | H : _ \/ _ |- _ => destruct H
         | H : False |- _ => destruct H
         | H : ex _ |- _ => destruct H
         | H : _ /\ _ |- _ => destruct H
         end;
  try discriminate; try congruence;
  try (exists []; reflexivity); try (eexists [_]; reflexivity);
  try (simpl; eauto 10; fail);
  try (exfalso; match goal with H : ~ _ |- _ => apply H end; eauto 10; fail).

(** X24. Every handle the run opened is closed when it ends, the slip
    finder before the repository, also when the resolver panics; and
    nothing is closed that was not opened. *)
Theorem runResolve_closes_what_it_opened
    (d : Dependencies (AppConfig := AppConfig))
    (env : gmap string string) (args : list string) (depth : Z)
    (verbose : bool) (ex : exit) (tr : list event) :
  runResolve (Some d) env args depth verbose = (ex, tr) ->
  let repoPath := match args with [] => "." | a :: _ => a end in
  let env' := if verbose then <["LOG_LEVEL" := "debug"]> env else env in
  let opened_repo :=
    exists cfg h, ConfigLoader d env' = Ok cfg /\ GitRepoFactory d repoPath = Ok h in
  let opened_finder :=
    exists cfg h fh, ConfigLoader d env' = Ok cfg
                     /\ GitRepoFactory d repoPath = Ok h
                     /\ SlipFinderFactory d cfg = Ok fh in
  (In ClosedRepo tr <-> opened_repo)
  /\ (In ClosedFinder tr <-> opened_finder)
  /\ (opened_finder -> exists pre, tr = (pre ++ [ClosedFinder; ClosedRepo])%list)
  /\ (opened_repo -> ~ opened_finder -> tr = [ClosedRepo])
  /\ (forall msg, ex = Panicked msg -> tr = [ClosedFinder; ClosedRepo]).
Proof.
  unfold runResolve. cbv zeta.
  destruct (ConfigLoader d _) as [cfg|e] eqn:Hcfg.
  2:{ intros [= <- <-]. run_case. }
  destruct (GitRepoFactory d _) as [gitRepo|e] eqn:Hrepo.
  2:{ destruct (Is e ErrRepositoryNotFound); intros [= <- <-]; run_case. }
  destruct (SlipFinderFactory d cfg) as [finder|e] eqn:Hfinder.
  2:{ intros [= <- <-]. run_case. }
  destruct (ResolverResolve _ _) as [[result|e]|msg].
  1: destruct (WriteCorrelationID _ _) as [e|].
  all: intros [= <- <-]; run_case.
Qed.

(** X25. The sentinels of the inner layers do not leave the command:
    an error of opening the repository that the run returns is never
    [ErrRepositoryNotFound], and one of resolving is never
    [ErrNoAncestorSlip] or [ErrNoRemoteOrigin]. In their place stands a
    plain error with a fixed text; any other error of these two stages
    is returned unchanged. *)
Theorem runResolve_sentinels_not_exposed
    (d : Dependencies (AppConfig := AppConfig))
    (env : gmap string string) (args : list string) (depth : Z)
    (verbose : bool) (ex : exit) (tr : list event) (cfg : AppConfig) :
  runResolve (Some d) env args depth verbose = (ex, tr) ->
  let repoPath := match args with [] => "." | a :: _ => a end in
  let env' := if verbose then <["LOG_LEVEL" := "debug"]> env else env in
  ConfigLoader d env' = Ok cfg ->
  (forall e, GitRepoFactory d repoPath = Err e ->
     exists e', ex = Finished (Some e')
       /\ Is e' ErrRepositoryNotFound = false
       /\ (if Is e ErrRepositoryNotFound
           then e' = Errorf ("not a git repository: " ++ repoPath) []
           else e' = e))
  /\ (forall h fh e,
        GitRepoFactory d repoPath = Ok h ->
        SlipFinderFactory d cfg = Ok fh ->
        ResolverResolve (ResolverFactory d (Repo h) (Finder fh)) {| Depth := depth |}
        = Returns (Err e) ->
        exists e', ex = Finished (Some e')
          /\ Is e' ErrNoAncestorSlip = false
          /\ Is e' ErrNoRemoteOrigin = false
          /\ (if Is e ErrNoAncestorSlip
              then e' = Errorf "no slip found in commit ancestry" []
              else if Is e ErrNoRemoteOrigin
              then e' = Errorf "no 'origin' remote configured; cannot determine repository name" []
              else e' = e)).
Proof.
  unfold runResolve. cbv zeta. intros Hrun Hcfg. rewrite Hcfg in Hrun.
  split.
  - intros e He. rewrite He in Hrun.
    destruct (Is e ErrRepositoryNotFound) eqn:His; injection Hrun as <- <-.
    + eexists. split; [reflexivity|]. split; reflexivity.
    + exists e. split; [reflexivity|]. split; [exact His | reflexivity].
  - intros h fh e Hh Hfh Hres. rewrite Hh, Hfh, Hres in Hrun.
    destruct (Is e ErrNoAncestorSlip) eqn:Hna.
    + injection Hrun as <- <-. eexists. split; [reflexivity|].
      repeat split; reflexivity.
    + destruct (Is e ErrNoRemoteOrigin) eqn:Hnr; injection Hrun as <- <-.
      * eexists. split; [reflexivity|]. repeat split; reflexivity.
      * exists e. split; [reflexivity|]. repeat split; assumption.
Qed.

End RunFacts.

Section RunWitnesses.
Import domain usecases cmd Fixture MoreFixtures.

Lemma runResolve_writes_on_success_witness :
  exists id,
    snd (runResolve (Some fixture_deps) fixture_env [] 25 false)
    = [WroteCorrelationID id; ClosedFinder; ClosedRepo].
Proof.
  destruct (runResolve_writes_on_success (Some fixture_deps) fixture_env [] 25
              false (Finished None)
              [WroteCorrelationID "corr-1"; ClosedFinder; ClosedRepo])
    as [_ Hdone].
  - vm_compute. reflexivity.
  - destruct (Hdone eq_refl) as [id Hid]. exists id.
    rewrite <- Hid. vm_compute. reflexivity.
Defined.

Lemma runResolve_closes_what_it_opened_witness :
  In ClosedRepo (snd (runResolve (Some fixture_deps) fixture_env [] 25 false))
  /\ In ClosedFinder (snd (runResolve (Some fixture_deps) fixture_env [] 25 false)).
Proof.
  destruct (runResolve_closes_what_it_opened fixture_deps fixture_env [] 25
              false (Finished None)
              [WroteCorrelationID "corr-1"; ClosedFinder; ClosedRepo])
    as (Hrepo & Hfinder & _).
  - vm_compute. reflexivity.
  - split.
    + replace (snd (runResolve (Some fixture_deps) fixture_env [] 25 false))
        with [WroteCorrelationID "corr-1"; ClosedFinder; ClosedRepo]
        by (vm_compute; reflexivity).
      apply Hrepo. eexists _, _. split; vm_compute; reflexivity.
    + replace (snd (runResolve (Some fixture_deps) fixture_env [] 25 false))
        with [WroteCorrelationID "corr-1"; ClosedFinder; ClosedRepo]
        by (vm_compute; reflexivity).
      apply Hfinder. eexists _, _, _.
      split; [|split]; vm_compute; reflexivity.
Defined.

Lemma runResolve_sentinels_not_exposed_witness :
  exists e',
    fst (runResolve (Some fixture_deps) fixture_env [] 1 false)
    = Finished (Some e')
    /\ Is e' ErrNoAncestorSlip = false.
Proof.
  destruct (runResolve_sentinels_not_exposed fixture_deps fixture_env [] 1 false
              (Finished (Some (Errorf "no slip found in commit ancestry" [])))
              [ClosedFinder; ClosedRepo]
              (@main.Build_AppConfig json_fixture clickhouse_fixture
                 (@main.AnyClickhouseConfig json_fixture clickhouse_fixture
                    "localhost")
                 (@main.AnyPipelineConfig json_fixture clickhouse_fixture tt)
                 "ci" "info" "slippy-find"))
    as [_ Hres].
  - vm_compute. reflexivity.
  - vm_compute. reflexivity.
  - destruct (Hres {| Repo := GoGitLocalRepository linear_repo git.Background;
                      RepoClose := None |}
                   {| Finder := store.NewClickHouseAdapter (fun id : string => id)
                                  fixture_store;
                      FinderClose := None |}
                   (Errorf "no slip found in commit ancestry: searched 1 commits from c6"
                      [ErrNoAncestorSlip]))
      as (e' & He' & Hna & _).
    + vm_compute. reflexivity.
    + vm_compute. reflexivity.
    + vm_compute. reflexivity.
    + exists e'. split; [|exact Hna]. rewrite <- He'. vm_compute. reflexivity.
Defined.

End RunWitnesses.

Section MainFacts.
Import domain usecases config config_load store cmd MoreNotions.
Context `{Externals} `{ClickHouseExternals}.
Context {ExtSlip : Type} (ExtCorrelationID : ExtSlip -> string).
Variable fs : string -> result string.
Variable PlainOpen : string -> result git.GoGitRepository.
Variable ctx : git.Context.
Variable NewClickHouseStoreFromConfig :
  ClickhouseConfig -> PipelineConfig -> string -> result (@SlipStore ExtSlip).
Variable Stdout : string -> option goerror.

(** Over the go-git adapter [Resolve] returns. *)
Lemma Resolve_over_GoGit_returns (repo : git.GoGitRepository) (f : SlipFinder)
    (input : ResolveInput) :
  exists r,
    Resolve {| gitRepo := GoGitLocalRepository repo ctx; finder := f |} input
    = Returns r.
Proof.
  unfold Resolve.
  cbn [gitRepo finder GoGitLocalRepository GetGitContext GetCommitAncestry].
  destruct (git.GetGitContext repo) as [gitCtx|e]; [|eauto].
  destruct (git.GetCommitAncestry repo ctx _) as [[l|e]|] eqn:Hwalk;
    [|eauto|eauto].
  apply GetCommitAncestry_Ok_inv in Hwalk. destruct Hwalk as (Hne & _).
  destruct l as [|c cs]; [congruence|].
  destruct (FindByCommits f (Repository gitCtx) (c :: cs))
    as [[[slip|] matched] [e|]]; eauto.
Qed.

(** The pipeline loader does not read [LOG_LEVEL]. *)
Lemma loadPipelineConfigWithVault_ignores_log_level
    (env : gmap string string) (level : string)
    (factory : option VaultClientFactory) :
  loadPipelineConfigWithVault (<["LOG_LEVEL" := level]> env) fs factory
  = loadPipelineConfigWithVault env fs factory.
Proof.
  unfold loadPipelineConfigWithVault, loadPipelineConfigFromVault, Getenv.
  rewrite !lookup_insert_ne by discriminate. reflexivity.
Qed.

(** X26. As [main] wires the command, every failure to open the
    repository, whatever go-git reports, ends the run with the plain
    error [not a git repository: <path>] for the path argument, or [.]
    without one; nothing is written and nothing closed. *)
Theorem main_open_failure
    (env : gmap string string) (args : list string) (depth : Z)
    (verbose : bool) (cfg : Config) (e : goerror) :
  let repoPath := match args with [] => "." | a :: _ => a end in
  let env' := if verbose then <["LOG_LEVEL" := "debug"]> env else env in
  Load env' fs = Ok cfg ->
  PlainOpen repoPath = Err e ->
  main.run ExtCorrelationID fs PlainOpen ctx NewClickHouseStoreFromConfig Stdout
    env args depth verbose
  = (Finished (Some (Errorf ("not a git repository: " ++ repoPath) [])), []).
Proof.
  intros repoPath env' Hcfg Hopen.
  unfold main.run, runResolve. cbv zeta.
  cbn [main.deps ConfigLoader GitRepoFactory].
  fold env' repoPath. rewrite Hcfg.
  unfold main.NewGoGitRepository. rewrite Hopen. cbv beta iota.
  assert (His : forall m, Is (Errorf m [ErrRepositoryNotFound])
                            ErrRepositoryNotFound = true)
    by (intros m; apply Is_wraps_sentinel).
  rewrite His. reflexivity.
Qed.

(** X27. As [main] wires the command, a run never ends in a panic. *)
Theorem main_never_panics
    (env : gmap string string) (args : list string) (depth : Z)
    (verbose : bool) :
  exists err, fst (main.run ExtCorrelationID fs PlainOpen ctx NewClickHouseStoreFromConfig Stdout
    env args depth verbose) = Finished err.
Proof.
  unfold main.run, runResolve. cbv zeta.
  cbn [main.deps ConfigLoader GitRepoFactory SlipFinderFactory ResolverFactory
       OutputWriterFactory].
  destruct (Load _ fs) as [cfg|e]; [|eauto].
  destruct (main.NewGoGitRepository PlainOpen _) as [repo|e].
  2:{ destruct (Is e ErrRepositoryNotFound); eauto. }
  cbn [main.AppClickHouseConfig main.AppPipelineConfig main.AppDatabase].
  destruct (NewClickHouseStoreFromConfig _ _ _) as [st|e]; [|eauto].
  cbn [Repo Finder NewSlipResolver ResolverResolve].
  destruct (Resolve_over_GoGit_returns repo
              (NewClickHouseAdapter ExtCorrelationID st) {| Depth := depth |})
    as [[result|e] ->].
  - destruct (WriteCorrelationID _ _); eauto.
  - eauto.
Qed.

(** X28. As [main] wires the command, a checkout whose HEAD resolves
    but which has no [origin] remote ends the run with the plain error
    about the missing remote, once configuration and store are there;
    both handles are closed and nothing is written. *)
Theorem main_no_origin
    (env : gmap string string) (args : list string) (depth : Z)
    (verbose : bool) (cfg : Config) (repo : git.GoGitRepository)
    (hd : git.Reference) (st : SlipStore) :
  let repoPath := match args with [] => "." | a :: _ => a end in
  let env' := if verbose then <["LOG_LEVEL" := "debug"]> env else env in
  Load env' fs = Ok cfg ->
  PlainOpen repoPath = Ok repo ->
  git.HEAD repo = Some hd ->
  git.remotes repo !! "origin" = None ->
  NewClickHouseStoreFromConfig (ClickHouse cfg) (CfgPipelineConfig cfg)
    (Database cfg) = Ok st ->
  main.run ExtCorrelationID fs PlainOpen ctx NewClickHouseStoreFromConfig Stdout
    env args depth verbose
  = (Finished (Some (Errorf
       "no 'origin' remote configured; cannot determine repository name" [])),
     [ClosedFinder; ClosedRepo]).
Proof.
  intros repoPath env' Hcfg Hopen Hhead Horigin Hstore.
  unfold main.run, runResolve. cbv zeta.
  cbn [main.deps ConfigLoader GitRepoFactory SlipFinderFactory ResolverFactory
       OutputWriterFactory].
  fold env' repoPath. rewrite Hcfg.
  unfold main.NewGoGitRepository. rewrite Hopen.
  cbn [main.AppClickHouseConfig main.AppPipelineConfig main.AppDatabase].
  rewrite Hstore.
  cbn [Repo Finder NewSlipResolver ResolverResolve].
  unfold Resolve.
  cbn [gitRepo GoGitLocalRepository GetGitContext].
  unfold git.GetGitContext, git.Head, git.Remote. rewrite Hhead, Horigin.
  reflexivity.
Qed.

(** X29. As [main] wires the command, the flag [-v] changes nothing of
    what a run decides, writes or closes, provided the ClickHouse loader
    does not read [LOG_LEVEL]: the level it puts into the configuration
    is read by nobody. *)
Theorem main_verbose_same_outcome
    (env : gmap string string) (args : list string) (depth : Z) :
  ClickhouseLoadConfig (<["LOG_LEVEL" := "debug"]> env) = ClickhouseLoadConfig env ->
  main.run ExtCorrelationID fs PlainOpen ctx NewClickHouseStoreFromConfig Stdout
    env args depth true
  = main.run ExtCorrelationID fs PlainOpen ctx NewClickHouseStoreFromConfig Stdout
    env args depth false.
Proof.
  intros Hch.
  unfold main.run, runResolve. cbv zeta.
  cbn [main.deps ConfigLoader GitRepoFactory SlipFinderFactory ResolverFactory
       OutputWriterFactory].
  unfold Load, LoadWithVaultClient.
  rewrite Hch, loadPipelineConfigWithVault_ignores_log_level.
  destruct (ClickhouseLoadConfig env) as [ch|e]; [|reflexivity].
  destruct (loadPipelineConfigWithVault env fs None) as [p|e]; [|reflexivity].
  reflexivity.
Qed.

(** X30. As [main] wires the command, a run that ends without error
    went through every stage: the configuration loaded, the repository
    opened, the store was built from that configuration, the git
    context was read, the walk gave commits, the store returned a slip
    for the repository name of the context and these commits, and
    standard output took that slip's correlation id followed by a
    newline. *)
Theorem main_success_chain
    (env : gmap string string) (args : list string) (depth : Z)
    (verbose : bool) (tr : list event) :
  let repoPath := match args with [] => "." | a :: _ => a end in
  let env' := if verbose then <["LOG_LEVEL" := "debug"]> env else env in
  main.run ExtCorrelationID fs PlainOpen ctx NewClickHouseStoreFromConfig Stdout
    env args depth verbose
  = (Finished None, tr) ->
  exists cfg repo st g commits slip matched,
    Load env' fs = Ok cfg
    /\ PlainOpen repoPath = Ok repo
    /\ NewClickHouseStoreFromConfig (ClickHouse cfg) (CfgPipelineConfig cfg)
         (Database cfg) = Ok st
    /\ git.GetGitContext repo = Ok g
    /\ git.GetCommitAncestry repo ctx (normalized {| Depth := depth |})
       = Some (Ok commits)
    /\ StoreFindByCommits st (Repository g) commits = (Some slip, matched, None)
    /\ Stdout (ExtCorrelationID slip ++ output.newline) = None
    /\ tr = [WroteCorrelationID (ExtCorrelationID slip); ClosedFinder; ClosedRepo].
Proof.
  intros repoPath env'.
  unfold main.run, runResolve. cbv zeta.
  cbn [main.deps ConfigLoader GitRepoFactory SlipFinderFactory ResolverFactory
       OutputWriterFactory].
  fold env' repoPath.
  destruct (Load env' fs) as [cfg|e] eqn:Hcfg; [|discriminate].
  unfold main.NewGoGitRepository.
  destruct (PlainOpen repoPath) as [repo|e] eqn:Hopen.
  2:{ destruct (Is _ ErrRepositoryNotFound); discriminate. }
  cbn [main.AppClickHouseConfig main.AppPipelineConfig main.AppDatabase].
  destruct (NewClickHouseStoreFromConfig _ _ _) as [st|e] eqn:Hstore;
    [|discriminate].
  cbn [Repo Finder NewSlipResolver ResolverResolve].
  unfold Resolve, normalized.
  cbn [gitRepo finder GoGitLocalRepository GetGitContext GetCommitAncestry
       NewClickHouseAdapter FindByCommits Depth].
  destruct (git.GetGitContext repo) as [g|e] eqn:Hg.
  2:{ destruct (Is _ ErrNoAncestorSlip); [discriminate|].
      destruct (Is _ ErrNoRemoteOrigin); discriminate. }
  destruct (git.GetCommitAncestry repo ctx _) as [[commits|e]|] eqn:Hwalk.
  2,3: destruct (Is _ ErrNoAncestorSlip); [discriminate|];
       destruct (Is _ ErrNoRemoteOrigin); discriminate.
  destruct commits as [|c cs]; [discriminate|].
  unfold ClickHouseAdapter_FindByCommits.
  destruct (StoreFindByCommits st (Repository g) (c :: cs))
    as [[[slip|] matched] [e|]] eqn:Hfind.
  1,3,4: destruct (Is _ ErrNoAncestorSlip); [discriminate|];
         destruct (Is _ ErrNoRemoteOrigin); discriminate.
  cbn [CorrelationID SlipCorrelationID WriteCorrelationID output.WriteCorrelationID
       output.out].
  destruct (Stdout _) as [e|] eqn:Hout; [discriminate|].
  intros [= <-].
  exists cfg, repo, st, g, (c :: cs), slip, matched. auto 10.
Qed.

End MainFacts.

Section MainWitnesses.
Import domain usecases config config_load store cmd MoreNotions Fixture MoreFixtures.

Lemma main_open_failure_witness :
  main.run (fun id : string => id) fixture_fs
    (fun _ => Err (New "repository does not exist"))
    git.Background (fun _ _ _ => Ok fixture_store) (fun _ => None)
    fixture_env ["/srv/checkout"] 25 false
  = (Finished (Some (Errorf "not a git repository: /srv/checkout" [])), []).
Proof.
  apply (main_open_failure (fun id : string => id) fixture_fs
           (fun _ => Err (New "repository does not exist"))
           git.Background (fun _ _ _ => Ok fixture_store) (fun _ => None)
           fixture_env ["/srv/checkout"] 25 false
           (@Build_Config json_fixture clickhouse_fixture
              "localhost" tt "ci" "info" "slippy-find")
           (New "repository does not exist")).
  - vm_compute. reflexivity.
  - reflexivity.
Defined.

Lemma main_no_origin_witness :
  main.run (fun id : string => id) fixture_fs
    (fun _ => Ok {| git.HEAD := Some {| git.RefHash := "c1";
                                        git.RefBranch := Some "main" |};
                    git.objects := store_of [mk "c1" [] 1];
                    git.remotes := ∅ |})
    git.Background (fun _ _ _ => Ok fixture_store) (fun _ => None)
    fixture_env [] 25 true
  = (Finished (Some (Errorf
       "no 'origin' remote configured; cannot determine repository name" [])),
     [ClosedFinder; ClosedRepo]).
Proof.
  apply (main_no_origin (fun id : string => id) fixture_fs
           (fun _ => Ok {| git.HEAD := Some {| git.RefHash := "c1";
                                               git.RefBranch := Some "main" |};
                           git.objects := store_of [mk "c1" [] 1];
                           git.remotes := ∅ |})
           git.Background (fun _ _ _ => Ok fixture_store) (fun _ => None)
           fixture_env [] 25 true
           (@Build_Config json_fixture clickhouse_fixture
              "localhost" tt "ci" "debug" "slippy-find")
           {| git.HEAD := Some {| git.RefHash := "c1";
                                  git.RefBranch := Some "main" |};
              git.objects := store_of [mk "c1" [] 1];
              git.remotes := ∅ |}
           {| git.RefHash := "c1"; git.RefBranch := Some "main" |}
           fixture_store).
  - vm_compute. reflexivity.
  - reflexivity.
  - reflexivity.
  - reflexivity.
  - reflexivity.
Defined.

Lemma main_verbose_same_outcome_witness :
  fixture_run fixture_env [] 25 true = fixture_run fixture_env [] 25 false.
Proof.
  apply (main_verbose_same_outcome (fun id : string => id) fixture_fs
           (fun _ => Ok linear_repo) git.Background
           (fun _ _ _ => Ok fixture_store) (fun _ => None) fixture_env [] 25).
  vm_compute. reflexivity.
Defined.

Lemma main_success_chain_witness :
  exists cfg repo st g commits slip matched,
    Load fixture_env fixture_fs = Ok cfg
    /\ (Ok linear_repo : result git.GoGitRepository) = Ok repo
    /\ (Ok fixture_store : result SlipStore) = Ok st
    /\ git.GetGitContext repo = Ok g
    /\ git.GetCommitAncestry repo git.Background (normalized {| Depth := 25 |})
       = Some (Ok commits)
    /\ StoreFindByCommits st (Repository g) commits = (Some slip, matched, None)
    /\ (None : option goerror) = None
    /\ [WroteCorrelationID "corr-1"; ClosedFinder; ClosedRepo]
       = [WroteCorrelationID slip; ClosedFinder; ClosedRepo].
Proof.
  apply (main_success_chain (fun id : string => id) fixture_fs
           (fun _ => Ok linear_repo) git.Background
           (fun _ _ _ => Ok fixture_store) (fun _ => None) fixture_env [] 25
           false).
  vm_compute. reflexivity.
Defined.

End MainWitnesses.
